(** * terminal-helper: the code-retrieval engine, embedded in Rocq

    A shallow embedding of the retrieval core of the repository:
    the BM25 lexical index ([bm25.ts]), the embedding client
    ([embeddings.ts]), the FAISS-backed vector store ([vectorStore.ts]),
    the hybrid fuser ([hybridSearch.ts]) and the coordinator ([rag.ts]).

    Conventions of the embedding.
    - JavaScript strings are [string]s of bytes; only ASCII letters change
      under [toLowerCase] and only ASCII white space separates tokens.
    - Scores are JavaScript numbers.  Score arithmetic is carried out over
      the real numbers [R]: rounding of binary64 is not modelled.  A
      division by zero or a logarithm of a number that is not positive
      gives [NaN] or an infinity in JavaScript and has no counterpart in
      [R]; the statements about scores carry the hypotheses under which
      none occurs (BM25 parameters in the usual range, weights of the
      hybrid search that do not add up to zero).
    - Embedding components are [jsnum]s: a finite rational payload or one
      of the three non-finite values.  A [Float32Array] holds binary32
      values: a number written into one is rounded by [fround], and
      overflows to an infinity beyond the binary32 range.
    - A JavaScript [Map] iterates in insertion order, so maps are
      association lists that keep the order of first insertion.
    - [Array.prototype.sort] is stable; with the comparators used here its
      result is the unique stable arrangement, computed by insertion.
    - Code that can throw returns a [result]. *)

From Stdlib Require Import String Ascii Bool Arith ZArith QArith Lia.
From Stdlib Require Import Qround Qabs.
From Stdlib Require Import Reals Lra List Permutation Sorted DecimalString.
Import ListNotations.

Set Warnings "-register-all".

Local Open Scope string_scope.
Local Open Scope list_scope.

(** ** Strings *)

Module Str.

Definition is_upper (c : ascii) : bool :=
  let n := nat_of_ascii c in (65 <=? n)%nat && (n <=? 90)%nat.

Definition lower_char (c : ascii) : ascii :=
  if is_upper c then ascii_of_nat (nat_of_ascii c + 32) else c.

(** [String.prototype.toLowerCase] on ASCII text. *)
Fixpoint toLowerCase (s : string) : string :=
  match s with
  | EmptyString => EmptyString
  | String c r => String (lower_char c) (toLowerCase r)
  end.

Fixpoint mem_char (c : ascii) (cls : string) : bool :=
  match cls with
  | EmptyString => false
  | String d r => Ascii.eqb c d || mem_char c r
  end.

(** [s.replace(/[cls]/g, ' ')]: every character of the class becomes a
    space. *)
Fixpoint replace_class (cls : string) (s : string) : string :=
  match s with
  | EmptyString => EmptyString
  | String c r =>
      String (if mem_char c cls then " "%char else c) (replace_class cls r)
  end.

(** The ASCII members of the regular-expression class [\s]. *)
Definition is_space (c : ascii) : bool :=
  let n := nat_of_ascii c in
  (n =? 32)%nat || ((9 <=? n)%nat && (n <=? 13)%nat).

(** [s.split(/\s+/).filter(t => t.length > 0)]: the maximal runs of
    characters that are not white space, in order.  [cur] is the run being
    read, reversed. *)
Fixpoint rev_string (acc s : string) : string :=
  match s with
  | EmptyString => acc
  | String c r => rev_string (String c acc) r
  end.

Definition flush (cur : string) (out : list string) : list string :=
  match cur with
  | EmptyString => out
  | _ => rev_string EmptyString cur :: out
  end.

Fixpoint split_ws_aux (cur : string) (s : string) : list string :=
  match s with
  | EmptyString => flush cur []
  | String c r =>
      if is_space c then flush cur (split_ws_aux EmptyString r)
      else split_ws_aux (String c cur) r
  end.

Definition split_ws (s : string) : list string := split_ws_aux EmptyString s.

(** [s.endsWith(suffix)]. *)
Definition endsWith (s suffix : string) : bool :=
  let n := String.length s in
  let m := String.length suffix in
  (m <=? n)%nat && String.eqb (substring (n - m) m s) suffix.

(** [s.slice(0, -n)] for [n > 0]. *)
Definition drop_last (n : nat) (s : string) : string :=
  substring 0 (String.length s - n) s.

End Str.

(** ** The tokenizer of the BM25 index ([bm25.ts]) *)

Record TokenizationOptions := {
  lowercase : bool;
  removeStopwords : bool;
  stemming : bool;
  splitOnCode : bool
}.

(** The constructor's defaults: every option is on unless it is passed as
    [false]. *)
Definition default_tokenization : TokenizationOptions :=
  {| lowercase := true; removeStopwords := true;
     stemming := true; splitOnCode := true |}.

Definition STOPWORDS : list string :=
  [ "a"; "an"; "and"; "are"; "as"; "at"; "be"; "but"; "by"; "for"; "if"; "in";
    "into"; "is"; "it"; "no"; "not"; "of"; "on"; "or"; "such"; "that"; "the";
    "their"; "then"; "there"; "these"; "they"; "this"; "to"; "was"; "will";
    "with" ].

Definition is_stopword (t : string) : bool :=
  existsb (String.eqb t) STOPWORDS.

(** [_stem]: tokens of at most three characters are kept; otherwise the
    first matching ending is removed, tried in the order of the source. *)
Definition _stem (token : string) : string :=
  if (String.length token <=? 3)%nat then token
  else if Str.endsWith token "ing" then Str.drop_last 3 token
  else if Str.endsWith token "ed" then Str.drop_last 2 token
  else if Str.endsWith token "s" && negb (Str.endsWith token "ss")
       then Str.drop_last 1 token
  else if Str.endsWith token "ly" then Str.drop_last 2 token
  else if Str.endsWith token "ment" then Str.drop_last 4 token
  else token.

Definition code_delimiters (s : string) : string :=
  Str.replace_class "-+*/%=<>!&|^~"
    (Str.replace_class ";:,."
       (Str.replace_class "{}()[]" s)).

(** [_tokenize]. *)
Definition _tokenize (opts : TokenizationOptions) (text : string)
  : list string :=
  let t1 := if lowercase opts then Str.toLowerCase text else text in
  let t2 := if splitOnCode opts then code_delimiters t1 else t1 in
  let toks := Str.split_ws t2 in
  let toks := if removeStopwords opts
              then filter (fun t => negb (is_stopword t)) toks else toks in
  if stemming opts then map _stem toks else toks.

Definition sample_sentence : string := "the FUNCTIONS are RUNNING quickly.".


(** ** Results of code that can throw *)

Inductive result (A : Type) : Type :=
| Ok (a : A)
| Err (message : string).
Arguments Ok {A} a.
Arguments Err {A} message.

Definition bind {A B} (r : result A) (k : A -> result B) : result B :=
  match r with
  | Ok a => k a
  | Err e => Err e
  end.

Notation "x <- r ;; k" := (bind r (fun x => k))
  (at level 61, r at next level, right associativity).

(** ** Insertion-ordered maps with string keys (JavaScript [Map]) *)

Module SMap.

Definition t (V : Type) := list (string * V).

Fixpoint get {V} (k : string) (m : t V) : option V :=
  match m with
  | [] => None
  | (k', v) :: r => if String.eqb k k' then Some v else get k r
  end.

Definition has {V} (k : string) (m : t V) : bool :=
  match get k m with Some _ => true | None => false end.

(** [m.set(k, v)]: an existing key keeps its place, a new key goes last. *)
Fixpoint set {V} (k : string) (v : V) (m : t V) : t V :=
  match m with
  | [] => [(k, v)]
  | (k', v') :: r =>
      if String.eqb k k' then (k', v) :: r else (k', v') :: set k v r
  end.

Definition keys {V} (m : t V) : list string := map fst m.
Definition values {V} (m : t V) : list V := map snd m.

End SMap.

(** ** Arrays and sorting *)

(** [a[i] = v] on a JavaScript array: inside the array the element is
    replaced; at or past the end the array grows, and the skipped places
    (holes) are represented by [hole]. *)
Definition array_set {A} (hole : A) (a : list A) (i : nat) (v : A) : list A :=
  if (i <? length a)%nat then firstn i a ++ v :: skipn (S i) a
  else a ++ repeat hole (i - length a) ++ [v].

(** [a.slice(0, k)] for an integer [k]: a negative [k] counts from the
    end. *)
Definition slice0 {A} (a : list A) (k : Z) : list A :=
  if (k <? 0)%Z then firstn (Z.to_nat (Z.max 0 (Z.of_nat (length a) + k))) a
  else firstn (Z.to_nat k) a.

Section Sorting.
Context {A : Type} (key : A -> R).

(** [x] is placed behind every element with a strictly larger key and in
    front of the first element whose key is not larger. *)
Fixpoint insert_desc (x : A) (l : list A) : list A :=
  match l with
  | [] => [x]
  | y :: r =>
      if Rlt_dec (key x) (key y) then y :: insert_desc x r else x :: l
  end.

(** [a.sort((p, q) => key(q) - key(p))]: stable, descending by key. *)
Definition sort_desc (l : list A) : list A := fold_right insert_desc [] l.
End Sorting.

(** ** The BM25 index ([bm25.ts]) *)

(** Chunk metadata.  A string field that is absent in the JavaScript object
    is represented by the empty string and an absent number by [0]: the
    code only tests such fields for truthiness or replaces them by these
    very defaults. *)
Record Metadata := {
  filePath : string;
  fileName : string;
  startLine : nat;
  endLine : nat;
  fileExt : string;
  hasImports : bool
}.

(** The object [{}] stored for a document without metadata. *)
Definition empty_metadata : Metadata :=
  {| filePath := ""; fileName := ""; startLine := 0; endLine := 0;
     fileExt := ""; hasImports := false |}.

Record BM25Document := {
  doc_id : string;
  doc_content : string;
  doc_metadata : option Metadata
}.

Record Posting := {
  docIndex : nat;
  frequency : nat
}.

Record BM25SearchResult := {
  bm_id : string;
  bm_score : R;
  bm_metadata : option Metadata
}.

Record BM25Index := {
  k1 : R;
  b : R;
  epsilon : R;
  documents : list (string * string);
  documentMetadata : SMap.t Metadata;
  invertedIndex : SMap.t (list Posting);
  documentLengths : list nat;
  averageDocumentLength : R;
  documentCount : nat;
  vocabulary : list string;
  tokenizationOptions : TokenizationOptions
}.

Definition DEFAULT_K1 : R := 1.2.
Definition DEFAULT_B : R := 0.75.
Definition DEFAULT_EPSILON : R := 0.25.

(** [new BM25Index({k1, b, epsilon, ...tokenization})]. *)
Definition new_BM25Index (k1 b epsilon : R) (opts : TokenizationOptions)
  : BM25Index :=
  {| k1 := k1; b := b; epsilon := epsilon;
     documents := []; documentMetadata := []; invertedIndex := [];
     documentLengths := []; averageDocumentLength := 0; documentCount := 0;
     vocabulary := []; tokenizationOptions := opts |}.

Definition default_BM25Index : BM25Index :=
  new_BM25Index DEFAULT_K1 DEFAULT_B DEFAULT_EPSILON default_tokenization.

(** [vocabulary.add(token)] on a [Set]. *)
Definition set_add (x : string) (s : list string) : list string :=
  if existsb (String.eqb x) s then s else s ++ [x].

(** One round of the loop that counts term frequencies. *)
Definition count_token (tf : SMap.t nat) (token : string) : SMap.t nat :=
  let tf1 := if SMap.has token tf then tf else SMap.set token 0%nat tf in
  SMap.set token
    (match SMap.get token tf1 with Some n => n | None => 0 end + 1)%nat tf1.

Definition termFrequencies (tokens : list string) : SMap.t nat :=
  fold_left count_token tokens [].

(** One round of the loop that extends the posting lists. *)
Definition push_posting (di : nat) (inv : SMap.t (list Posting))
  (entry : string * nat) : SMap.t (list Posting) :=
  let (term, freq) := entry in
  let inv1 := if SMap.has term inv then inv else SMap.set term [] inv in
  SMap.set term
    (match SMap.get term inv1 with Some ps => ps | None => [] end
       ++ [{| docIndex := di; frequency := freq |}]) inv1.

(** [addDocument]. *)
Definition addDocument (idx : BM25Index) (document : BM25Document)
  : BM25Index :=
  let id := doc_id document in
  if SMap.has id (documentMetadata idx) then idx
  else
    let tokens := _tokenize (tokenizationOptions idx) (doc_content document) in
    let di := documentCount idx in
    let docLength := length tokens in
    let totalLength :=
      (averageDocumentLength idx * INR (documentCount idx) + INR docLength)%R in
    let count' := S (documentCount idx) in
    {| k1 := k1 idx; b := b idx; epsilon := epsilon idx;
       documents := documents idx ++ [(id, doc_content document)];
       documentMetadata :=
         SMap.set id
           (match doc_metadata document with
            | Some m => m
            | None => empty_metadata
            end) (documentMetadata idx);
       invertedIndex :=
         fold_left (push_posting di) (termFrequencies tokens)
           (invertedIndex idx);
       documentLengths := array_set 0%nat (documentLengths idx) di docLength;
       averageDocumentLength := (totalLength / INR count')%R;
       documentCount := count';
       vocabulary := fold_left (fun v t => set_add t v) tokens (vocabulary idx);
       tokenizationOptions := tokenizationOptions idx |}.

Definition addDocuments (idx : BM25Index) (docs : list BM25Document)
  : BM25Index :=
  fold_left addDocument docs idx.

(** [_calculateIDF]. *)
Definition _calculateIDF (idx : BM25Index) (term : string) : R :=
  let docsWithTerm :=
    match SMap.get term (invertedIndex idx) with
    | Some ps => length ps
    | None => 0%nat
    end in
  ln (1 + (INR (documentCount idx) - INR docsWithTerm + 0.5)
          / (INR docsWithTerm + 0.5) + epsilon idx).

(** [_calculateBM25Score].  A document length read outside
    [documentLengths] is [undefined] in JavaScript; it is read as [0]
    here, and never happens in an index built by [addDocument]. *)
Definition _calculateBM25Score (idx : BM25Index) (di : nat)
  (termFrequency : nat) (idf : R) : R :=
  let docLength := INR (nth di (documentLengths idx) 0%nat) in
  let avgDocLength := averageDocumentLength idx in
  let numerator := (INR termFrequency * (k1 idx + 1))%R in
  let denominator :=
    (INR termFrequency
     + k1 idx * (1 - b idx + b idx * (docLength / avgDocLength)))%R in
  (idf * (numerator / denominator))%R.

(** The inner loop of [search]: the postings of one term.  Reading
    [documents[docIndex].id] of a document that does not exist throws. *)
Fixpoint score_postings (idx : BM25Index) (idf : R) (ps : list Posting)
  (scores : SMap.t R) : result (SMap.t R) :=
  match ps with
  | [] => Ok scores
  | p :: rest =>
      match nth_error (documents idx) (docIndex p) with
      | None => Err "TypeError: Cannot read properties of undefined"
      | Some (docId, _) =>
          let score := _calculateBM25Score idx (docIndex p) (frequency p) idf in
          let s1 := if SMap.has docId scores then scores
                    else SMap.set docId 0%R scores in
          let old := match SMap.get docId s1 with Some v => v | None => 0%R end in
          score_postings idx idf rest (SMap.set docId (old + score)%R s1)
      end
  end.

(** The outer loop of [search]: the query terms in order. *)
Fixpoint score_terms (idx : BM25Index) (terms : list string)
  (scores : SMap.t R) : result (SMap.t R) :=
  match terms with
  | [] => Ok scores
  | term :: rest =>
      match SMap.get term (invertedIndex idx) with
      | None => score_terms idx rest scores
      | Some ps =>
          s1 <- score_postings idx (_calculateIDF idx term) ps scores ;;
          score_terms idx rest s1
      end
  end.

Definition to_result (idx : BM25Index) (e : string * R) : BM25SearchResult :=
  {| bm_id := fst e; bm_score := snd e;
     bm_metadata := SMap.get (fst e) (documentMetadata idx) |}.

(** [search(query, k)]. *)
Definition search (idx : BM25Index) (query : string) (k : Z)
  : result (list BM25SearchResult) :=
  scores <-
    score_terms idx (_tokenize (tokenizationOptions idx) query) [] ;;
  Ok (slice0 (sort_desc bm_score (map (to_result idx) scores)) k).

(** ** JavaScript values that reach the embedding code *)

(** A number: finite, or one of the values that [isFinite] rejects. *)
Inductive jsnum : Type :=
| Fin (q : Q)
| NaN
| PosInf
| NegInf.

Definition isFinite (x : jsnum) : bool :=
  match x with Fin _ => true | _ => false end.

Definition isNaN (x : jsnum) : bool :=
  match x with NaN => true | _ => false end.

(** [2^e] for an integer exponent. *)
Definition pow2 (e : Z) : Q :=
  if (0 <=? e)%Z then inject_Z (2 ^ e) else / inject_Z (2 ^ (- e)).

(** The binade of a positive rational: the [e] with
    [2^e <= q < 2^(e+1)]. *)
Definition binade (q : Q) : Z :=
  let e0 := (Z.log2 (Qnum q) - Z.log2 (Zpos (Qden q)))%Z in
  if Qle_bool (pow2 e0) q then e0 else (e0 - 1)%Z.

(** Rounding to the nearest integer, ties to the even one. *)
Definition round_half_even (q : Q) : Z :=
  let f := Qfloor q in
  match Qcompare (q - inject_Z f) (1 # 2) with
  | Lt => f
  | Gt => (f + 1)%Z
  | Eq => if Z.even f then f else (f + 1)%Z
  end.

(** What a number becomes when it is written into a [Float32Array]: the
    nearest binary32 value, ties to even; 24 bits of precision, exponents
    from [-126] (below which the values are subnormal, spaced [2^-149])
    to [127]; a magnitude that rounds to [2^128] overflows to an
    infinity.  The sign of zero is not kept. *)
Definition fround (x : jsnum) : jsnum :=
  match x with
  | Fin q =>
      if Qeq_bool q 0 then Fin 0
      else
        let a := Qabs q in
        let e := Z.max (binade a) (-126) in
        let ulp := pow2 (e - 23) in
        let r := inject_Z (round_half_even (a / ulp)) * ulp in
        if Qle_bool (pow2 128) r
        then (if Qle_bool 0 q then PosInf else NegInf)
        else Fin (Qred (if Qle_bool 0 q then r else - r))
  | _ => x
  end.

Inductive jsval : Type :=
| JUndefined
| JNull
| JBool (v : bool)
| JNum (x : jsnum)
| JStr (s : string)
| JArr (items : list jsval)
| JF32 (items : list jsnum)
| JObj (props : list (string * jsval)).

(** Truthiness, as tested by [!v] and [v && ...]. *)
Definition truthy (v : jsval) : bool :=
  match v with
  | JUndefined | JNull => false
  | JBool v => v
  | JNum (Fin q) => negb (Qeq_bool q 0)
  | JNum NaN => false
  | JNum _ => true
  | JStr s => negb (String.eqb s "")
  | JArr _ | JF32 _ | JObj _ => true
  end.

(** [v[name]] for a property name that is not an index. *)
Definition prop (name : string) (v : jsval) : jsval :=
  match v with
  | JObj props =>
      match SMap.get name props with Some x => x | None => JUndefined end
  | _ => JUndefined
  end.

(** [v[0]]. *)
Definition item0 (v : jsval) : jsval :=
  match v with
  | JArr (x :: _) => x
  | JF32 (x :: _) => JNum x
  | JObj props =>
      match SMap.get "0" props with Some x => x | None => JUndefined end
  | _ => JUndefined
  end.

Definition EMBEDDING_DIMENSION : nat := 768.

Definition tenth : jsnum := Fin (1 # 10).
Definition zero : jsnum := Fin 0.

(** [0.1] as a [Float32Array] holds it. *)
Definition tenth32 : jsnum := fround tenth.

(** A list cut or filled to [EMBEDDING_DIMENSION] entries: the common
    shape of [push(...new Array(D - n).fill(c))] and [splice(D)]. *)
Definition fit {A} (fill : A) (l : list A) : list A :=
  if (length l =? EMBEDDING_DIMENSION)%nat then l
  else if (length l <? EMBEDDING_DIMENSION)%nat
       then l ++ repeat fill (EMBEDDING_DIMENSION - length l)
       else firstn EMBEDDING_DIMENSION l.

(** ** The vector store ([vectorStore.ts]) *)

Record ChunkWithEmbedding := {
  ck_filePath : string;
  ck_startLine : nat;
  ck_endLine : nat;
  ck_content : string;
  ck_hasImports : bool;
  embedding : jsval
}.

(** What is kept of a chunk: everything but its embedding. *)
Record VectorMetadata := {
  vm_filePath : string;
  vm_startLine : nat;
  vm_endLine : nat;
  vm_content : string;
  vm_hasImports : bool
}.

Definition chunk_metadata (c : ChunkWithEmbedding) : VectorMetadata :=
  {| vm_filePath := ck_filePath c; vm_startLine := ck_startLine c;
     vm_endLine := ck_endLine c; vm_content := ck_content c;
     vm_hasImports := ck_hasImports c |}.

(** The index wrapper.  The FAISS [IndexFlatL2] is the list of the records
    handed to its [add], in order. *)
Record VectorIndex := {
  index : list (list jsnum);
  dimension : nat;
  size : nat;
  idToMetadata : list (nat * VectorMetadata)
}.

(** [createFAISSIndex()] with the default dimension. *)
Definition createFAISSIndex : VectorIndex :=
  {| index := []; dimension := EMBEDDING_DIMENSION; size := 0;
     idToMetadata := [] |}.

Definition numbers_not_nan (arr : list jsval) : list jsnum :=
  flat_map (fun item =>
              match item with
              | JNum x => if isNaN x then [] else [x]
              | _ => []
              end) arr.

(** The body of the validation loop of [addToIndex] for one chunk: the
    vector to store, or [None] when the chunk is skipped. *)
Definition processEmbedding (e : jsval) : option (list jsnum) :=
  if negb (truthy e) then None
  else
    let processed :=
      match e with
      | JF32 v => Some (fit zero v)
      | JArr arr =>
          match numbers_not_nan arr with
          | [] => None
          | numericArray => Some (map fround (fit zero numericArray))
          end
      | JObj _ =>
          match prop "values" e with
          | JF32 v => Some v
          | _ => None
          end
      | _ => None
      end in
    match processed with
    | None => None
    | Some p =>
        if negb (length p =? 768)%nat then None
        else if existsb (fun x => negb (isFinite x)) p
             then Some (repeat tenth32 768)
             else Some p
    end.

Fixpoint validate (chunks : list ChunkWithEmbedding)
  : list (list jsnum * ChunkWithEmbedding) :=
  match chunks with
  | [] => []
  | c :: rest =>
      match processEmbedding (embedding c) with
      | None => validate rest
      | Some p => (p, c) :: validate rest
      end
  end.

Fixpoint number_from {A} (start : nat) (l : list A) : list (nat * A) :=
  match l with
  | [] => []
  | x :: r => (start, x) :: number_from (S start) r
  end.

Fixpoint nmap_set {V} (k : nat) (v : V) (m : list (nat * V))
  : list (nat * V) :=
  match m with
  | [] => [(k, v)]
  | (k', v') :: r =>
      if (k =? k')%nat then (k', v) :: r else (k', v') :: nmap_set k v r
  end.

(** [addToIndex]. *)
Definition addToIndex (w : VectorIndex) (chunks : list ChunkWithEmbedding)
  : VectorIndex :=
  let valid := validate chunks in
  match valid with
  | [] => w
  | _ =>
      let startId := size w in
      {| index := index w ++ map fst valid;
         dimension := dimension w;
         size := size w + length valid;
         idToMetadata :=
           fold_left (fun m e => nmap_set (fst e) (chunk_metadata (snd e)) m)
             (number_from startId (map snd valid)) (idToMetadata w) |}
  end.

(** ** The embedding client ([embeddings.ts]) *)

Section Embedding.
(** Built-ins of the language: [JSON.parse], and [Number] applied to a
    string or to any value that is not a number. *)
Variable JSON_parse : string -> option jsval.
Variable StringToNumber : string -> jsnum.
Variable coerce : jsval -> jsnum.

Definition Number_ (v : jsval) : jsnum :=
  match v with
  | JNum x => x
  | JStr s => StringToNumber s
  | _ => coerce v
  end.

(** [a.flat(Infinity)]. *)
Fixpoint flat (v : jsval) : list jsval :=
  match v with
  | JArr items =>
      (fix go (l : list jsval) : list jsval :=
         match l with
         | [] => []
         | x :: r => flat x ++ go r
         end) items
  | _ => [v]
  end.

Definition flat_items (items : list jsval) : list jsval :=
  flat_map flat items.

(** The numbers kept by [extractEmbeddingFromOutput]: numeric strings
    and numbers, as long as they are finite. *)
Definition finite_numbers (items : list jsval) : list jsnum :=
  flat_map (fun v =>
              match v with
              | JStr s =>
                  let x := StringToNumber s in
                  if negb (isNaN x) && isFinite x then [x] else []
              | JNum x => if isFinite x then [x] else []
              | _ => []
              end) items.

Definition object_values (v : jsval) : jsval :=
  match v with
  | JObj props => JArr (map snd props)
  | JF32 items => JArr (map JNum items)
  | _ => JArr []
  end.

(** The second half of [extractEmbeddingFromOutput], once the candidate
    [embedding] has been picked. *)
Definition extract_numbers (e : jsval) : result (list jsnum) :=
  match e with
  | JArr items =>
      match finite_numbers (flat_items items) with
      | [] => Err "Embedding contains no numeric values after processing"
      | numericValues => Ok (fit tenth numericValues)
      end
  | JF32 v =>
      if negb (length v =? EMBEDDING_DIMENSION)%nat
      then Ok (firstn EMBEDDING_DIMENSION v
                 ++ repeat tenth32 (EMBEDDING_DIMENSION - length v))
      else Ok v
  | _ => Err "Unsupported embedding format"
  end.

(** [extractEmbeddingFromOutput].  The recursion on a parsed string is
    bounded by [fuel]; running out of it is the stack overflow of the
    source. *)
Fixpoint extractEmbeddingFromOutput (fuel : nat) (output : jsval)
  : result (list jsnum) :=
  match output with
  | JArr _ => extract_numbers output
  | JObj _ | JF32 _ =>
      if truthy (prop "embedding" output)
      then extract_numbers (prop "embedding" output)
      else if truthy (prop "data" output)
      then
        let data := prop "data" output in
        extract_numbers (match data with JArr _ => item0 data | _ => data end)
      else
        match item0 output with
        | JArr items => extract_numbers (JArr items)
        | _ => extract_numbers (object_values output)
        end
  | JStr s =>
      match fuel with
      | O => Err "RangeError: Maximum call stack size exceeded"
      | S fuel' =>
          match JSON_parse s with
          | None =>
              Err "Invalid embedding format: string that is not valid JSON"
          | Some parsed =>
              match extractEmbeddingFromOutput fuel' parsed with
              | Ok v => Ok v
              | Err _ =>
                  Err "Invalid embedding format: string that is not valid JSON"
              end
          end
      end
  | _ => Err "Unsupported embedding type"
  end.

(** What the model call did. *)
Inductive model_outcome : Type :=
| ModelThrows (message : string)
| ModelReturns (output : jsval).

(** The array picked from the model's output in [generateEmbedding]. *)
Definition pick_embedding (fuel : nat) (output : jsval)
  : result (list jsval) :=
  match output, prop "values" (item0 output) with
  | JArr _, JF32 values => Ok (map JNum values)
  | _, _ =>
      match prop "embedding" output with
      | JArr items => Ok items
      | _ =>
          v <- extractEmbeddingFromOutput fuel output ;;
          Ok (map JNum v)
      end
  end.

Definition fallback_embedding : list jsnum :=
  repeat tenth32 EMBEDDING_DIMENSION.

(** [generateEmbedding], as a function of how [initializeCodeModel] and
    the model call went.  The result of [pick_embedding] is always an
    array, so the test [!Array.isArray(embedding)] never fires. *)
Definition generateEmbedding (init : result unit) (fuel : nat)
  (outcome : model_outcome) : result (list jsnum) :=
  match init with
  | Err e => Err ("Failed to generate embedding: " ++ e)
  | Ok _ =>
      match outcome with
      | ModelThrows _ => Ok fallback_embedding
      | ModelReturns output =>
          match pick_embedding fuel output with
          | Err _ => Ok fallback_embedding
          | Ok emb => Ok (map fround (fit tenth (map Number_ emb)))
          end
      end
  end.
End Embedding.

(** ** The hybrid fuser ([hybridSearch.ts]) *)

Record VectorSearchResult := {
  vs_id : N;
  vs_score : R;
  vs_distance : R;
  vs_metadata : Metadata
}.

Record SearchResult := {
  sr_id : string;
  bm25Score : R;
  vectorScore : R;
  combinedScore : R;
  sr_metadata : option Metadata
}.

Record GroupedSearchResult := {
  g_filePath : string;
  g_fileName : string;
  chunks : list SearchResult;
  maxScore : R;
  totalScore : R
}.

(** [String(id)] for a non-negative integer. *)
Definition String_of_id (id : N) : string :=
  NilEmpty.string_of_uint (N.to_uint id).

(** [toSearchResultMetadata] copies the six fields; reading them from
    [undefined] throws. *)
Definition toSearchResultMetadata (m : option Metadata) : result Metadata :=
  match m with
  | Some m => Ok m
  | None => Err "TypeError: Cannot read properties of undefined"
  end.

(** [vectorToSearchResultMetadata] replaces absent fields by [''], [0] and
    [false], which is how absent fields are represented here. *)
Definition vectorToSearchResultMetadata (m : Metadata) : Metadata := m.

Definition fresh_entry (id : string) (m : Metadata) : SearchResult :=
  {| sr_id := id; bm25Score := 0; vectorScore := 0; combinedScore := 0;
     sr_metadata := Some m |}.

(** One round of the loop over the BM25 results. *)
Definition merge_bm25 (acc : SMap.t SearchResult) (r : BM25SearchResult)
  : result (SMap.t SearchResult) :=
  md <- toSearchResultMetadata (bm_metadata r) ;;
  let acc1 := if SMap.has (bm_id r) acc then acc
              else SMap.set (bm_id r) (fresh_entry (bm_id r) md) acc in
  match SMap.get (bm_id r) acc1 with
  | None => Ok acc1
  | Some entry =>
      Ok (SMap.set (bm_id r)
            {| sr_id := sr_id entry; bm25Score := bm_score r;
               vectorScore := vectorScore entry;
               combinedScore := combinedScore entry;
               sr_metadata := Some md |} acc1)
  end.

(** One round of the loop over the vector results. *)
Definition merge_vector (acc : SMap.t SearchResult) (r : VectorSearchResult)
  : SMap.t SearchResult :=
  let idStr := String_of_id (vs_id r) in
  let md := vectorToSearchResultMetadata (vs_metadata r) in
  let acc1 := if SMap.has idStr acc then acc
              else SMap.set idStr (fresh_entry idStr md) acc in
  match SMap.get idStr acc1 with
  | None => acc1
  | Some entry =>
      SMap.set idStr
        {| sr_id := sr_id entry; bm25Score := bm25Score entry;
           vectorScore := vs_score r;
           combinedScore := combinedScore entry;
           sr_metadata := Some md |} acc1
  end.

Fixpoint merge_all_bm25 (rs : list BM25SearchResult)
  (acc : SMap.t SearchResult) : result (SMap.t SearchResult) :=
  match rs with
  | [] => Ok acc
  | r :: rest => acc1 <- merge_bm25 acc r ;; merge_all_bm25 rest acc1
  end.

Definition combine (bm25Weight vectorWeight : R) (e : SearchResult)
  : SearchResult :=
  {| sr_id := sr_id e; bm25Score := bm25Score e;
     vectorScore := vectorScore e;
     combinedScore := bm25Score e * bm25Weight + vectorScore e * vectorWeight;
     sr_metadata := sr_metadata e |}.

(** [mergeResults]. *)
Definition mergeResults (bm25Results : list BM25SearchResult)
  (vectorResults : list VectorSearchResult) (bm25Weight vectorWeight : R)
  : result (list SearchResult) :=
  m1 <- merge_all_bm25 bm25Results [] ;;
  let m2 := fold_left merge_vector vectorResults m1 in
  Ok (sort_desc combinedScore
        (map (combine bm25Weight vectorWeight) (SMap.values m2))).

(** One round of the loop of [groupResultsByFile]. *)
Definition group_step (groups : SMap.t GroupedSearchResult)
  (r : SearchResult) : SMap.t GroupedSearchResult :=
  match sr_metadata r with
  | None => groups
  | Some md =>
      if String.eqb (filePath md) "" then groups
      else
        let fp := filePath md in
        let g1 := if SMap.has fp groups then groups
                  else SMap.set fp
                         {| g_filePath := fp; g_fileName := fileName md;
                            chunks := []; maxScore := 0; totalScore := 0 |}
                         groups in
        match SMap.get fp g1 with
        | None => g1
        | Some g =>
            SMap.set fp
              {| g_filePath := g_filePath g; g_fileName := g_fileName g;
                 chunks := chunks g ++ [r];
                 maxScore := Rmax (maxScore g) (combinedScore r);
                 totalScore := totalScore g + combinedScore r |} g1
        end
  end.

(** [groupResultsByFile]. *)
Definition groupResultsByFile (searchResults : list SearchResult)
  : list GroupedSearchResult :=
  sort_desc maxScore (SMap.values (fold_left group_step searchResults [])).

Record HybridSearchOptions := {
  opt_bm25Weight : R;
  opt_vectorWeight : R;
  opt_k : Z;
  opt_expandedK : Z
}.

(** A caught exception thrown again with a longer message. *)
Definition rethrow {A} (prefix : string) (r : result A) : result A :=
  match r with
  | Ok a => Ok a
  | Err e => Err (prefix ++ e)%string
  end.

Section Retrieval.
(** The query-side vector search of an index: [generateEmbedding]
    followed by [searchIndex]; it depends on the embedding service and on
    the FAISS library. *)
Variable vectorSearch :
  VectorIndex -> string -> Z -> result (list VectorSearchResult).
(** The regular expressions of [prepareQueryForSearch] and of
    [identifyRootCauseFile]. *)
Variable prepareQueryForSearch : string -> string.
Variable mentionedFiles : string -> list string.
(** The file system and the indexer. *)
Variable initializeRAG : string -> result (VectorIndex * BM25Index).
Variable indexCodebase : string -> result (VectorIndex * BM25Index).

(** [hybridSearch].  The weights are divided by their sum.  When the sum
    is zero the code divides by zero and its combined scores are [NaN] or
    infinite, which [R] cannot express; what is thrown and how many
    entries come back does not depend on it, and the statements about
    scores and their order assume a sum that is not zero. *)
Definition hybridSearch (query : string) (vectorIndex : VectorIndex)
  (bm25Index : BM25Index) (o : HybridSearchOptions)
  : result (list SearchResult) :=
  rethrow "Failed to perform hybrid search: "
    (let maxAvailable :=
       Z.max (Z.of_nat (size vectorIndex))
             (Z.of_nat (documentCount bm25Index)) in
     let safeExpandedK := Z.min (opt_expandedK o) maxAvailable in
     let safeK := Z.min (opt_k o) maxAvailable in
     let totalWeight := (opt_bm25Weight o + opt_vectorWeight o)%R in
     bm25Results <- search bm25Index query safeExpandedK ;;
     vectorResults <- vectorSearch vectorIndex query safeExpandedK ;;
     merged <- mergeResults bm25Results vectorResults
                 (opt_bm25Weight o / totalWeight)
                 (opt_vectorWeight o / totalWeight) ;;
     Ok (slice0 merged safeK)).

Definition rootCauseScore (mentioned : list string) (r : SearchResult) : R :=
  let s := combinedScore r in
  match sr_metadata r with
  | None => s
  | Some md =>
      let s1 := if negb (String.eqb (fileName md) "")
                   && existsb (String.eqb (fileName md)) mentioned
                then (s * 1.5)%R else s in
      if hasImports md then (s1 * 1.2)%R else s1
  end.

(** [identifyRootCauseFile]. *)
Definition identifyRootCauseFile (searchResults : list SearchResult)
  (errorLog : string) : option SearchResult :=
  match searchResults with
  | [] => None
  | _ =>
      hd_error (sort_desc (rootCauseScore (mentionedFiles errorLog))
                  searchResults)
  end.

Record RetrieveOptions := {
  ro_k : Z;
  ro_bm25Weight : R;
  ro_vectorWeight : R;
  ro_identifyRoot : bool
}.

Record RetrieveResult := {
  results : list SearchResult;
  groupedResults : list GroupedSearchResult;
  rootCauseFile : option SearchResult
}.

Definition empty_result : RetrieveResult :=
  {| results := []; groupedResults := []; rootCauseFile := None |}.

(** The options handed to [hybridSearch]: [k] is cut to the available
    data and [expandedK] takes its default, [3 * k]. *)
Definition search_options (vectorIndex : VectorIndex)
  (bm25Index : BM25Index) (o : RetrieveOptions) : HybridSearchOptions :=
  let maxAvailable :=
    Z.max (Z.of_nat (size vectorIndex))
          (Z.of_nat (documentCount bm25Index)) in
  let safeK := Z.min (ro_k o) maxAvailable in
  {| opt_bm25Weight := ro_bm25Weight o;
     opt_vectorWeight := ro_vectorWeight o;
     opt_k := safeK; opt_expandedK := (safeK * 3)%Z |}.

(** The part of [retrieveRelevantFiles] that follows the check of the
    indices. *)
Definition retrieve_with (errorLog : string) (vectorIndex : VectorIndex)
  (bm25Index : BM25Index) (o : RetrieveOptions) : result RetrieveResult :=
  let processedQuery := prepareQueryForSearch errorLog in
  rs <- hybridSearch processedQuery vectorIndex bm25Index
          (search_options vectorIndex bm25Index o) ;;
  Ok {| results := rs;
        groupedResults := groupResultsByFile rs;
        rootCauseFile :=
          if ro_identifyRoot o && negb (length rs =? 0)%nat
          then identifyRootCauseFile rs errorLog else None |}.

Definition indices_empty (sys : VectorIndex * BM25Index) : bool :=
  (size (fst sys) =? 0)%nat || (documentCount (snd sys) =? 0)%nat.

(** [retrieveRelevantFiles]. *)
Definition retrieveRelevantFiles (errorLog projectRoot : string)
  (o : RetrieveOptions) : result RetrieveResult :=
  rethrow "Failed to retrieve relevant files: "
    (sys <- initializeRAG projectRoot ;;
     let (vectorIndex, bm25Index) := sys in
     if indices_empty sys
     then
       match indexCodebase projectRoot with
       | Err _ => Ok empty_result
       | Ok (vectorIndex', bm25Index') =>
           if (size vectorIndex' =? 0)%nat then Ok empty_result
           else retrieve_with errorLog vectorIndex' bm25Index' o
       end
     else retrieve_with errorLog vectorIndex bm25Index o).
End Retrieval.

(** ** Sample data *)

(** What the client of the embedding service returns for a response whose
    [embedding] field holds [values]: [[{values, dims}]]. *)
Definition embeddingModel_output (values : list jsnum) : jsval :=
  JArr [JObj [("values", JF32 values);
              ("dims", JNum (Fin (inject_Z (Z.of_nat (length values)))))]].

Definition no_JSON : string -> option jsval := fun _ => None.
Definition no_number : string -> jsnum := fun _ => NaN.
Definition no_coercion : jsval -> jsnum := fun _ => NaN.

(** A response of the right length whose first component is not a
    number. *)
Definition nan_response : list jsnum := NaN :: repeat (Fin 1) 767.

Definition sample_chunk (e : jsval) : ChunkWithEmbedding :=
  {| ck_filePath := "/p/a.ts"; ck_startLine := 1; ck_endLine := 3;
     ck_content := "let a = 1"; ck_hasImports := false; embedding := e |}.

Definition sample_metadata : Metadata :=
  {| filePath := "/p/a.ts"; fileName := "a.ts"; startLine := 1; endLine := 3;
     fileExt := ".ts"; hasImports := false |}.

Definition sample_document (id content : string) : BM25Document :=
  {| doc_id := id; doc_content := content;
     doc_metadata := Some sample_metadata |}.

Definition default_retrieve_options : RetrieveOptions :=
  {| ro_k := 5; ro_bm25Weight := 0.3; ro_vectorWeight := 0.7;
     ro_identifyRoot := true |}.

Definition no_vector_hits
  : VectorIndex -> string -> Z -> result (list VectorSearchResult) :=
  fun _ _ _ => Ok [].

Definition corrupt_store : string -> result (VectorIndex * BM25Index) :=
  fun _ => Err "Failed to get or create index: Unexpected token".

Definition empty_store : string -> result (VectorIndex * BM25Index) :=
  fun _ => Ok (createFAISSIndex, default_BM25Index).

Definition failing_indexer : string -> result (VectorIndex * BM25Index) :=
  fun _ => Err "Failed to initialize CodeBERT model".

Definition failing_vector_search
  : VectorIndex -> string -> Z -> result (list VectorSearchResult) :=
  fun _ _ _ => Err "Failed to search index: FAISS is not available".

(** The records that a list of chunks contributes to the store. *)
Definition stored_records (chunks : list ChunkWithEmbedding)
  : list (list jsnum) :=
  flat_map (fun c => match processEmbedding (embedding c) with
                     | Some p => [p]
                     | None => []
                     end) chunks.

Definition all_finite (v : list jsnum) : bool := forallb isFinite v.

(** The check for [NaN] or infinite values at the end of the validation
    loop of [addToIndex]: a vector with a component that is not finite
    is replaced by [new Float32Array(768).fill(0.1)]. *)
Definition whole_or_constant (q : list jsnum) : list jsnum :=
  if all_finite q then q else repeat tenth32 EMBEDDING_DIMENSION.

(** What the Python service answers, as the client passes it on:
    [{embedding: [...]}]. *)
Definition service_output (values : list jsnum) : jsval :=
  JObj [("embedding", JArr (map JNum values))].

(** [1e39]: a finite number beyond the binary32 range. *)
Definition huge : jsnum := Fin (inject_Z (10 ^ 39)).

Definition huge_response : list jsnum := huge :: repeat (Fin 1) 767.

(** ** Predicates used in the statements *)

(** A list in non-increasing order of [key]. *)
Definition descending {A : Type} (key : A -> R) (l : list A) : Prop :=
  StronglySorted (fun x y => (key y <= key x)%R) l.

(** Some occurrence of [a] comes before some occurrence of [b]. *)
Inductive before {A : Type} (a b : A) : list A -> Prop :=
| before_here (l : list A) : In b l -> before a b (a :: l)
| before_later (c : A) (l : list A) : before a b l -> before a b (c :: l).

(** The order in which the documents receive their first score in
    [search]: the keys of the score map. *)
Definition scoring_order (idx : BM25Index) (query : string) : list string :=
  match score_terms idx (_tokenize (tokenizationOptions idx) query) [] with
  | Ok scores => SMap.keys scores
  | Err _ => []
  end.

(** The indices that [addDocument] can build. *)
Inductive built : BM25Index -> Prop :=
| built_new (k1 b epsilon : R) (opts : TokenizationOptions) :
    built (new_BM25Index k1 b epsilon opts)
| built_add (idx : BM25Index) (doc : BM25Document) :
    built idx -> built (addDocument idx doc).

(** Parameters in the usual range of BM25. *)
Definition usual_parameters (idx : BM25Index) : Prop :=
  (0 <= k1 idx /\ 0 <= b idx <= 1 /\ 0 <= epsilon idx)%R.

Definition posting_list_ok (n : nat) (ps : list Posting) : Prop :=
  (length ps <= n)%nat
  /\ Forall (fun p => (docIndex p < n)%nat /\ (1 <= frequency p)%nat) ps.

(** What [addDocument] maintains. *)
Record well_formed (idx : BM25Index) : Prop := {
  wf_documents : length (documents idx) = documentCount idx;
  wf_lengths : length (documentLengths idx) = documentCount idx;
  wf_average : (0 <= averageDocumentLength idx)%R;
  wf_terms : NoDup (SMap.keys (invertedIndex idx));
  wf_postings :
    forall term ps,
      SMap.get term (invertedIndex idx) = Some ps ->
      posting_list_ok (documentCount idx) ps
}.

(** The term frequencies of a document: distinct terms, each counted at
    least once. *)
Definition frequencies_ok (tf : SMap.t nat) : Prop :=
  NoDup (SMap.keys tf)
  /\ forall k n, SMap.get k tf = Some n -> (1 <= n)%nat.

(** The posting list of a term once a document with [freq] occurrences
    has been pushed. *)
Definition new_posting (di : nat) (inv : SMap.t (list Posting))
  (term : string) (freq : nat) : list Posting :=
  match SMap.get term inv with Some ps => ps | None => [] end
    ++ [{| docIndex := di; frequency := freq |}].

(** A score map of [search]: distinct ids of documents of the index, no
    negative score. *)
Definition scores_ok (idx : BM25Index) (scores : SMap.t R) : Prop :=
  NoDup (SMap.keys scores)
  /\ incl (SMap.keys scores) (map fst (documents idx))
  /\ forall k v, In (k, v) scores -> (0 <= v)%R.

(** One document of ten tokens in which [foo] occurs twice. *)
Definition foo_content : string :=
  "foo foo alpha beta gamma delta kappa lambda omega sigma".

Definition foo_index : BM25Index :=
  addDocument default_BM25Index (sample_document "d1" foo_content).

(** Two documents of one token each. *)
Definition tie_index : BM25Index :=
  addDocuments default_BM25Index
    [sample_document "d0" "alpha"; sample_document "d1" "beta"].

(** A result that [groupResultsByFile] keeps: it has metadata with a file
    path that is not empty. *)
Definition kept (r : SearchResult) : bool :=
  match sr_metadata r with
  | Some md => negb (String.eqb (filePath md) "")
  | None => false
  end.

Definition path_of (r : SearchResult) : string :=
  match sr_metadata r with
  | Some md => filePath md
  | None => ""
  end.

Definition in_file (p : string) (r : SearchResult) : bool :=
  kept r && String.eqb (path_of r) p.

Definition sum_scores (cs : list SearchResult) : R :=
  fold_left Rplus (map combinedScore cs) 0%R.

Definition max_score_from_zero (cs : list SearchResult) : R :=
  fold_left Rmax (map combinedScore cs) 0%R.

Definition group_ok (pre : list SearchResult) (p : string)
  (g : GroupedSearchResult) : Prop :=
  g_filePath g = p /\ p <> ""
  /\ chunks g = filter (in_file p) pre /\ chunks g <> []
  /\ totalScore g = sum_scores (chunks g)
  /\ maxScore g = max_score_from_zero (chunks g).

Definition groups_ok (pre : list SearchResult)
  (groups : SMap.t GroupedSearchResult) : Prop :=
  NoDup (SMap.keys groups)
  /\ (forall p g, In (p, g) groups -> group_ok pre p g)
  /\ (forall r, In r pre -> kept r = true ->
                SMap.has (path_of r) groups = true).

Definition scored_result (id : string) (score : R) (m : option Metadata)
  : SearchResult :=
  {| sr_id := id; bm25Score := 0; vectorScore := 0; combinedScore := score;
     sr_metadata := m |}.

(** The same chunk as it comes back from the two searches: under its chunk
    id from the BM25 index, under its position from the vector index. *)
Definition bm25_hit : BM25SearchResult :=
  {| bm_id := "/p/a.ts:1-3"; bm_score := 2;
     bm_metadata := Some sample_metadata |}.

Definition vector_hit : VectorSearchResult :=
  {| vs_id := 0; vs_score := 0.5; vs_distance := 50;
     vs_metadata := sample_metadata |}.

(** ** The index that a list of documents should give *)

Definition doc_ids (idx : BM25Index) : list string :=
  map fst (documents idx).

Definition token_count (opts : TokenizationOptions) (d : string * string)
  : nat :=
  length (_tokenize opts (snd d)).

(** The postings of [term] in the documents [docs], numbered from
    [start]: one posting for each document in which the term occurs, with
    the number of its occurrences. *)
Fixpoint postings_from (opts : TokenizationOptions) (term : string)
  (start : nat) (docs : list (string * string)) : list Posting :=
  match docs with
  | [] => []
  | d :: rest =>
      let n := count_occ string_dec (_tokenize opts (snd d)) term in
      (if (n =? 0)%nat then []
       else [{| docIndex := start; frequency := n |}])
        ++ postings_from opts term (S start) rest
  end.

(** The query and the document have a term in common. *)
Definition shares_term (opts : TokenizationOptions) (query content : string)
  : Prop :=
  exists t, In t (_tokenize opts query) /\ In t (_tokenize opts content).

(** The documents of an index as the fields of the index describe them. *)
Record consistent (idx : BM25Index) : Prop := {
  cs_count : documentCount idx = length (documents idx);
  cs_ids : NoDup (doc_ids idx);
  cs_metadata : SMap.keys (documentMetadata idx) = doc_ids idx;
  cs_lengths :
    documentLengths idx
    = map (token_count (tokenizationOptions idx)) (documents idx);
  cs_average :
    (averageDocumentLength idx * INR (documentCount idx)
     = INR (list_sum (documentLengths idx)))%R;
  cs_terms : NoDup (SMap.keys (invertedIndex idx));
  cs_postings :
    forall term,
      match SMap.get term (invertedIndex idx) with
      | Some ps =>
          ps <> []
          /\ ps = postings_from (tokenizationOptions idx) term 0
                    (documents idx)
      | None =>
          postings_from (tokenizationOptions idx) term 0 (documents idx) = []
      end;
  cs_vocabulary :
    forall term,
      In term (vocabulary idx)
      <-> SMap.has term (invertedIndex idx) = true
}.
(** The ids of the documents that a posting list names, in its order. *)
Definition posting_ids (idx : BM25Index) (ps : list Posting) : list string :=
  flat_map (fun p => match nth_error (documents idx) (docIndex p) with
                     | Some (id, _) => [id]
                     | None => []
                     end) ps.

(** Two documents with the same single token. *)
Definition twin_index : BM25Index :=
  addDocuments default_BM25Index
    [sample_document "d0" "alpha"; sample_document "d1" "alpha"].

(** ** What a merged entry should hold *)

(** The BM25 score of [id]: that of the last BM25 result with this id,
    [0] when there is none. *)
Definition bm25_score_of (id : string) (rs : list BM25SearchResult) : R :=
  fold_left (fun acc r => if String.eqb (bm_id r) id then bm_score r else acc)
    rs 0%R.

(** The vector score of the key [id]: that of the last vector result whose
    number prints as [id], [0] when there is none. *)
Definition vector_score_of (id : string) (rs : list VectorSearchResult) : R :=
  fold_left (fun acc r => if String.eqb (String_of_id (vs_id r)) id
                          then vs_score r else acc)
    rs 0%R.

Definition vector_keys (rs : list VectorSearchResult) : list string :=
  map (fun r => String_of_id (vs_id r)) rs.

(** The state of the map of [mergeResults] after the BM25 results [bm] and
    the vector results [vec] have been read. *)
Definition merged_ok (bm : list BM25SearchResult)
  (vec : list VectorSearchResult) (m : SMap.t SearchResult) : Prop :=
  NoDup (SMap.keys m)
  /\ (forall id, In id (SMap.keys m)
                 <-> In id (map bm_id bm) \/ In id (vector_keys vec))
  /\ forall id e, In (id, e) m ->
       sr_id e = id
       /\ bm25Score e = bm25_score_of id bm
       /\ vectorScore e = vector_score_of id vec.

Definition default_hybrid_options : HybridSearchOptions :=
  {| opt_bm25Weight := 0.3; opt_vectorWeight := 0.7;
     opt_k := 5; opt_expandedK := 15 |}.

(** ** The vector store, continued ([vectorStore.ts], [embeddings.ts]) *)

(** The chunks of a call of [addToIndex] that are stored. *)
Definition kept_chunks (chunks : list ChunkWithEmbedding)
  : list ChunkWithEmbedding :=
  map snd (validate chunks).

(** An index whose ids are [0 .. size-1], with the metadata [metas]. *)
Definition dense (w : VectorIndex) (metas : list VectorMetadata) : Prop :=
  size w = length (index w)
  /\ size w = length metas
  /\ idToMetadata w = number_from 0 metas.

(** What [index.search(query, k)] of the FAISS library answered. *)
Record FAISSSearchResult := {
  distances : list R;
  labels : list Z
}.

(** A hit of [searchIndex]; its metadata is the stored record. *)
Record IndexHit := {
  hit_id : Z;
  hit_score : R;
  hit_distance : R;
  hit_metadata : VectorMetadata
}.

(** [idToMetadata.get(id)]. *)
Fixpoint nmap_get {V} (id : Z) (m : list (nat * V)) : option V :=
  match m with
  | [] => None
  | (k, v) :: r => if (id =? Z.of_nat k)%Z then Some v else nmap_get id r
  end.

(** The loop of [searchIndex] over the first [min(labels.length,
    distances.length)] answers. *)
Fixpoint collect_hits (m : list (nat * VectorMetadata)) (ls : list Z)
  (ds : list R) : list IndexHit :=
  match ls, ds with
  | id :: ls', d :: ds' =>
      if (id =? -1)%Z then collect_hits m ls' ds'
      else
        match nmap_get id m with
        | None => collect_hits m ls' ds'
        | Some md =>
            {| hit_id := id; hit_score := Rmax 0 (1 - d / 100);
               hit_distance := d; hit_metadata := md |}
              :: collect_hits m ls' ds'
        end
  | _, _ => []
  end.

(** [searchIndex]; [faiss_search] is [index.search] at the query
    vector. *)
Definition searchIndex (w : VectorIndex)
  (faiss_search : Z -> result FAISSSearchResult) (k : Z)
  : result (list IndexHit) :=
  rethrow "Failed to search index: "
    (let safeK := Z.min k (Z.of_nat (size w)) in
     if (safeK =? 0)%Z then Ok []
     else
       r <- faiss_search safeK ;;
       Ok (sort_desc hit_score
             (collect_hits (idToMetadata w) (labels r) (distances r)))).

Definition zero_vector : list jsnum := repeat zero EMBEDDING_DIMENSION.

(** [formatEmbeddingForVectorStore]; every branch returns a
    [Float32Array]. *)
Definition formatEmbeddingForVectorStore (e : jsval) : jsval :=
  if negb (truthy e) then JF32 zero_vector
  else
    match e with
    | JObj _ =>
        match prop "values" e with
        | JF32 v => JF32 v
        | _ => JF32 zero_vector
        end
    | JF32 v =>
        if negb (length v =? EMBEDDING_DIMENSION)%nat
        then JF32 (firstn EMBEDDING_DIMENSION v
                     ++ repeat zero (EMBEDDING_DIMENSION - length v))
        else JF32 v
    | JArr items =>
        match numbers_not_nan (flat_items items) with
        | [] => JF32 zero_vector
        | flattened => JF32 (map fround (fit zero flattened))
        end
    | _ => JF32 zero_vector
    end.

Record EmbeddingValidationResult := {
  totalChunks : nat;
  validEmbeddings : nat;
  invalidEmbeddings : nat;
  errors : list string
}.

(** The test applied to a formatted embedding:
    [Array.isArray(f) && f.length === 768 && f.every(x => typeof x ===
    'number' && !isNaN(x))]. *)
Definition is_valid_array (f : jsval) : bool :=
  match f with
  | JArr items =>
      (length items =? EMBEDDING_DIMENSION)%nat
      && forallb (fun x => match x with
                           | JNum n => negb (isNaN n)
                           | _ => false
                           end) items
  | _ => false
  end.

(** One round of the loop of [validateEmbeddings]; the chunks modelled
    here carry no [id], so the messages name them [unknown]. *)
Definition validate_chunk (res : EmbeddingValidationResult)
  (chunk : ChunkWithEmbedding) : EmbeddingValidationResult :=
  if truthy (embedding chunk) then
    if is_valid_array (formatEmbeddingForVectorStore (embedding chunk))
    then {| totalChunks := totalChunks res;
            validEmbeddings := validEmbeddings res + 1;
            invalidEmbeddings := invalidEmbeddings res;
            errors := errors res |}
    else {| totalChunks := totalChunks res;
            validEmbeddings := validEmbeddings res;
            invalidEmbeddings := invalidEmbeddings res + 1;
            errors := errors res
                      ++ ["Invalid embedding format in chunk: unknown"] |}
  else {| totalChunks := totalChunks res;
          validEmbeddings := validEmbeddings res;
          invalidEmbeddings := invalidEmbeddings res + 1;
          errors := errors res ++ ["Missing embedding in chunk: unknown"] |}.

(** [validateEmbeddings]. *)
Definition validateEmbeddings (chunks : list ChunkWithEmbedding)
  : EmbeddingValidationResult :=
  fold_left validate_chunk chunks
    {| totalChunks := length chunks; validEmbeddings := 0;
       invalidEmbeddings := 0; errors := [] |}.

Definition sample_faiss (k : Z) : result FAISSSearchResult :=
  Ok {| distances := [4%R; 250%R]; labels := [0%Z; (-1)%Z] |}.

Definition one_vector_index : VectorIndex :=
  addToIndex createFAISSIndex [sample_chunk (JF32 nan_response)].

Definition two_vector_index : VectorIndex :=
  addToIndex one_vector_index [sample_chunk (JF32 nan_response)].

(** An answer of FAISS with three places: a far record, a near one, and
    a place that is not filled. *)
Definition faiss_answers (k : Z) : result FAISSSearchResult :=
  Ok {| distances := [250%R; 4%R; 7%R]; labels := [0%Z; 1%Z; (-1)%Z] |}.



(** An indexer that builds a vector index of one record and a BM25 index
    of two documents. *)
Definition fresh_indexer : string -> result (VectorIndex * BM25Index) :=
  fun _ => Ok (one_vector_index, tie_index).

(** The indices that [retrieveRelevantFiles] searches: those that
    [initializeRAG] opened when neither of them is empty; otherwise those
    that [indexCodebase] built, when the vector index among them is not
    empty. *)
Definition searched_indices
  (initializeRAG indexCodebase : string -> result (VectorIndex * BM25Index))
  (projectRoot : string) (v : VectorIndex) (b : BM25Index) : Prop :=
  exists v0 b0,
    initializeRAG projectRoot = Ok (v0, b0)
    /\ ((size v0 <> 0%nat /\ documentCount b0 <> 0%nat /\ v = v0 /\ b = b0)
        \/ ((size v0 = 0%nat \/ documentCount b0 = 0%nat)
            /\ indexCodebase projectRoot = Ok (v, b) /\ size v <> 0%nat)).

(** ** Vocabulary for the tokenizer's properties *)

(** The characters of a string, in order. *)
Definition chars (s : string) : list ascii := list_ascii_of_string s.

(** The options [opts] with stemming switched off. *)
Definition without_stemming (opts : TokenizationOptions)
  : TokenizationOptions :=
  {| lowercase := lowercase opts; removeStopwords := removeStopwords opts;
     stemming := false; splitOnCode := splitOnCode opts |}.

(** ** Preparing code text for the BM25 index ([preprocessCodeForBM25]) *)

(** The line terminators, which [.] does not match. *)
Definition is_line_end (c : ascii) : bool :=
  Ascii.eqb c "010"%char || Ascii.eqb c "013"%char.

(** Does [*/] occur in the text? *)
Fixpoint has_close (s : list ascii) : bool :=
  match s with
  | c :: ((d :: _) as r) =>
      (Ascii.eqb c "*" && Ascii.eqb d "/") || has_close r
  | _ => false
  end.

(** [s.replace(/\/\*[\s\S]*?\*\//g, '')]: a [/*] that is closed later is
    removed up to the first [*/] after it; one that is never closed stays.
    [inside] tells that a comment is being skipped. *)
Fixpoint strip_block (inside : bool) (s : list ascii) : list ascii :=
  match s with
  | [] => []
  | c :: r =>
      if inside then
        match r with
        | d :: r' =>
            if Ascii.eqb c "*" && Ascii.eqb d "/" then strip_block false r'
            else strip_block true r
        | [] => []
        end
      else
        match r with
        | d :: r' =>
            if Ascii.eqb c "/" && Ascii.eqb d "*" && has_close r'
            then strip_block true r'
            else c :: strip_block false r
        | [] => [c]
        end
  end.

(** [s.replace(/\/\/.*/g, '')]: from [//] to the end of the line. *)
Fixpoint strip_line (inside : bool) (s : list ascii) : list ascii :=
  match s with
  | [] => []
  | c :: r =>
      if inside then
        if is_line_end c then c :: strip_line false r
        else strip_line true r
      else
        match r with
        | d :: r' =>
            if Ascii.eqb c "/" && Ascii.eqb d "/" then strip_line true r'
            else c :: strip_line false r
        | [] => [c]
        end
  end.

(** [s.replace(/#.*/g, '')]: from [#] to the end of the line. *)
Fixpoint strip_hash (inside : bool) (s : list ascii) : list ascii :=
  match s with
  | [] => []
  | c :: r =>
      if inside then
        if is_line_end c then c :: strip_hash false r
        else strip_hash true r
      else if Ascii.eqb c "#" then strip_hash true r
      else c :: strip_hash false r
  end.

(** [s.replace(/\s+/g, ' ')]: every run of white space becomes one space.
    [in_run] tells that the previous character was white space. *)
Fixpoint collapse_ws (in_run : bool) (s : list ascii) : list ascii :=
  match s with
  | [] => []
  | c :: r =>
      if Str.is_space c then
        if in_run then collapse_ws true r
        else " "%char :: collapse_ws true r
      else c :: collapse_ws false r
  end.

Fixpoint drop_ws (s : list ascii) : list ascii :=
  match s with
  | [] => []
  | c :: r => if Str.is_space c then drop_ws r else s
  end.

(** [s.trim()]. *)
Definition trim (s : list ascii) : list ascii :=
  rev (drop_ws (rev (drop_ws s))).

(** [preprocessCodeForBM25]. *)
Definition preprocessCodeForBM25 (codeContent : string) : string :=
  let s := list_ascii_of_string codeContent in
  let s := strip_hash false (strip_line false (strip_block false s)) in
  string_of_list_ascii (trim (collapse_ws false s)).

(** The pairs of neighbouring characters of a text. *)
Fixpoint pairs (l : list ascii) : list (ascii * ascii) :=
  match l with
  | a :: ((b :: _) as r) => (a, b) :: pairs r
  | _ => []
  end.

(** ** Embedding the chunks of a file ([batchGenerateEmbeddings]) *)

Definition BATCH_SIZE : nat := 4.

(** [{...chunk, embedding: e}]. *)
Definition with_embedding (chunk : ChunkWithEmbedding) (e : jsval)
  : ChunkWithEmbedding :=
  {| ck_filePath := ck_filePath chunk; ck_startLine := ck_startLine chunk;
     ck_endLine := ck_endLine chunk; ck_content := ck_content chunk;
     ck_hasImports := ck_hasImports chunk; embedding := e |}.

(** The body of the inner loop: the chunk with its embedding, or with
    [null] when [generateEmbedding] threw. *)
Definition embed_chunk (embed : string -> result (list jsnum))
  (chunk : ChunkWithEmbedding) : ChunkWithEmbedding :=
  match embed (ck_content chunk) with
  | Ok v => with_embedding chunk (JF32 v)
  | Err _ => with_embedding chunk JNull
  end.

(** [a.slice(i, j)] for [i <= j]. *)
Definition slice {A} (a : list A) (i j : nat) : list A :=
  firstn (j - i) (skipn i a).

(** The values of [i] in [for (i = 0; i < n; i += BATCH_SIZE)]. *)
Definition batch_starts (n : nat) : list nat :=
  map (fun j => j * BATCH_SIZE)%nat
    (seq 0 ((n + BATCH_SIZE - 1) / BATCH_SIZE)).

(** [batchGenerateEmbeddings]: [init] is how [initializeCodeModel] went
    and [embed] is [generateEmbedding] on the content of a chunk. *)
Definition batchGenerateEmbeddings (init : result unit)
  (embed : string -> result (list jsnum))
  (chunks : list ChunkWithEmbedding) : result (list ChunkWithEmbedding) :=
  rethrow "Failed to batch generate CodeBERT embeddings: "
    (_ <- init ;;
     Ok (flat_map
           (fun i => map (embed_chunk embed)
                       (slice chunks i (i + BATCH_SIZE)))
           (batch_starts (length chunks)))).

Definition succeeded {A} (r : result A) : bool :=
  match r with
  | Ok _ => true
  | Err _ => false
  end.

(** ** The BM25 score as a function of the documents *)

(** [n_t]: the number of the documents in which the term occurs. *)
Definition docs_with_term (opts : TokenizationOptions) (term : string)
  (docs : list (string * string)) : nat :=
  length
    (filter (fun d =>
               negb (count_occ string_dec (_tokenize opts (snd d)) term
                     =? 0)%nat) docs).

(** [avg_dl]: the mean number of tokens of the documents. *)
Definition mean_length (opts : TokenizationOptions)
  (docs : list (string * string)) : R :=
  (INR (list_sum (map (token_count opts) docs)) / INR (length docs))%R.

(** [idf(t) = ln(1 + (N - n_t + 0.5)/(n_t + 0.5) + eps)]. *)
Definition idf_formula (N n_t : nat) (eps : R) : R :=
  ln (1 + (INR N - INR n_t + 0.5) / (INR n_t + 0.5) + eps).

(** [idf(t) * (f*(k1+1)) / (f + k1*(1 - b + b*dl/avg_dl))]. *)
Definition bm25_formula (k1 b eps : R) (N n_t f dl : nat) (avg_dl : R) : R :=
  (idf_formula N n_t eps
   * (INR f * (k1 + 1)
      / (INR f + k1 * (1 - b + b * (INR dl / avg_dl)))))%R.

(** The contribution of a query term to the score of the document with
    the text [content]: the formula when the term occurs in the document,
    nothing otherwise.  [N], [n_t], [f], [dl] and [avg_dl] are read off
    the documents, not off the tables of the index. *)
Definition term_score (idx : BM25Index) (term content : string) : R :=
  let opts := tokenizationOptions idx in
  let f := count_occ string_dec (_tokenize opts content) term in
  if (f =? 0)%nat then 0%R
  else bm25_formula (k1 idx) (b idx) (epsilon idx)
         (length (documents idx))
         (docs_with_term opts term (documents idx)) f
         (length (_tokenize opts content))
         (mean_length opts (documents idx)).

(** The score of a document for a query: the contributions of the terms
    of the query, added in their order. *)
Definition query_score (idx : BM25Index) (query content : string) : R :=
  fold_left (fun acc t => (acc + term_score idx t content)%R)
    (_tokenize (tokenizationOptions idx) query) 0%R.

(** The score that a score map holds for a document: nothing counts as
    [0]. *)
Definition score_at (scores : SMap.t R) (id : string) : R :=
  match SMap.get id scores with Some v => v | None => 0%R end.

(** * Properties *)

(** ** Tokenizer *)

(** C3 (as stated, refuted): the tokens of the sample sentence are not
    [function, are, runn, quick]. *)
Lemma tokenize_sample_not_as_claimed :
  _tokenize default_tokenization sample_sentence
  <> ["function"; "are"; "runn"; "quick"].
Proof. vm_compute. discriminate. Qed.

(** C3 (amended): with the default options the sample sentence yields
    [function, runn, quick]; [are] is a stopword and is removed together
    with [the]. *)
Theorem tokenize_sample :
  _tokenize default_tokenization sample_sentence
  = ["function"; "runn"; "quick"]
  /\ is_stopword "are" = true.
Proof. split; reflexivity. Qed.

(** ** BM25: adding documents *)

Lemma SMap_has_set_same {V} (k : string) (v : V) (m : SMap.t V) :
  SMap.has k (SMap.set k v m) = true.
Proof.
  unfold SMap.has. induction m as [|[k' v'] m IH]; simpl.
  - now rewrite String.eqb_refl.
  - destruct (String.eqb k k') eqn:E; simpl; rewrite E; auto.
Qed.

(** C9: adding a document whose id is already in the index returns the
    index unchanged, every component included. *)
Theorem addDocument_present_noop (idx : BM25Index) (doc : BM25Document) :
  SMap.has (doc_id doc) (documentMetadata idx) = true ->
  addDocument idx doc = idx.
Proof. intros H. unfold addDocument. now rewrite H. Qed.

Lemma addDocument_registers (idx : BM25Index) (doc : BM25Document) :
  SMap.has (doc_id doc) (documentMetadata (addDocument idx doc)) = true.
Proof.
  unfold addDocument.
  destruct (SMap.has (doc_id doc) (documentMetadata idx)) eqn:E; auto.
  simpl. apply SMap_has_set_same.
Qed.

Lemma addDocument_twice (idx : BM25Index) (doc : BM25Document) :
  addDocument (addDocument idx doc) doc = addDocument idx doc.
Proof.
  unfold addDocument at 1. now rewrite addDocument_registers.
Qed.

Lemma addDocument_present_noop_witness :
  let idx := addDocument default_BM25Index (sample_document "a" "foo bar") in
  addDocument idx (sample_document "a" "other text") = idx.
Proof. intro idx. apply addDocument_present_noop. reflexivity. Defined.

(** ** Coordinator: errors of [retrieveRelevantFiles] *)

(** C2 (as stated, refuted): when the stored index cannot be opened the
    call raises instead of returning the empty result. *)
Lemma retrieve_raises_on_corrupt_store :
  retrieveRelevantFiles no_vector_hits (fun q => q) (fun _ => [])
    corrupt_store failing_indexer "TypeError: x is undefined" "/p"
    default_retrieve_options
  = Err "Failed to retrieve relevant files: Failed to get or create index: Unexpected token".
Proof. reflexivity. Qed.

Section RetrievalFacts.
Variable vectorSearch :
  VectorIndex -> string -> Z -> result (list VectorSearchResult).
Variable prepareQueryForSearch : string -> string.
Variable mentionedFiles : string -> list string.
Variable initializeRAG : string -> result (VectorIndex * BM25Index).
Variable indexCodebase : string -> result (VectorIndex * BM25Index).

(** C2 (amended): the empty result is returned when an index is empty
    and automatic indexing fails or leaves the vector index empty.  A
    failure to open the indices is raised to the caller with a longer
    message, and so is a failure of the search itself, on the opened
    indices as well as on freshly built ones; when the search succeeds
    its results are returned.  Nothing else is raised. *)
Theorem retrieveRelevantFiles_outcomes (errorLog root : string)
  (o : RetrieveOptions) :
  (forall v b e,
      initializeRAG root = Ok (v, b) ->
      size v = 0%nat \/ documentCount b = 0%nat ->
      indexCodebase root = Err e ->
      retrieveRelevantFiles vectorSearch prepareQueryForSearch mentionedFiles
        initializeRAG indexCodebase errorLog root o = Ok empty_result)
  /\ (forall v b v' b',
      initializeRAG root = Ok (v, b) ->
      size v = 0%nat \/ documentCount b = 0%nat ->
      indexCodebase root = Ok (v', b') -> size v' = 0%nat ->
      retrieveRelevantFiles vectorSearch prepareQueryForSearch mentionedFiles
        initializeRAG indexCodebase errorLog root o = Ok empty_result)
  /\ (forall e,
      initializeRAG root = Err e ->
      retrieveRelevantFiles vectorSearch prepareQueryForSearch mentionedFiles
        initializeRAG indexCodebase errorLog root o
      = Err ("Failed to retrieve relevant files: " ++ e)%string)
  /\ (forall v b e,
      searched_indices initializeRAG indexCodebase root v b ->
      hybridSearch vectorSearch (prepareQueryForSearch errorLog) v b
        (search_options v b o) = Err e ->
      retrieveRelevantFiles vectorSearch prepareQueryForSearch mentionedFiles
        initializeRAG indexCodebase errorLog root o
      = Err ("Failed to retrieve relevant files: " ++ e)%string)
  /\ (forall v b rs,
      searched_indices initializeRAG indexCodebase root v b ->
      hybridSearch vectorSearch (prepareQueryForSearch errorLog) v b
        (search_options v b o) = Ok rs ->
      exists res,
        retrieveRelevantFiles vectorSearch prepareQueryForSearch
          mentionedFiles initializeRAG indexCodebase errorLog root o
        = Ok res
        /\ results res = rs)
  /\ (forall m,
      retrieveRelevantFiles vectorSearch prepareQueryForSearch mentionedFiles
        initializeRAG indexCodebase errorLog root o = Err m ->
      exists e,
        m = ("Failed to retrieve relevant files: " ++ e)%string
        /\ (initializeRAG root = Err e
            \/ exists v b,
                searched_indices initializeRAG indexCodebase root v b
                /\ hybridSearch vectorSearch (prepareQueryForSearch errorLog)
                     v b (search_options v b o) = Err e)).
Proof.
  assert (Empty : forall v b,
             size v = 0%nat \/ documentCount b = 0%nat ->
             indices_empty (v, b) = true).
  { intros v b [E|E]; unfold indices_empty; cbn [fst snd]; rewrite E;
      [reflexivity | apply orb_true_r]. }
  assert (Full : forall v b,
             size v <> 0%nat -> documentCount b <> 0%nat ->
             indices_empty (v, b) = false).
  { intros v b Hv Hb. unfold indices_empty. cbn [fst snd].
    apply Nat.eqb_neq in Hv, Hb. now rewrite Hv, Hb. }
  assert (Used : forall v b,
             searched_indices initializeRAG indexCodebase root v b ->
             retrieveRelevantFiles vectorSearch prepareQueryForSearch
               mentionedFiles initializeRAG indexCodebase errorLog root o
             = rethrow "Failed to retrieve relevant files: "
                 (retrieve_with vectorSearch prepareQueryForSearch
                    mentionedFiles errorLog v b o)).
  { intros v b (v0 & b0 & Hi & [(Hv & Hb & -> & ->)|(He & Hx & Hs)]);
      unfold retrieveRelevantFiles; rewrite Hi; cbn [bind].
    - now rewrite (Full v0 b0 Hv Hb).
    - rewrite (Empty v0 b0 He), Hx. apply Nat.eqb_neq in Hs.
      now rewrite Hs. }
  split; [|split; [|split; [|split; [|split]]]].
  - intros v b e Hi He Hx. unfold retrieveRelevantFiles.
    rewrite Hi. cbn [bind]. now rewrite (Empty v b He), Hx.
  - intros v b v' b' Hi He Hx Hs. unfold retrieveRelevantFiles.
    rewrite Hi. cbn [bind]. now rewrite (Empty v b He), Hx, Hs.
  - intros e Hi. unfold retrieveRelevantFiles. now rewrite Hi.
  - intros v b e U Hs. rewrite (Used v b U). unfold retrieve_with.
    now rewrite Hs.
  - intros v b rs U Hs. rewrite (Used v b U). unfold retrieve_with.
    rewrite Hs. cbn [bind rethrow]. eexists. split; reflexivity.
  - intros m H. destruct (initializeRAG root) as [[v b]|e] eqn:Hi.
    + assert (Search : forall v' b',
                 searched_indices initializeRAG indexCodebase root v' b' ->
                 rethrow "Failed to retrieve relevant files: "
                   (retrieve_with vectorSearch prepareQueryForSearch
                      mentionedFiles errorLog v' b' o) = Err m ->
                 exists e,
                   m = ("Failed to retrieve relevant files: " ++ e)%string
                   /\ (Ok (v, b) = Err e
                       \/ exists v b,
                           searched_indices initializeRAG indexCodebase root
                             v b
                           /\ hybridSearch vectorSearch
                                (prepareQueryForSearch errorLog) v b
                                (search_options v b o) = Err e)).
      { intros v' b' U R. unfold retrieve_with in R.
        destruct (hybridSearch vectorSearch (prepareQueryForSearch errorLog)
                    v' b' (search_options v' b' o)) as [rs|e] eqn:Hs;
          [discriminate|].
        cbn [bind rethrow] in R. exists e. split; [congruence|].
        right. exists v', b'. auto. }
      unfold retrieveRelevantFiles in H. rewrite Hi in H. cbn [bind] in H.
      destruct (Nat.eq_dec (size v) 0) as [Zv|Nv];
        [|destruct (Nat.eq_dec (documentCount b) 0) as [Zb|Nb]].
      * rewrite (Empty v b (or_introl Zv)) in H.
        destruct (indexCodebase root) as [[v' b']|e'] eqn:Hx;
          [|discriminate].
        destruct (Nat.eqb_spec (size v') 0) as [Zs|Ns]; [discriminate|].
        apply (Search v' b'); auto.
        exists v, b. split; [exact Hi|]. right. auto.
      * rewrite (Empty v b (or_intror Zb)) in H.
        destruct (indexCodebase root) as [[v' b']|e'] eqn:Hx;
          [|discriminate].
        destruct (Nat.eqb_spec (size v') 0) as [Zs|Ns]; [discriminate|].
        apply (Search v' b'); auto.
        exists v, b. split; [exact Hi|]. right. auto.
      * rewrite (Full v b Nv Nb) in H. apply (Search v b); auto.
        exists v, b. split; [exact Hi|]. left. auto.
    + unfold retrieveRelevantFiles in H. rewrite Hi in H.
      cbn [bind rethrow] in H. exists e. split; [congruence|]. now left.
Qed.
End RetrievalFacts.

Lemma retrieveRelevantFiles_outcomes_witness :
  retrieveRelevantFiles failing_vector_search (fun q => q) (fun _ => [])
    empty_store fresh_indexer "alpha is undefined" "/p"
    default_retrieve_options
  = Err "Failed to retrieve relevant files: Failed to perform hybrid search: Failed to search index: FAISS is not available".
Proof.
  apply (proj1 (proj2 (proj2 (proj2
           (retrieveRelevantFiles_outcomes failing_vector_search (fun q => q)
              (fun _ => []) empty_store fresh_indexer "alpha is undefined"
              "/p" default_retrieve_options))))
           one_vector_index tie_index
           "Failed to perform hybrid search: Failed to search index: FAISS is not available").
  - exists createFAISSIndex, default_BM25Index. split; [reflexivity|].
    right. split; [left; reflexivity|]. split; [reflexivity|].
    intros H. vm_compute in H. discriminate H.
  - lazy -[Rplus Rmult Rdiv Rminus Ropp Rinv IZR ln Rlt_dec INR].
    reflexivity.
Defined.

(** ** Vector store: what [addToIndex] stores *)

Lemma validate_records (chunks : list ChunkWithEmbedding) :
  map fst (validate chunks) = stored_records chunks.
Proof.
  induction chunks as [|c rest IH]; simpl; auto.
  destruct (processEmbedding (embedding c)); simpl; now rewrite IH.
Qed.

Lemma addToIndex_index (w : VectorIndex) (chunks : list ChunkWithEmbedding) :
  index (addToIndex w chunks) = index w ++ stored_records chunks.
Proof.
  unfold addToIndex. rewrite <- validate_records.
  destruct (validate chunks); simpl; auto using app_nil_r.
Qed.

Lemma fit_length {A} (c : A) (l : list A) :
  length (fit c l) = EMBEDDING_DIMENSION.
Proof.
  unfold fit.
  destruct (Nat.eqb_spec (length l) EMBEDDING_DIMENSION) as [E|E]; auto.
  destruct (Nat.ltb_spec (length l) EMBEDDING_DIMENSION) as [L|L].
  - rewrite length_app, repeat_length. lia.
  - rewrite length_firstn. lia.
Qed.

Lemma existsb_not_finite (v : list jsnum) :
  existsb (fun x => negb (isFinite x)) v = negb (all_finite v).
Proof.
  induction v as [|x v IH]; simpl; auto.
  rewrite IH. now destruct (isFinite x).
Qed.

Lemma processEmbedding_length (e : jsval) (p : list jsnum) :
  processEmbedding e = Some p -> length p = EMBEDDING_DIMENSION.
Proof.
  unfold processEmbedding.
  destruct (negb (truthy e)); [discriminate|].
  match goal with
  | |- match ?X with _ => _ end = _ -> _ => destruct X as [q|]
  end; [|discriminate].
  destruct (Nat.eqb_spec (length q) 768) as [E|E]; cbn [negb];
    [|discriminate].
  destruct (existsb _ q); intros H; injection H as <-;
    [vm_compute; reflexivity | exact E].
Qed.

Lemma processEmbedding_finite (e : jsval) (p : list jsnum) :
  processEmbedding e = Some p -> all_finite p = true.
Proof.
  unfold processEmbedding.
  destruct (negb (truthy e)); [discriminate|].
  match goal with
  | |- match ?X with _ => _ end = _ -> _ => destruct X as [q|]
  end; [|discriminate].
  destruct (negb (length q =? 768)%nat); [discriminate|].
  rewrite existsb_not_finite.
  destruct (all_finite q) eqn:F; cbn [negb]; intros H; injection H as <-;
    [exact F | vm_compute; reflexivity].
Qed.

Lemma all_finite_constant :
  all_finite (repeat tenth32 EMBEDDING_DIMENSION) = true.
Proof. vm_compute. reflexivity. Qed.

Lemma processEmbedding_typed_array (v : list jsnum) :
  processEmbedding (JF32 v) = Some (whole_or_constant (fit zero v)).
Proof.
  unfold processEmbedding, whole_or_constant. simpl truthy. cbn [negb].
  cbv iota. pose proof (fit_length zero v) as L.
  unfold EMBEDDING_DIMENSION in L. rewrite L, Nat.eqb_refl. cbn [negb].
  rewrite existsb_not_finite. now destruct (all_finite (fit zero v)).
Qed.

Lemma processEmbedding_plain_array (arr : list jsval) :
  processEmbedding (JArr arr)
  = match numbers_not_nan arr with
    | [] => None
    | x :: xs => Some (whole_or_constant (map fround (fit zero (x :: xs))))
    end.
Proof.
  unfold processEmbedding, whole_or_constant. simpl truthy. cbn [negb].
  cbv iota. destruct (numbers_not_nan arr) as [|x xs]; [reflexivity|].
  pose proof (fit_length zero (x :: xs)) as L.
  unfold EMBEDDING_DIMENSION in L. rewrite length_map, L, Nat.eqb_refl.
  cbn [negb]. rewrite existsb_not_finite.
  now destruct (all_finite (map fround (fit zero (x :: xs)))).
Qed.

Lemma processEmbedding_object (props : list (string * jsval)) :
  processEmbedding (JObj props)
  = match prop "values" (JObj props) with
    | JF32 v =>
        if (length v =? EMBEDDING_DIMENSION)%nat
        then Some (whole_or_constant v) else None
    | _ => None
    end.
Proof.
  unfold processEmbedding, whole_or_constant. simpl truthy. cbn [negb].
  cbv iota. destruct (prop "values" (JObj props)); try reflexivity.
  unfold EMBEDDING_DIMENSION.
  destruct (length items =? 768)%nat; cbn [negb]; [|reflexivity].
  rewrite existsb_not_finite. now destruct (all_finite items).
Qed.

Lemma fit_same {A} (c : A) (l : list A) :
  length l = EMBEDDING_DIMENSION -> fit c l = l.
Proof. intros L. unfold fit. now rewrite L, Nat.eqb_refl. Qed.

(** C6 (as stated, refuted): a vector with one component that is not a
    number is stored with its finite components changed as well. *)
Lemma addToIndex_changes_finite_components :
  exists stored,
    index (addToIndex createFAISSIndex [sample_chunk (JF32 nan_response)])
    = [stored]
    /\ nth 1 nan_response zero = Fin 1
    /\ nth 1 stored zero = tenth32
    /\ tenth32 <> Fin 1.
Proof.
  exists (repeat tenth32 768). repeat split; try reflexivity.
  vm_compute. discriminate.
Qed.

(** C6 (amended): [addToIndex] appends to the store the vectors of the
    chunks it keeps, in order.  A vector is first brought to 768
    components: a typed array is cut or filled with zeros; a plain array
    loses the items that are not numbers or are [NaN], is cut or filled
    with zeros and is converted to binary32; an object gives its [values]
    when that is a typed array of 768 components.  Everything else is
    skipped.  The vector so obtained is stored as it is when all its
    components are finite, and is replaced as a whole by the vector of
    [0.1]s when one of them is not; no stored vector has a component that
    is not finite. *)
Theorem addToIndex_replaces_whole_vector (w : VectorIndex)
  (chunks : list ChunkWithEmbedding) :
  index (addToIndex w chunks) = index w ++ stored_records chunks
  /\ Forall (fun p => all_finite p = true) (stored_records chunks)
  /\ (forall v,
        processEmbedding (JF32 v) = Some (whole_or_constant (fit zero v))
        /\ (length v = EMBEDDING_DIMENSION -> fit zero v = v))
  /\ (forall arr,
        processEmbedding (JArr arr)
        = match numbers_not_nan arr with
          | [] => None
          | x :: xs =>
              Some (whole_or_constant (map fround (fit zero (x :: xs))))
          end)
  /\ (forall props,
        processEmbedding (JObj props)
        = match prop "values" (JObj props) with
          | JF32 v =>
              if (length v =? EMBEDDING_DIMENSION)%nat
              then Some (whole_or_constant v) else None
          | _ => None
          end)
  /\ (forall e,
        match e with
        | JF32 _ | JArr _ | JObj _ => False
        | _ => True
        end -> processEmbedding e = None)
  /\ (forall q,
        (all_finite q = true -> whole_or_constant q = q)
        /\ (all_finite q = false ->
            whole_or_constant q = repeat tenth32 EMBEDDING_DIMENSION)).
Proof.
  split; [apply addToIndex_index|]. split.
  { unfold stored_records. apply Forall_forall. intros p Hp.
    apply in_flat_map in Hp as [c [_ Hc]].
    destruct (processEmbedding (embedding c)) as [q|] eqn:E; simpl in Hc;
      [|contradiction].
    destruct Hc as [<-|[]]. eapply processEmbedding_finite; eauto. }
  split; [intros v; split;
          [apply processEmbedding_typed_array | apply fit_same]|].
  split; [apply processEmbedding_plain_array|].
  split; [apply processEmbedding_object|]. split.
  - intros e He. unfold processEmbedding.
    destruct e as [| |bv|x|s|items|items|props]; try contradiction;
      now destruct (negb (truthy _)).
  - intros q. unfold whole_or_constant. split; intros ->; reflexivity.
Qed.

Lemma addToIndex_replaces_whole_vector_witness :
  fit zero nan_response = nan_response
  /\ processEmbedding JNull = None
  /\ whole_or_constant nan_response = repeat tenth32 EMBEDDING_DIMENSION.
Proof.
  pose proof (addToIndex_replaces_whole_vector createFAISSIndex
                [sample_chunk (JF32 nan_response)])
    as (_ & _ & T & _ & _ & O & C).
  split; [|split].
  - apply (proj2 (T nan_response)). reflexivity.
  - apply (O JNull). exact I.
  - apply (proj2 (C nan_response)). reflexivity.
Defined.

(** A plain array with a number beyond the binary32 range: the number
    is finite, its conversion is not, and the vector of [0.1]s is
    stored. *)
Lemma addToIndex_overflow_replaced :
  isFinite huge = true
  /\ fround huge = PosInf
  /\ processEmbedding (JArr [JNum huge; JNum (Fin 1)])
     = Some (repeat tenth32 EMBEDDING_DIMENSION).
Proof. repeat split; vm_compute; reflexivity. Qed.

(** C8: whatever chunks are added, in however many calls, every record of
    the store has exactly 768 components; a vector that is kept has been
    brought to that length, and the others are skipped. *)
Theorem addToIndex_dimension_safe (batches : list (list ChunkWithEmbedding)) :
  Forall (fun record => length record = 768%nat)
    (index (fold_left addToIndex batches createFAISSIndex))
  /\ forall e p, processEmbedding e = Some p -> length p = 768%nat.
Proof.
  split; [|apply processEmbedding_length].
  assert (G : forall w,
             Forall (fun r => length r = 768%nat) (index w) ->
             Forall (fun r => length r = 768%nat)
               (index (fold_left addToIndex batches w))).
  { induction batches as [|chunks rest IH]; intros w Hw; simpl; auto.
    apply IH. rewrite addToIndex_index. apply Forall_app. split; auto.
    unfold stored_records. apply Forall_forall. intros p Hp.
    apply in_flat_map in Hp as [c [_ Hc]].
    destruct (processEmbedding (embedding c)) as [q|] eqn:E; simpl in Hc;
      [|contradiction].
    destruct Hc as [<-|[]]. eapply processEmbedding_length; eauto. }
  apply G. constructor.
Qed.

Lemma addToIndex_dimension_safe_witness :
  length (repeat tenth32 768) = 768%nat.
Proof.
  apply (proj2 (addToIndex_dimension_safe [[sample_chunk (JF32 nan_response)]])
           (JF32 nan_response) (repeat tenth32 768)).
  reflexivity.
Defined.

(** ** Embedding client: the shape of an embedding *)

(** C7 (as stated, refuted): [generateEmbedding] throws when the model
    cannot be initialised, and what it returns is not checked for
    finiteness: a finite number of the service's response that is beyond
    the binary32 range comes back as an infinity, and a [NaN] of the
    response comes back as it is. *)
Lemma generateEmbedding_not_always_finite :
  generateEmbedding no_JSON no_number no_coercion
    (Err "CodeBERT model not initialized") 0
    (ModelReturns (service_output [Fin 1]))
  = Err "Failed to generate embedding: CodeBERT model not initialized"
  /\ (exists v,
        generateEmbedding no_JSON no_number no_coercion (Ok tt) 0
          (ModelReturns (service_output huge_response)) = Ok v
        /\ all_finite huge_response = true
        /\ nth 0 v zero = PosInf)
  /\ (exists v,
        generateEmbedding no_JSON no_number no_coercion (Ok tt) 0
          (ModelReturns (embeddingModel_output nan_response)) = Ok v
        /\ nth 0 v zero = NaN
        /\ isFinite NaN = false).
Proof.
  split; [reflexivity|]. split.
  - exists (PosInf :: repeat (Fin 1) 767). repeat split;
      vm_compute; reflexivity.
  - exists nan_response. repeat split; vm_compute; reflexivity.
Qed.

Section EmbeddingFacts.
Variable JSON_parse : string -> option jsval.
Variable StringToNumber : string -> jsnum.
Variable coerce : jsval -> jsnum.

Lemma map_Number_JNum (l : list jsnum) :
  map (Number_ StringToNumber coerce) (map JNum l) = l.
Proof. induction l; simpl; congruence. Qed.

Lemma nth_fit (l : list jsnum) (i : nat) :
  (i < EMBEDDING_DIMENSION)%nat ->
  nth i (fit tenth l) zero
  = if (i <? length l)%nat then nth i l zero else tenth.
Proof.
  intros Hi. unfold fit.
  destruct (Nat.ltb_spec i (length l)) as [L|L].
  - destruct (Nat.eqb_spec (length l) EMBEDDING_DIMENSION); auto.
    destruct (Nat.ltb_spec (length l) EMBEDDING_DIMENSION).
    + now apply app_nth1.
    + rewrite nth_firstn.
      destruct (Nat.ltb_spec i EMBEDDING_DIMENSION); [reflexivity|lia].
  - destruct (Nat.eqb_spec (length l) EMBEDDING_DIMENSION); [lia|].
    destruct (Nat.ltb_spec (length l) EMBEDDING_DIMENSION); [|lia].
    rewrite app_nth2 by lia. apply nth_repeat_lt. lia.
Qed.

Lemma generateEmbedding_direct (fuel : nat) (response : list jsnum) :
  generateEmbedding JSON_parse StringToNumber coerce (Ok tt) fuel
    (ModelReturns (embeddingModel_output response))
  = Ok (map fround (fit tenth response))
  /\ generateEmbedding JSON_parse StringToNumber coerce (Ok tt) fuel
       (ModelReturns (service_output response))
     = Ok (map fround (fit tenth response)).
Proof.
  split.
  - unfold generateEmbedding, embeddingModel_output, pick_embedding.
    simpl prop. cbv iota. now rewrite map_Number_JNum.
  - unfold generateEmbedding, service_output, pick_embedding.
    simpl prop. cbv iota. now rewrite map_Number_JNum.
Qed.

(** C7 (amended): [generateEmbedding] throws when the model cannot be
    initialised; once it is, it returns a vector of exactly 768 entries
    whatever the model call did.  For a response of the model or of the
    service, the entries beyond the response are [0.1]: a response
    shorter than 768 is padded on the right; the entries of a longer one
    beyond the first 768 are cut; and every finite value of the response
    that is kept comes back converted to binary32.  A failed model call
    gives the vector of [0.1]s.  Of a response that is a plain array,
    nested or not, the finite numbers are taken in order, padded or cut
    in the same way, and the vector of [0.1]s stands for an array without
    any. *)
Theorem generateEmbedding_dimension (fuel : nat) :
  (forall outcome, exists v,
      generateEmbedding JSON_parse StringToNumber coerce (Ok tt) fuel outcome
      = Ok v /\ length v = 768%nat)
  /\ (forall response v,
        generateEmbedding JSON_parse StringToNumber coerce (Ok tt) fuel
          (ModelReturns (embeddingModel_output response)) = Ok v
        \/ generateEmbedding JSON_parse StringToNumber coerce (Ok tt) fuel
             (ModelReturns (service_output response)) = Ok v ->
        length v = 768%nat
        /\ forall i, (i < 768)%nat ->
             ((length response <= i)%nat -> nth i v zero = tenth32)
             /\ ((i < length response)%nat ->
                 isFinite (nth i response zero) = true ->
                 nth i v zero = fround (nth i response zero)))
  /\ (forall message,
      generateEmbedding JSON_parse StringToNumber coerce (Ok tt) fuel
        (ModelThrows message)
      = Ok (repeat tenth32 768))
  /\ (forall e outcome,
      generateEmbedding JSON_parse StringToNumber coerce (Err e) fuel outcome
      = Err ("Failed to generate embedding: " ++ e)%string)
  /\ (forall items,
      (forall values, prop "values" (item0 (JArr items)) <> JF32 values) ->
      generateEmbedding JSON_parse StringToNumber coerce (Ok tt) fuel
        (ModelReturns (JArr items))
      = Ok (match finite_numbers StringToNumber (flat_items items) with
            | [] => repeat tenth32 768
            | x :: xs => map fround (fit tenth (x :: xs))
            end)).
Proof.
  split; [|split; [|split; [|split]]].
  - intros [msg|output]; unfold generateEmbedding.
    + eexists. split; [reflexivity|]. apply repeat_length.
    + destruct (pick_embedding _ _ _ _) as [emb|e].
      * eexists. split; [reflexivity|]. rewrite length_map. apply fit_length.
      * eexists. split; [reflexivity|]. apply repeat_length.
  - intros response v H.
    assert (V : v = map fround (fit tenth response)).
    { destruct (generateEmbedding_direct fuel response) as (D1 & D2).
      destruct H as [H|H]; congruence. }
    subst v. split; [rewrite length_map; apply fit_length|].
    intros i Hi. change zero with (fround zero) at 1 3.
    rewrite map_nth, nth_fit by exact Hi. split.
    + intros L. destruct (Nat.ltb_spec i (length response)); [lia|].
      reflexivity.
    + intros L _. destruct (Nat.ltb_spec i (length response)); [|lia].
      reflexivity.
  - reflexivity.
  - reflexivity.
  - intros items H.
    assert (X : extractEmbeddingFromOutput JSON_parse StringToNumber fuel
                  (JArr items)
                = extract_numbers StringToNumber (JArr items))
      by now destruct fuel.
    assert (G : generateEmbedding JSON_parse StringToNumber coerce (Ok tt)
                  fuel (ModelReturns (JArr items))
                = match extract_numbers StringToNumber (JArr items) with
                  | Ok v =>
                      Ok (map fround
                            (fit tenth
                               (map (Number_ StringToNumber coerce)
                                  (map JNum v))))
                  | Err _ => Ok fallback_embedding
                  end).
    { unfold generateEmbedding, pick_embedding. rewrite X.
      destruct (prop "values" (item0 (JArr items))) eqn:P;
        try (now destruct (extract_numbers StringToNumber (JArr items))).
      now contradiction (H items0). }
    rewrite G. unfold extract_numbers.
    destruct (finite_numbers StringToNumber (flat_items items)) as [|x xs];
      [reflexivity|].
    rewrite map_Number_JNum, (fit_same tenth (fit tenth (x :: xs)))
      by apply fit_length.
    reflexivity.
Qed.
End EmbeddingFacts.

Lemma generateEmbedding_dimension_witness :
  length (PosInf :: repeat (Fin 1) 767) = 768%nat
  /\ forall i, (i < 768)%nat ->
       ((length huge_response <= i)%nat ->
        nth i (PosInf :: repeat (Fin 1) 767) zero = tenth32)
       /\ ((i < length huge_response)%nat ->
           isFinite (nth i huge_response zero) = true ->
           nth i (PosInf :: repeat (Fin 1) 767) zero
           = fround (nth i huge_response zero)).
Proof.
  apply (proj1 (proj2 (generateEmbedding_dimension no_JSON no_number
                         no_coercion 0))
           huge_response (PosInf :: repeat (Fin 1) 767)).
  right. vm_compute. reflexivity.
Defined.

(** ** Insertion-ordered maps *)

Lemma SMap_get_set_same {V} (k : string) (v : V) (m : SMap.t V) :
  SMap.get k (SMap.set k v m) = Some v.
Proof.
  induction m as [|[k' v'] m IH]; simpl.
  - now rewrite String.eqb_refl.
  - destruct (String.eqb k k') eqn:E; simpl; rewrite E; auto.
Qed.

Lemma SMap_get_set_other {V} (k k' : string) (v : V) (m : SMap.t V) :
  k <> k' -> SMap.get k' (SMap.set k v m) = SMap.get k' m.
Proof.
  intros N. induction m as [|[k0 v0] m IH]; simpl.
  - destruct (String.eqb_spec k' k); congruence.
  - destruct (String.eqb_spec k k0) as [->|Nk]; simpl.
    + destruct (String.eqb_spec k' k0); congruence.
    + now rewrite IH.
Qed.

Lemma SMap_has_In {V} (k : string) (m : SMap.t V) :
  SMap.has k m = true <-> In k (SMap.keys m).
Proof.
  unfold SMap.has. induction m as [|[k' v'] m IH]; simpl.
  - split; [discriminate | tauto].
  - destruct (String.eqb_spec k k') as [->|N].
    + tauto.
    + rewrite IH. split; [tauto | intros [E|H]; congruence].
Qed.

Lemma SMap_get_In {V} (k : string) (v : V) (m : SMap.t V) :
  SMap.get k m = Some v -> In (k, v) m.
Proof.
  induction m as [|[k' v'] m IH]; simpl; [discriminate|].
  destruct (String.eqb_spec k k') as [->|N]; intros H.
  - injection H as ->. now left.
  - right. auto.
Qed.

Lemma SMap_In_get {V} (k : string) (v : V) (m : SMap.t V) :
  NoDup (SMap.keys m) -> In (k, v) m -> SMap.get k m = Some v.
Proof.
  induction m as [|[k' v'] m IH]; simpl; [tauto|].
  intros ND [E|H]; inversion ND as [|? ? Hn Hd]; subst.
  - injection E as -> ->. now rewrite String.eqb_refl.
  - destruct (String.eqb_spec k k') as [->|N]; auto.
    exfalso. apply Hn. change k' with (fst (k', v)). now apply in_map.
Qed.

Lemma SMap_keys_set {V} (k : string) (v : V) (m : SMap.t V) :
  SMap.keys (SMap.set k v m)
  = if SMap.has k m then SMap.keys m else SMap.keys m ++ [k].
Proof.
  unfold SMap.has. induction m as [|[k' v'] m IH]; simpl; auto.
  destruct (String.eqb_spec k k') as [->|N]; simpl; auto.
  rewrite IH. now destruct (SMap.get k m).
Qed.

Lemma SMap_NoDup_set {V} (k : string) (v : V) (m : SMap.t V) :
  NoDup (SMap.keys m) -> NoDup (SMap.keys (SMap.set k v m)).
Proof.
  intros ND. rewrite SMap_keys_set.
  destruct (SMap.has k m) eqn:E; auto.
  apply NoDup_app; auto.
  - constructor; [tauto | constructor].
  - intros x Hx [<-|[]]. apply SMap_has_In in Hx. congruence.
Qed.

Lemma SMap_In_set {V} (k k' : string) (v v' : V) (m : SMap.t V) :
  NoDup (SMap.keys m) ->
  In (k', v') (SMap.set k v m) ->
  (k' = k /\ v' = v) \/ (k' <> k /\ In (k', v') m).
Proof.
  intros ND H.
  apply SMap_In_get in H; [|now apply SMap_NoDup_set].
  destruct (String.eqb_spec k k') as [->|N].
  - rewrite SMap_get_set_same in H. injection H as ->. now left.
  - rewrite SMap_get_set_other in H by auto. right. split; [congruence|].
    now apply SMap_get_In.
Qed.

(** ** Sorting *)

Section SortingFacts.
Context {A : Type} (key : A -> R).

Lemma insert_desc_perm (x : A) (l : list A) :
  Permutation (insert_desc key x l) (x :: l).
Proof.
  induction l as [|y l IH]; simpl; auto.
  destruct (Rlt_dec (key x) (key y)); auto.
  rewrite IH. apply perm_swap.
Qed.

Lemma sort_desc_perm (l : list A) : Permutation (sort_desc key l) l.
Proof.
  induction l as [|x l IH]; simpl; auto.
  rewrite insert_desc_perm. now constructor.
Qed.

Lemma insert_desc_sorted (x : A) (l : list A) :
  descending key l -> descending key (insert_desc key x l).
Proof.
  unfold descending. induction l as [|y l IH]; simpl; intros S.
  - repeat constructor.
  - inversion S as [|? ? S' F]; subst.
    destruct (Rlt_dec (key x) (key y)) as [L|L].
    + constructor; auto.
      apply Forall_forall. intros z Hz.
      apply (Permutation_in _ (insert_desc_perm x l)) in Hz.
      destruct Hz as [<-|Hz]; [lra|].
      now apply (proj1 (Forall_forall _ _) F).
    + constructor; auto. constructor; [lra|].
      apply Forall_forall. intros z Hz.
      apply (proj1 (Forall_forall _ _) F) in Hz. lra.
Qed.

Lemma sort_desc_sorted (l : list A) : descending key (sort_desc key l).
Proof.
  induction l as [|x l IH]; simpl.
  - constructor.
  - now apply insert_desc_sorted.
Qed.

Lemma sort_desc_length (l : list A) : length (sort_desc key l) = length l.
Proof. apply Permutation_length, sort_desc_perm. Qed.

Lemma sort_desc_In (x : A) (l : list A) : In x (sort_desc key l) <-> In x l.
Proof.
  split; apply Permutation_in; [|symmetry]; apply sort_desc_perm.
Qed.

Lemma before_In (a b : A) (l : list A) : before a b l -> In a l /\ In b l.
Proof.
  induction 1 as [l H|c l H [IHa IHb]]; simpl; auto.
Qed.

Lemma insert_desc_before (a b x : A) (l : list A) :
  before a b (insert_desc key x l) ->
  before a b (x :: l) \/ (b = x /\ In a l /\ (key x < key a)%R).
Proof.
  induction l as [|y l IH]; simpl; intros H.
  - now left.
  - destruct (Rlt_dec (key x) (key y)) as [L|L]; [|now left].
    inversion H as [l' Hb|c l' H']; subst.
    + apply (Permutation_in _ (insert_desc_perm x l)) in Hb.
      destruct Hb as [<-|Hb].
      * right. simpl. auto.
      * left. apply before_later. now apply before_here.
    + destruct (IH H') as [B|[-> [Ha Hk]]].
      * inversion B as [l' Hb|c l' B']; subst.
        -- left. apply before_here. now right.
        -- left. now do 2 apply before_later.
      * right. simpl. auto.
Qed.

(** The sort is stable: of two elements with the same key, the one that
    comes first in the result came first in the argument. *)
Lemma sort_desc_stable (a b : A) (l : list A) :
  before a b (sort_desc key l) -> key a = key b -> before a b l.
Proof.
  induction l as [|x l IH]; simpl; intros H E.
  - inversion H.
  - apply insert_desc_before in H as [B|[-> [_ Hk]]]; [|lra].
    inversion B as [l' Hb|c l' B']; subst.
    + apply before_here. apply (proj1 (sort_desc_In _ _)). exact Hb.
    + apply before_later. auto.
Qed.
End SortingFacts.

Lemma before_map {A B} (f : A -> B) (a b : A) (l : list A) :
  before a b l -> before (f a) (f b) (map f l).
Proof.
  induction 1 as [l H|c l H IH]; simpl.
  - apply before_here. now apply in_map.
  - now apply before_later.
Qed.

Lemma In_firstn {A} (x : A) (n : nat) (l : list A) :
  In x (firstn n l) -> In x l.
Proof.
  intros H. rewrite <- (firstn_skipn n l). apply in_or_app. now left.
Qed.

Lemma before_firstn {A} (a b : A) (n : nat) (l : list A) :
  before a b (firstn n l) -> before a b l.
Proof.
  revert l. induction n as [|n IH]; intros [|c l] H; simpl in H;
    try (inversion H; fail).
  inversion H as [l' Hb|c' l' H']; subst.
  - apply before_here. eapply In_firstn; eauto.
  - apply before_later. auto.
Qed.

Lemma slice0_firstn {A} (l : list A) (k : Z) :
  exists n, slice0 l k = firstn n l.
Proof. unfold slice0. destruct (k <? 0)%Z; eauto. Qed.

Lemma slice0_length {A} (l : list A) (k : Z) :
  (0 <= k)%Z -> (Z.of_nat (length (slice0 l k)) <= Z.min k (Z.of_nat (length l)))%Z.
Proof.
  intros H. unfold slice0. destruct (Z.ltb_spec k 0); [lia|].
  rewrite length_firstn. lia.
Qed.

(** ** BM25: what [addDocument] maintains *)

Lemma count_token_get_same (tf : SMap.t nat) (token : string) :
  exists n, SMap.get token (count_token tf token) = Some (S n).
Proof.
  unfold count_token. rewrite SMap_get_set_same.
  eexists. f_equal. rewrite Nat.add_1_r. reflexivity.
Qed.

Lemma count_token_get_other (tf : SMap.t nat) (token k : string) :
  token <> k -> SMap.get k (count_token tf token) = SMap.get k tf.
Proof.
  intros N. unfold count_token. rewrite SMap_get_set_other by auto.
  destruct (SMap.has token tf); auto using SMap_get_set_other.
Qed.

Lemma count_token_NoDup (tf : SMap.t nat) (token : string) :
  NoDup (SMap.keys tf) -> NoDup (SMap.keys (count_token tf token)).
Proof.
  intros ND. unfold count_token. apply SMap_NoDup_set.
  destruct (SMap.has token tf); auto using SMap_NoDup_set.
Qed.

Lemma termFrequencies_ok (tokens : list string) :
  frequencies_ok (termFrequencies tokens).
Proof.
  unfold termFrequencies.
  assert (G : forall tf, frequencies_ok tf ->
                         frequencies_ok (fold_left count_token tokens tf)).
  { induction tokens as [|t rest IH]; intros tf Htf; simpl; auto.
    apply IH. destruct Htf as [ND Hv]. split.
    - now apply count_token_NoDup.
    - intros k n Hk. destruct (String.eqb_spec t k) as [->|N].
      + destruct (count_token_get_same tf k) as [m Hm]. rewrite Hm in Hk.
        injection Hk as <-. lia.
      + rewrite count_token_get_other in Hk by auto. eauto. }
  apply G. split; [constructor | discriminate].
Qed.

Lemma push_posting_get_same (di : nat) (inv : SMap.t (list Posting))
  (term : string) (freq : nat) :
  SMap.get term (push_posting di inv (term, freq))
  = Some (new_posting di inv term freq).
Proof.
  unfold push_posting, new_posting, SMap.has. rewrite SMap_get_set_same.
  destruct (SMap.get term inv) eqn:E.
  - now rewrite E.
  - now rewrite SMap_get_set_same.
Qed.

Lemma push_posting_get_other (di : nat) (inv : SMap.t (list Posting))
  (term k : string) (freq : nat) :
  term <> k ->
  SMap.get k (push_posting di inv (term, freq)) = SMap.get k inv.
Proof.
  intros N. unfold push_posting. rewrite SMap_get_set_other by auto.
  destruct (SMap.has term inv); auto using SMap_get_set_other.
Qed.

Lemma push_posting_NoDup (di : nat) (inv : SMap.t (list Posting))
  (e : string * nat) :
  NoDup (SMap.keys inv) -> NoDup (SMap.keys (push_posting di inv e)).
Proof.
  intros ND. destruct e as [term freq]. unfold push_posting.
  apply SMap_NoDup_set.
  destruct (SMap.has term inv); auto using SMap_NoDup_set.
Qed.

Lemma push_postings_NoDup (di : nat) (tf : SMap.t nat)
  (inv : SMap.t (list Posting)) :
  NoDup (SMap.keys inv) ->
  NoDup (SMap.keys (fold_left (push_posting di) tf inv)).
Proof.
  revert inv. induction tf as [|e tf IH]; intros inv ND; simpl; auto.
  apply IH. now apply push_posting_NoDup.
Qed.

(** After the postings of a document are pushed, the list of a term is
    either the one it had or that list with one more posting. *)
Lemma push_postings_get (di : nat) (tf : SMap.t nat)
  (inv : SMap.t (list Posting)) (term : string) (ps : list Posting) :
  NoDup (SMap.keys tf) ->
  SMap.get term (fold_left (push_posting di) tf inv) = Some ps ->
  SMap.get term inv = Some ps
  \/ exists freq, In (term, freq) tf /\ ps = new_posting di inv term freq.
Proof.
  revert inv. induction tf as [|[t f] tf IH]; intros inv ND H;
    cbn [fold_left] in H.
  - now left.
  - inversion ND as [|? ? Hn ND']; subst.
    destruct (IH _ ND' H) as [G|[freq [Hi ->]]].
    + destruct (String.eqb_spec t term) as [->|N].
      * rewrite push_posting_get_same in G. injection G as <-.
        right. exists f. split; [now left | reflexivity].
      * rewrite push_posting_get_other in G by auto. now left.
    + assert (N : t <> term).
      { intros ->. apply Hn. change term with (fst (term, freq)).
        now apply in_map. }
      right. exists freq. split; [now right|].
      unfold new_posting. now rewrite push_posting_get_other by auto.
Qed.

Lemma posting_list_ok_S (n : nat) (ps : list Posting) :
  posting_list_ok n ps -> posting_list_ok (S n) ps.
Proof.
  intros [L F]. split; [lia|].
  eapply Forall_impl; [|exact F]. simpl. intros p [? ?]. lia.
Qed.

Lemma array_set_end {A} (hole : A) (a : list A) (v : A) :
  array_set hole a (length a) v = a ++ [v].
Proof.
  unfold array_set. rewrite Nat.ltb_irrefl, Nat.sub_diag. reflexivity.
Qed.

Lemma addDocument_well_formed (idx : BM25Index) (doc : BM25Document) :
  well_formed idx -> well_formed (addDocument idx doc).
Proof.
  intros W. unfold addDocument.
  destruct (SMap.has (doc_id doc) (documentMetadata idx)); auto.
  destruct W as [Wd Wl Wa Wt Wp].
  set (tokens := _tokenize (tokenizationOptions idx) (doc_content doc)).
  destruct (termFrequencies_ok tokens) as [NDf Hf].
  constructor; cbn [documents documentLengths averageDocumentLength
                      invertedIndex documentCount].
  - rewrite length_app. simpl. lia.
  - rewrite <- Wl, array_set_end, length_app. simpl. lia.
  - apply Rmult_le_pos.
    + apply Rplus_le_le_0_compat; [|apply pos_INR].
      apply Rmult_le_pos; [exact Wa | apply pos_INR].
    + left. apply Rinv_0_lt_compat. apply lt_0_INR. lia.
  - now apply push_postings_NoDup.
  - intros term ps H.
    apply push_postings_get in H as [H|[freq [Hi ->]]]; auto.
    + apply posting_list_ok_S. eauto.
    + assert (O : posting_list_ok (documentCount idx)
                    match SMap.get term (invertedIndex idx) with
                    | Some ps => ps
                    | None => []
                    end).
      { destruct (SMap.get term (invertedIndex idx)) eqn:E; eauto.
        split; simpl; [lia | constructor]. }
      destruct O as [L F]. unfold new_posting. split.
      * rewrite length_app. simpl. lia.
      * apply Forall_app. split.
        -- eapply Forall_impl; [|exact F]. simpl. intros p [? ?]. lia.
        -- constructor; [|constructor]. simpl. split; [lia|].
           eapply Hf. apply SMap_In_get; eauto.
Qed.

Lemma built_well_formed (idx : BM25Index) : built idx -> well_formed idx.
Proof.
  induction 1.
  - constructor; simpl; try reflexivity; try lra; try constructor;
      discriminate.
  - now apply addDocument_well_formed.
Qed.

(** ** BM25: scores *)

Lemma Rdiv_nonneg (x y : R) : (0 <= x -> 0 <= y -> 0 <= x / y)%R.
Proof.
  intros Hx [Hy|<-].
  - apply Rmult_le_pos; auto. left. now apply Rinv_0_lt_compat.
  - unfold Rdiv. rewrite Rinv_0. lra.
Qed.

Lemma calculateIDF_nonneg (idx : BM25Index) (term : string) :
  well_formed idx -> (0 <= epsilon idx)%R ->
  (0 <= _calculateIDF idx term)%R.
Proof.
  intros W He. unfold _calculateIDF.
  set (n := match SMap.get term (invertedIndex idx) with
            | Some ps => length ps
            | None => 0%nat
            end).
  assert (Hn : (n <= documentCount idx)%nat).
  { unfold n. destruct (SMap.get term (invertedIndex idx)) eqn:E; [|lia].
    now destruct (wf_postings idx W _ _ E). }
  apply le_INR in Hn. pose proof (pos_INR n) as Hp.
  rewrite <- ln_1. 
  assert (Q : (0 <= (INR (documentCount idx) - INR n + 0.5) / (INR n + 0.5))%R).
  { apply Rdiv_nonneg; lra. }
  destruct (Req_dec (1 + (INR (documentCount idx) - INR n + 0.5) / (INR n + 0.5)
                     + epsilon idx) 1) as [->|N]; [lra|].
  left. apply ln_increasing; lra.
Qed.

Lemma calculateBM25Score_nonneg (idx : BM25Index) (di f : nat) (idf : R) :
  well_formed idx -> usual_parameters idx -> (0 <= idf)%R ->
  (0 <= _calculateBM25Score idx di f idf)%R.
Proof.
  intros W (Hk & [Hb0 Hb1] & _) Hi. unfold _calculateBM25Score.
  pose proof (pos_INR f) as Hf.
  pose proof (pos_INR (nth di (documentLengths idx) 0%nat)) as Hl.
  pose proof (Rdiv_nonneg _ _ Hl (wf_average idx W)) as Hq.
  apply Rmult_le_pos; auto. apply Rdiv_nonneg.
  - apply Rmult_le_pos; lra.
  - assert (0 <= b idx * (INR (nth di (documentLengths idx) 0%nat)
                          / averageDocumentLength idx))%R
      by (apply Rmult_le_pos; lra).
    assert (0 <= k1 idx * (1 - b idx + b idx * (INR (nth di (documentLengths idx) 0%nat)
                          / averageDocumentLength idx)))%R
      by (apply Rmult_le_pos; lra).
    lra.
Qed.

Lemma score_postings_ok (idx : BM25Index) (idf : R) (ps : list Posting)
  (scores : SMap.t R) :
  well_formed idx -> usual_parameters idx -> (0 <= idf)%R ->
  Forall (fun p => (docIndex p < documentCount idx)%nat) ps ->
  scores_ok idx scores ->
  exists scores',
    score_postings idx idf ps scores = Ok scores' /\ scores_ok idx scores'.
Proof.
  intros W U Hi. revert scores.
  induction ps as [|p ps IH]; intros scores F S; simpl.
  - eauto.
  - inversion F as [|? ? Hp F']; subst.
    rewrite <- (wf_documents idx W) in Hp.
    destruct (nth_error (documents idx) (docIndex p)) as [[docId c]|] eqn:E;
      [|apply nth_error_None in E; lia].
    apply IH; auto. clear IH.
    destruct S as (ND & Hin & Hv).
    assert (Hd : In docId (map fst (documents idx))).
    { apply nth_error_In in E. change docId with (fst (docId, c)).
      now apply in_map. }
    set (s1 := if SMap.has docId scores then scores
               else SMap.set docId 0%R scores).
    assert (S1 : scores_ok idx s1).
    { unfold s1. destruct (SMap.has docId scores) eqn:H;
        [repeat split; auto|].
      repeat split.
      - now apply SMap_NoDup_set.
      - rewrite SMap_keys_set, H. apply incl_app; auto.
        intros x [<-|[]]. auto.
      - intros k v Hkv. apply SMap_In_set in Hkv as [[_ ->]|[_ Hkv]]; eauto.
        lra. }
    destruct S1 as (ND1 & Hin1 & Hv1).
    assert (Hold : (0 <= match SMap.get docId s1 with
                         | Some v => v
                         | None => 0
                         end)%R).
    { destruct (SMap.get docId s1) eqn:G; [|lra].
      apply SMap_get_In in G. eauto. }
    pose proof (calculateBM25Score_nonneg idx (docIndex p) (frequency p) idf
                  W U Hi) as Hs.
    repeat split.
    + now apply SMap_NoDup_set.
    + rewrite SMap_keys_set.
      destruct (SMap.has docId s1); auto.
      apply incl_app; auto. intros x [<-|[]]. auto.
    + intros k v Hkv. apply SMap_In_set in Hkv as [[_ ->]|[_ Hkv]]; eauto.
      lra.
Qed.

Lemma score_terms_ok (idx : BM25Index) (terms : list string)
  (scores : SMap.t R) :
  well_formed idx -> usual_parameters idx ->
  scores_ok idx scores ->
  exists scores',
    score_terms idx terms scores = Ok scores' /\ scores_ok idx scores'.
Proof.
  intros W U. revert scores.
  induction terms as [|t terms IH]; intros scores S; simpl.
  - eauto.
  - destruct (SMap.get t (invertedIndex idx)) as [ps|] eqn:E; auto.
    destruct (score_postings_ok idx (_calculateIDF idx t) ps scores W U)
      as [s1 [-> S1]]; auto.
    + apply calculateIDF_nonneg; auto. apply U.
    + destruct (wf_postings idx W _ _ E) as [_ F].
      eapply Forall_impl; [|exact F]. simpl. tauto.
    + simpl. auto.
Qed.

(** ** BM25: the formula and the ranking *)


(** C5 (as stated, refuted): two documents with equal scores are returned
    with the later document first when the query names its term first. *)
Lemma search_tie_against_insertion_order :
  map fst (documents tie_index) = ["d0"; "d1"]
  /\ exists r1 r0,
      search tie_index "beta alpha" 2 = Ok [r1; r0]
      /\ bm_id r1 = "d1" /\ bm_id r0 = "d0"
      /\ bm_score r1 = bm_score r0.
Proof.
  split; [reflexivity|].
  set (s1 := (0 + _calculateBM25Score tie_index 1 1
                    (_calculateIDF tie_index "beta"))%R).
  set (s0 := (0 + _calculateBM25Score tie_index 0 1
                    (_calculateIDF tie_index "alpha"))%R).
  assert (E : s1 = s0) by reflexivity.
  exists {| bm_id := "d1"; bm_score := s1;
            bm_metadata := Some sample_metadata |},
         {| bm_id := "d0"; bm_score := s0;
            bm_metadata := Some sample_metadata |}.
  repeat split; auto.
  unfold search.
  change (score_terms tie_index
            (_tokenize (tokenizationOptions tie_index) "beta alpha") [])
    with (Ok [("d1", s1); ("d0", s0)]).
  cbn [bind map to_result fst snd sort_desc fold_right insert_desc bm_score].
  destruct (Rlt_dec s1 s0) as [L|L]; [rewrite E in L; lra|].
  reflexivity.
Qed.

(** C5 (amended): on an index built by [addDocument] with parameters in
    the usual range, and for [k >= 0], [search] returns its results in
    non-increasing order of score, none of them negative, at most
    [min k N] of them; results with equal scores keep the order in which
    their documents were first scored. *)
Theorem search_ranked (idx : BM25Index) (query : string) (k : Z) :
  built idx -> usual_parameters idx -> (0 <= k)%Z ->
  exists rs,
    search idx query k = Ok rs
    /\ descending bm_score rs
    /\ Forall (fun r => (0 <= bm_score r)%R) rs
    /\ (Z.of_nat (length rs) <= Z.min k (Z.of_nat (documentCount idx)))%Z
    /\ forall r1 r2,
        before r1 r2 rs -> bm_score r1 = bm_score r2 ->
        before (bm_id r1) (bm_id r2) (scoring_order idx query).
Proof.
  intros B U Hk. apply built_well_formed in B as W.
  unfold search, scoring_order.
  destruct (score_terms_ok idx (_tokenize (tokenizationOptions idx) query) []
              W U) as [scores [-> (ND & Hin & Hv)]].
  { repeat split; [constructor | intros x [] | intros ? ? []]. }
  cbn [bind]. eexists. split; [reflexivity|].
  set (all := sort_desc bm_score (map (to_result idx) scores)).
  destruct (slice0_firstn all k) as [n En].
  repeat split.
  - rewrite En. 
    assert (G : forall m l, descending bm_score l ->
                            descending bm_score (firstn m l)).
    { clear. unfold descending. induction m as [|m IH]; intros [|x l] S;
        simpl; try constructor.
      - inversion S; subst. auto.
      - inversion S as [|? ? ? F]; subst. apply Forall_forall. intros y Hy.
        apply In_firstn in Hy.
        now apply (proj1 (Forall_forall _ _) F). }
    apply G, sort_desc_sorted.
  - apply Forall_forall. intros r Hr. rewrite En in Hr.
    apply In_firstn in Hr. apply sort_desc_In in Hr.
    apply in_map_iff in Hr as [[id v] [<- He]]. simpl. eauto.
  - pose proof (slice0_length all k Hk) as L.
    assert (length all <= documentCount idx)%nat; [|lia].
    unfold all. rewrite sort_desc_length, length_map.
    rewrite <- (wf_documents idx W), <- (length_map fst (documents idx)).
    rewrite <- (length_map fst scores).
    apply NoDup_incl_length; auto.
  - intros r1 r2 Hb He. rewrite En in Hb. apply before_firstn in Hb.
    apply sort_desc_stable in Hb; auto.
    clear - Hb. unfold SMap.keys.
    induction scores as [|e scores IH]; simpl in *; inversion Hb; subst.
    + apply before_here. 
      match goal with H : In _ (map _ _) |- _ => 
        apply in_map_iff in H as [e2 [<- H2]] end.
      simpl. now apply in_map.
    + apply before_later. auto.
Qed.

Lemma search_ranked_witness :
  exists rs,
    search tie_index "beta alpha" 2 = Ok rs
    /\ descending bm_score rs
    /\ Forall (fun r => (0 <= bm_score r)%R) rs
    /\ (Z.of_nat (length rs) <= Z.min 2 (Z.of_nat (documentCount tie_index)))%Z
    /\ forall r1 r2,
        before r1 r2 rs -> bm_score r1 = bm_score r2 ->
        before (bm_id r1) (bm_id r2) (scoring_order tie_index "beta alpha").
Proof.
  apply (search_ranked tie_index "beta alpha" 2).
  - unfold tie_index, addDocuments. simpl. repeat constructor.
  - unfold usual_parameters.
    change (k1 tie_index) with DEFAULT_K1.
    change (b tie_index) with DEFAULT_B.
    change (epsilon tie_index) with DEFAULT_EPSILON.
    unfold DEFAULT_K1, DEFAULT_B, DEFAULT_EPSILON. lra.
  - lia.
Defined.

(** ** Hybrid fuser: grouping by file *)

Lemma in_file_path (p : string) (r : SearchResult) :
  in_file p r = true <-> kept r = true /\ path_of r = p.
Proof.
  unfold in_file. rewrite andb_true_iff.
  now destruct (String.eqb_spec (path_of r) p).
Qed.

Lemma filter_snoc {A} (f : A -> bool) (l : list A) (x : A) :
  filter f (l ++ [x]) = if f x then filter f l ++ [x] else filter f l.
Proof.
  rewrite filter_app. simpl. destruct (f x); auto using app_nil_r.
Qed.

Lemma group_ok_skip (pre : list SearchResult) (p : string)
  (g : GroupedSearchResult) (r : SearchResult) :
  in_file p r = false -> group_ok pre p g -> group_ok (pre ++ [r]) p g.
Proof.
  intros F (H1 & H2 & H3 & H4 & H5 & H6). unfold group_ok.
  rewrite filter_snoc, F. auto 10.
Qed.

Lemma SMap_has_set_keeps {V} (k k' : string) (v : V) (m : SMap.t V) :
  SMap.has k' m = true -> SMap.has k' (SMap.set k v m) = true.
Proof.
  rewrite !SMap_has_In, SMap_keys_set.
  destruct (SMap.has k m); auto. intros H. apply in_or_app. now left.
Qed.

Lemma group_step_dropped (groups : SMap.t GroupedSearchResult)
  (r : SearchResult) :
  kept r = false -> group_step groups r = groups.
Proof.
  unfold group_step, kept. destruct (sr_metadata r) as [md|]; auto.
  now destruct (String.eqb (filePath md) "").
Qed.

Lemma group_step_ok (pre : list SearchResult)
  (groups : SMap.t GroupedSearchResult) (r : SearchResult) :
  groups_ok pre groups -> groups_ok (pre ++ [r]) (group_step groups r).
Proof.
  intros (ND & Hg & Hk).
  destruct (kept r) eqn:K.
  - (* the result joins the group of its file *)
    unfold group_step. pose proof K as Kr. unfold kept in K.
    destruct (sr_metadata r) as [md|] eqn:M; [|discriminate].
    destruct (String.eqb_spec (filePath md) "") as [E|N]; [discriminate|].
    assert (P : path_of r = filePath md) by (unfold path_of; now rewrite M).
    set (fp := filePath md) in *.
    set (g0 := {| g_filePath := fp; g_fileName := fileName md; chunks := [];
                  maxScore := 0; totalScore := 0 |}).
    set (g1 := if SMap.has fp groups then groups else SMap.set fp g0 groups).
    assert (ND1 : NoDup (SMap.keys g1)).
    { unfold g1. destruct (SMap.has fp groups); auto using SMap_NoDup_set. }
    assert (Old : forall p x, fp <> p -> In (p, x) g1 -> In (p, x) groups).
    { intros p x Np H. unfold g1 in H. destruct (SMap.has fp groups); auto.
      apply SMap_In_set in H as [[? _]|[_ H]]; auto. congruence. }
    assert (Has : SMap.has fp g1 = true).
    { unfold g1. destruct (SMap.has fp groups) eqn:H; auto.
      apply SMap_has_set_same. }
    assert (G1 : exists g, SMap.get fp g1 = Some g
                           /\ g_filePath g = fp
                           /\ chunks g = filter (in_file fp) pre
                           /\ totalScore g = sum_scores (chunks g)
                           /\ maxScore g = max_score_from_zero (chunks g)).
    { unfold g1. destruct (SMap.has fp groups) eqn:H.
      - unfold SMap.has in H.
        destruct (SMap.get fp groups) as [g|] eqn:G; [|discriminate].
        exists g. split; auto. apply SMap_get_In in G.
        destruct (Hg _ _ G) as (? & ? & ? & ? & ? & ?). auto.
      - exists g0. rewrite SMap_get_set_same. repeat split.
        simpl. symmetry.
        destruct (filter (in_file fp) pre) as [|x l] eqn:F; auto.
        assert (Hx : In x (filter (in_file fp) pre)) by (rewrite F; now left).
        apply filter_In in Hx as [Hx Hf]. apply in_file_path in Hf as [Hf1 Hf2].
        specialize (Hk x Hx Hf1). rewrite Hf2 in Hk. congruence. }
    destruct G1 as (g & Gg & Gp & Gc & Gt & Gm). rewrite Gg.
    assert (I : in_file fp r = true) by (apply in_file_path; auto).
    split; [now apply SMap_NoDup_set|]. split.
    + intros p x H. destruct (String.eqb_spec fp p) as [<-|Np].
      * apply SMap_In_get in H; [|now apply SMap_NoDup_set].
        rewrite SMap_get_set_same in H. injection H as <-.
        unfold group_ok. cbn [g_filePath chunks totalScore maxScore].
        split; [exact Gp|]. split; [exact N|]. split.
        { now rewrite filter_snoc, I, Gc. }
        split. { now destruct (chunks g). }
        unfold sum_scores, max_score_from_zero.
        rewrite map_app, !fold_left_app. simpl.
        unfold sum_scores in Gt. unfold max_score_from_zero in Gm.
        now rewrite Gt, Gm.
      * apply SMap_In_set in H as [[? _]|[_ H]]; auto; [congruence|].
        apply group_ok_skip; auto.
        destruct (in_file p r) eqn:F; auto.
        apply in_file_path in F as [_ F]. congruence.
    + intros r' Hr' Kr'. apply SMap_has_set_keeps.
      apply in_app_or in Hr' as [Hr'|[<-|[]]].
      * unfold g1. destruct (SMap.has fp groups) eqn:H; auto.
        apply SMap_has_set_keeps. auto.
      * now rewrite P.
  - (* the result is dropped *)
    rewrite group_step_dropped by exact K.
    split; [exact ND|]. split.
    + intros p x H. apply group_ok_skip; auto.
      unfold in_file. now rewrite K.
    + intros r' Hr' Kr'. apply in_app_or in Hr' as [Hr'|[<-|[]]]; auto.
      congruence.
Qed.

Lemma group_fold_ok (rs pre : list SearchResult)
  (groups : SMap.t GroupedSearchResult) :
  groups_ok pre groups ->
  groups_ok (pre ++ rs) (fold_left group_step rs groups).
Proof.
  revert pre groups. induction rs as [|r rs IH]; intros pre groups H; simpl.
  - now rewrite app_nil_r.
  - replace (pre ++ r :: rs) with ((pre ++ [r]) ++ rs)
      by (now rewrite <- app_assoc).
    apply IH. now apply group_step_ok.
Qed.

Lemma fold_Rmax_bounds (cs : list R) (start : R) :
  (start <= fold_left Rmax cs start)%R
  /\ (forall c, In c cs -> (c <= fold_left Rmax cs start)%R)
  /\ (fold_left Rmax cs start = start
      \/ In (fold_left Rmax cs start) cs).
Proof.
  revert start. induction cs as [|c cs IH]; intros start; simpl.
  - split; [lra|]. split; [tauto | now left].
  - destruct (IH (Rmax start c)) as (H1 & H2 & H3).
    pose proof (Rmax_l start c). pose proof (Rmax_r start c).
    split; [lra|]. split.
    + intros x [<-|Hx]; [lra | auto].
    + destruct H3 as [H3|H3]; [|auto].
      rewrite H3. unfold Rmax. destruct (Rle_dec start c); auto.
Qed.

(** C10: [maxScore] starts at [0] and is raised with [Math.max], so it
    is not the maximum of the scores of a group whose chunks all have
    negative scores: for a single chunk of score [-1] the group reports
    [0], which is above the score of every chunk it holds. *)
Theorem groupResultsByFile_max_of_negative :
  exists g,
    groupResultsByFile [scored_result "c1" (-1) (Some sample_metadata)] = [g]
    /\ chunks g = [scored_result "c1" (-1) (Some sample_metadata)]
    /\ maxScore g = 0%R
    /\ combinedScore (scored_result "c1" (-1) (Some sample_metadata)) = (-1)%R
    /\ (forall c, In c (chunks g) -> (combinedScore c < maxScore g)%R).
Proof.
  assert (M : Rmax 0 (combinedScore
                        (scored_result "c1" (-1) (Some sample_metadata)))
              = 0%R).
  { apply Rmax_left. unfold scored_result. cbn [combinedScore]. lra. }
  eexists. split; [reflexivity|]. cbn [chunks maxScore].
  split; [reflexivity|]. split; [exact M|]. split; [reflexivity|].
  intros c [<-|[]].
  change (combinedScore (scored_result "c1" (-1) (Some sample_metadata))
          < Rmax 0 (combinedScore
                      (scored_result "c1" (-1) (Some sample_metadata))))%R.
  rewrite M. unfold scored_result. cbn [combinedScore]. lra.
Qed.

(** What [groupResultsByFile] does: a result without metadata or with an
    empty file path is in no group; every other result is in exactly the
    group of its file path, in input order; the groups have distinct
    paths; [totalScore] is the sum of the scores of the chunks, and
    [maxScore] is computed from [0] upwards, so it is the greatest score
    of the chunks only when one of them is not negative; fewer chunks than
    results may come back. *)
Theorem groupResultsByFile_groups (rs : list SearchResult) :
  NoDup (map g_filePath (groupResultsByFile rs))
  /\ (forall g, In g (groupResultsByFile rs) ->
        g_filePath g <> ""
        /\ chunks g = filter (in_file (g_filePath g)) rs
        /\ chunks g <> []
        /\ totalScore g = sum_scores (chunks g)
        /\ maxScore g = max_score_from_zero (chunks g)
        /\ (0 <= maxScore g)%R
        /\ (forall c, In c (chunks g) -> (combinedScore c <= maxScore g)%R)
        /\ (maxScore g = 0%R
            \/ exists c, In c (chunks g) /\ maxScore g = combinedScore c))
  /\ (forall r, In r rs -> kept r = true ->
        exists g, In g (groupResultsByFile rs)
                  /\ g_filePath g = path_of r /\ In r (chunks g))
  /\ (forall r g, kept r = false -> In g (groupResultsByFile rs) ->
        ~ In r (chunks g))
  /\ (length (concat (map chunks
        (groupResultsByFile
           [scored_result "c0" 1 None;
            scored_result "c1" 1 (Some sample_metadata)]))) < 2)%nat.
Proof.
  unfold groupResultsByFile.
  destruct (group_fold_ok rs [] []) as (ND & Hg & Hk).
  { split; [constructor|]. split; [intros ? ? [] | intros ? []]. }
  simpl app in *.
  set (groups := fold_left group_step rs []) in *.
  assert (V : forall g, In g (sort_desc maxScore (SMap.values groups)) ->
                        In (g_filePath g, g) groups).
  { intros g H. apply sort_desc_In in H. unfold SMap.values in H.
    apply in_map_iff in H as [[p x] [<- H]]. simpl.
    destruct (Hg _ _ H) as [-> _]. exact H. }
  split.
  { apply (Permutation_NoDup
             (l := map g_filePath (SMap.values groups))).
    - apply Permutation_map. symmetry. apply sort_desc_perm.
    - replace (map g_filePath (SMap.values groups)) with (SMap.keys groups);
        auto.
      unfold SMap.keys, SMap.values. rewrite map_map.
      apply map_ext_in. intros [p x] H. simpl.
      now destruct (Hg _ _ H) as [-> _]. }
  split.
  { intros g H. apply V in H.
    destruct (Hg _ _ H) as (_ & H2 & H3 & H4 & H5 & H6).
    destruct (fold_Rmax_bounds (map combinedScore (chunks g)) 0)
      as (B1 & B2 & B3).
    fold (max_score_from_zero (chunks g)) in B1, B2, B3.
    rewrite <- H6 in B1, B2, B3.
    repeat (split; auto).
    - intros c Hc. apply B2. now apply in_map.
    - destruct B3 as [B3|B3]; [now left | right].
      apply in_map_iff in B3 as [c [E Hc]]. eauto. }
  split.
  { intros r Hr K. specialize (Hk r Hr K). unfold SMap.has in Hk.
    destruct (SMap.get (path_of r) groups) as [g|] eqn:G; [|discriminate].
    apply SMap_get_In in G. exists g.
    destruct (Hg _ _ G) as (H1 & _ & H3 & _).
    split; [|split; auto].
    - apply sort_desc_In. unfold SMap.values.
      change g with (snd (path_of r, g)). now apply in_map.
    - rewrite H3. apply filter_In. split; auto.
      apply in_file_path. auto. }
  split.
  { intros r g K H Hr. apply V in H.
    destruct (Hg _ _ H) as (_ & _ & H3 & _). rewrite H3 in Hr.
    apply filter_In in Hr as [_ Hr]. apply in_file_path in Hr as [Hr _].
    congruence. }
  simpl. lia.
Qed.

Lemma groupResultsByFile_groups_witness :
  exists g,
    In g (groupResultsByFile [scored_result "c1" 1 (Some sample_metadata)])
    /\ g_filePath g = "/p/a.ts"
    /\ In (scored_result "c1" 1 (Some sample_metadata)) (chunks g).
Proof.
  apply (proj1 (proj2 (proj2 (groupResultsByFile_groups
                                [scored_result "c1" 1 (Some sample_metadata)])))
           (scored_result "c1" 1 (Some sample_metadata))).
  - simpl. auto.
  - reflexivity.
Defined.

(** ** Hybrid fuser: merging *)

(** C1, at the failing input: the chunk found by both searches gives two
    entries, one under its chunk id and one under its vector position, and
    neither carries both scores. *)
Theorem mergeResults_same_chunk_twice :
  mergeResults [bm25_hit] [vector_hit] 0.3 0.7
  = Ok [ {| sr_id := "/p/a.ts:1-3"; bm25Score := 2; vectorScore := 0;
            combinedScore := 2 * 0.3 + 0 * 0.7;
            sr_metadata := Some sample_metadata |};
         {| sr_id := "0"; bm25Score := 0; vectorScore := 0.5;
            combinedScore := 0 * 0.3 + 0.5 * 0.7;
            sr_metadata := Some sample_metadata |} ].
Proof.
  unfold mergeResults.
  change (merge_all_bm25 [bm25_hit] [])
    with (Ok [("/p/a.ts:1-3",
               {| sr_id := "/p/a.ts:1-3"; bm25Score := 2; vectorScore := 0;
                  combinedScore := 0;
                  sr_metadata := Some sample_metadata |})]).
  cbn [bind].
  change (fold_left merge_vector [vector_hit] _)
    with [("/p/a.ts:1-3",
           {| sr_id := "/p/a.ts:1-3"; bm25Score := 2; vectorScore := 0;
              combinedScore := 0; sr_metadata := Some sample_metadata |});
          ("0",
           {| sr_id := "0"; bm25Score := 0; vectorScore := 0.5;
              combinedScore := 0; sr_metadata := Some sample_metadata |})].
  cbn [SMap.values map snd combine sort_desc fold_right insert_desc
         sr_id bm25Score vectorScore combinedScore sr_metadata].
  destruct (Rlt_dec _ _) as [L|L]; [lra | reflexivity].
Qed.

(** ** BM25: the index describes its documents *)

Lemma count_tokens_get (tokens : list string) (tf : SMap.t nat) (t : string) :
  SMap.get t (fold_left count_token tokens tf)
  = match SMap.get t tf with
    | Some n => Some (n + count_occ string_dec tokens t)%nat
    | None =>
        if (count_occ string_dec tokens t =? 0)%nat then None
        else Some (count_occ string_dec tokens t)
    end.
Proof.
  revert tf. induction tokens as [|x tokens IH]; intros tf; simpl.
  - destruct (SMap.get t tf); auto.
  - rewrite IH. destruct (string_dec x t) as [->|N].
    + unfold count_token at 1. rewrite SMap_get_set_same.
      unfold SMap.has. destruct (SMap.get t tf) as [n|] eqn:E.
      * rewrite E. f_equal. lia.
      * rewrite SMap_get_set_same. simpl. f_equal.
    + rewrite count_token_get_other by auto. reflexivity.
Qed.

Lemma termFrequencies_get (tokens : list string) (t : string) :
  SMap.get t (termFrequencies tokens)
  = if (count_occ string_dec tokens t =? 0)%nat then None
    else Some (count_occ string_dec tokens t).
Proof. unfold termFrequencies. now rewrite count_tokens_get. Qed.

Lemma SMap_get_None_notin {V} (k : string) (v : V) (m : SMap.t V) :
  SMap.get k m = None -> ~ In (k, v) m.
Proof.
  induction m as [|[k' v'] m IH]; simpl; [tauto|].
  destruct (String.eqb_spec k k') as [->|N]; [discriminate|].
  intros H [E|HI]; [congruence | now apply IH].
Qed.

Lemma push_postings_exact (di : nat) (tf : SMap.t nat)
  (inv : SMap.t (list Posting)) (term : string) :
  NoDup (SMap.keys tf) ->
  SMap.get term (fold_left (push_posting di) tf inv)
  = match SMap.get term tf with
    | Some freq => Some (new_posting di inv term freq)
    | None => SMap.get term inv
    end.
Proof.
  revert inv. induction tf as [|[t f] tf IH]; intros inv ND;
    cbn [fold_left]; auto.
  inversion ND as [|? ? Hn ND']; subst. rewrite (IH _ ND').
  cbn [SMap.get]. destruct (String.eqb_spec term t) as [->|N].
  - destruct (SMap.get t tf) as [f'|] eqn:E.
    + exfalso. apply Hn. apply SMap_get_In in E.
      change t with (fst (t, f')). now apply in_map.
    + apply push_posting_get_same.
  - destruct (SMap.get term tf) as [f'|].
    + unfold new_posting. now rewrite push_posting_get_other by auto.
    + now rewrite push_posting_get_other by auto.
Qed.

Lemma postings_from_app (opts : TokenizationOptions) (term : string)
  (start : nat) (docs more : list (string * string)) :
  postings_from opts term start (docs ++ more)
  = postings_from opts term start docs
      ++ postings_from opts term (start + length docs) more.
Proof.
  revert start. induction docs as [|d docs IH]; intros start; simpl.
  - now rewrite Nat.add_0_r.
  - rewrite IH, <- app_assoc.
    now replace (S start + length docs)%nat with (start + S (length docs))%nat
      by lia.
Qed.

Lemma set_add_In (x y : string) (s : list string) :
  In y (set_add x s) <-> y = x \/ In y s.
Proof.
  unfold set_add. destruct (existsb (String.eqb x) s) eqn:E.
  - split; auto. intros [->|H]; auto.
    apply existsb_exists in E as [z [Hz Ez]].
    apply String.eqb_eq in Ez. now subst.
  - rewrite in_app_iff. simpl. intuition.
Qed.

Lemma vocabulary_fold (tokens : list string) (v : list string) (y : string) :
  In y (fold_left (fun v t => set_add t v) tokens v)
  <-> In y tokens \/ In y v.
Proof.
  revert v. induction tokens as [|t tokens IH]; intros v; simpl.
  - tauto.
  - rewrite IH, set_add_In. intuition.
Qed.

Lemma addDocument_options (idx : BM25Index) (doc : BM25Document) :
  tokenizationOptions (addDocument idx doc) = tokenizationOptions idx
  /\ k1 (addDocument idx doc) = k1 idx
  /\ b (addDocument idx doc) = b idx
  /\ epsilon (addDocument idx doc) = epsilon idx.
Proof.
  unfold addDocument.
  destruct (SMap.has (doc_id doc) (documentMetadata idx)); auto.
Qed.

Lemma addDocument_consistent (idx : BM25Index) (doc : BM25Document) :
  consistent idx -> consistent (addDocument idx doc).
Proof.
  intros C. unfold addDocument.
  destruct (SMap.has (doc_id doc) (documentMetadata idx)) eqn:H; auto.
  destruct C as [Cc Ci Cm Cl Ca Ct Cp Cv].
  set (opts := tokenizationOptions idx) in *.
  set (tokens := _tokenize opts (doc_content doc)).
  destruct (termFrequencies_ok tokens) as [NDf _].
  assert (SetEnd : array_set 0%nat (documentLengths idx) (documentCount idx)
                     (length tokens)
                   = documentLengths idx ++ [length tokens]).
  { rewrite <- array_set_end with (hole := 0%nat). f_equal.
    now rewrite Cc, Cl, length_map. }
  assert (Hnew : ~ In (doc_id doc) (doc_ids idx)).
  { rewrite <- Cm. intros Hin. apply SMap_has_In in Hin. congruence. }
  constructor;
    cbn [documents documentLengths averageDocumentLength invertedIndex
           documentCount documentMetadata vocabulary tokenizationOptions].
  - rewrite length_app. simpl. lia.
  - unfold doc_ids. cbn [documents]. rewrite map_app. simpl.
    apply NoDup_app; auto.
    + constructor; [tauto | constructor].
    + intros x Hx [<-|[]]. auto.
  - rewrite SMap_keys_set, H, Cm. unfold doc_ids. cbn [documents].
    now rewrite map_app.
  - rewrite SetEnd, map_app. f_equal. exact Cl.
  - rewrite SetEnd, list_sum_app.
    change (list_sum [length tokens]) with (length tokens + 0)%nat.
    rewrite Nat.add_0_r, plus_INR, <- Ca.
    unfold Rdiv. rewrite Rmult_assoc, Rinv_l; [lra|].
    apply not_0_INR. lia.
  - now apply push_postings_NoDup.
  - intros term. rewrite push_postings_exact by auto.
    rewrite termFrequencies_get, postings_from_app. simpl.
    fold tokens. rewrite <- Cc.
    specialize (Cp term). fold opts in Cp.
    destruct (count_occ string_dec tokens term =? 0)%nat eqn:E.
    + rewrite !app_nil_r. exact Cp.
    + unfold new_posting.
      destruct (SMap.get term (invertedIndex idx)) as [ps|].
      * destruct Cp as [_ <-]. split; auto. now destruct ps.
      * rewrite Cp. simpl. split; [discriminate | reflexivity].
  - intros term. rewrite vocabulary_fold, Cv. unfold SMap.has.
    rewrite push_postings_exact by auto. rewrite termFrequencies_get.
    fold tokens.
    destruct (Nat.eqb_spec (count_occ string_dec tokens term) 0) as [E|E].
    + apply count_occ_not_In in E. tauto.
    + assert (In term tokens) by (apply (count_occ_In string_dec); lia).
      tauto.
Qed.

Lemma built_consistent (idx : BM25Index) : built idx -> consistent idx.
Proof.
  induction 1.
  - constructor; simpl; auto; try constructor; try lra; try tauto;
      try discriminate.
  - now apply addDocument_consistent.
Qed.
(** Bookkeeping of [addDocument]: in an index built by adding documents
    the count is the number of documents, ids are distinct, the metadata
    map has exactly the ids of the documents in their order, and the
    recorded length of a document is its number of tokens. *)
Theorem built_index_bookkeeping (idx : BM25Index) :
  built idx ->
  documentCount idx = length (documents idx)
  /\ NoDup (doc_ids idx)
  /\ SMap.keys (documentMetadata idx) = doc_ids idx
  /\ documentLengths idx
     = map (token_count (tokenizationOptions idx)) (documents idx).
Proof.
  intros B. destruct (built_consistent idx B). auto.
Qed.

Lemma built_index_bookkeeping_witness :
  documentCount tie_index = length (documents tie_index)
  /\ NoDup (doc_ids tie_index)
  /\ SMap.keys (documentMetadata tie_index) = doc_ids tie_index
  /\ documentLengths tie_index
     = map (token_count (tokenizationOptions tie_index))
         (documents tie_index).
Proof.
  apply (built_index_bookkeeping tie_index).
  unfold tie_index, addDocuments. simpl. repeat constructor.
Defined.

(** The running average kept by [addDocument] is the mean of the document
    lengths. *)
Theorem running_average_is_mean (idx : BM25Index) :
  built idx -> documentCount idx <> 0%nat ->
  averageDocumentLength idx
  = (INR (list_sum (documentLengths idx)) / INR (documentCount idx))%R.
Proof.
  intros B N. destruct (built_consistent idx B) as [_ _ _ _ Ca _ _ _].
  rewrite <- Ca. field. now apply not_0_INR.
Qed.

Lemma running_average_is_mean_witness :
  averageDocumentLength tie_index
  = (INR (list_sum (documentLengths tie_index))
     / INR (documentCount tie_index))%R.
Proof.
  apply (running_average_is_mean tie_index).
  - unfold tie_index, addDocuments. simpl. repeat constructor.
  - discriminate.
Defined.

(** The inverted index is exact: the posting list of a term names, in
    order of document index, exactly the documents in which the term
    occurs, each with the number of occurrences; a term that occurs
    nowhere has no entry. *)
Theorem inverted_index_exact (idx : BM25Index) (term : string) :
  built idx ->
  match SMap.get term (invertedIndex idx) with
  | Some ps =>
      ps <> []
      /\ ps = postings_from (tokenizationOptions idx) term 0 (documents idx)
  | None =>
      postings_from (tokenizationOptions idx) term 0 (documents idx) = []
  end.
Proof.
  intros B. apply (cs_postings idx (built_consistent idx B)).
Qed.

Lemma inverted_index_exact_witness :
  match SMap.get "beta" (invertedIndex tie_index) with
  | Some ps =>
      ps <> []
      /\ ps = postings_from (tokenizationOptions tie_index) "beta" 0
                (documents tie_index)
  | None =>
      postings_from (tokenizationOptions tie_index) "beta" 0
        (documents tie_index) = []
  end.
Proof.
  apply (inverted_index_exact tie_index "beta").
  unfold tie_index, addDocuments. simpl. repeat constructor.
Defined.

Lemma postings_from_In (opts : TokenizationOptions) (term : string)
  (start : nat) (docs : list (string * string)) (p : Posting) :
  In p (postings_from opts term start docs)
  <-> exists i d,
      nth_error docs i = Some d
      /\ docIndex p = (start + i)%nat
      /\ frequency p = count_occ string_dec (_tokenize opts (snd d)) term
      /\ frequency p <> 0%nat.
Proof.
  revert start. induction docs as [|d docs IH]; intros start; simpl.
  - split; [tauto|]. intros (i & d & H & _). now destruct i.
  - rewrite in_app_iff, IH. split.
    + intros [H|(i & d' & H1 & H2 & H3)].
      * destruct (Nat.eqb_spec
                    (count_occ string_dec (_tokenize opts (snd d)) term) 0)
          as [E|E]; [contradiction|].
        destruct H as [<-|[]]. exists 0%nat, d. simpl.
        repeat split; auto; lia.
      * exists (S i), d'. simpl. repeat split; try tauto; lia.
    + intros ([|i] & d' & H1 & H2 & H3 & H4); simpl in H1.
      * injection H1 as <-. left.
        destruct (Nat.eqb_spec
                    (count_occ string_dec (_tokenize opts (snd d)) term) 0)
          as [E|E]; [congruence|].
        left. destruct p as [pi pf]. simpl in *. f_equal; lia.
      * right. exists i, d'. repeat split; auto; lia.
Qed.

(** The vocabulary is the set of the terms of the documents. *)
Theorem vocabulary_exact (idx : BM25Index) (term : string) :
  built idx ->
  In term (vocabulary idx)
  <-> exists d, In d (documents idx)
                /\ In term (_tokenize (tokenizationOptions idx) (snd d)).
Proof.
  intros B. destruct (built_consistent idx B) as [_ _ _ _ _ _ Cp Cv].
  rewrite Cv. unfold SMap.has. specialize (Cp term).
  destruct (SMap.get term (invertedIndex idx)) as [ps|].
  - destruct Cp as [Hn Hp]. split; [intros _|reflexivity].
    destruct ps as [|p ps]; [congruence|].
    assert (Hi : In p (postings_from (tokenizationOptions idx) term 0
                         (documents idx))) by (rewrite <- Hp; now left).
    apply postings_from_In in Hi as (i & d & H1 & _ & H3 & H4).
    exists d. split; [eapply nth_error_In; eauto|].
    apply (count_occ_In string_dec). lia.
  - split; [discriminate|]. intros (d & Hd & Ht). exfalso.
    apply In_nth_error in Hd as [i Hi].
    assert (Hp : In {| docIndex := i;
                       frequency := count_occ string_dec
                                      (_tokenize (tokenizationOptions idx)
                                         (snd d)) term |}
                   (postings_from (tokenizationOptions idx) term 0
                      (documents idx))).
    { apply postings_from_In. exists i, d. simpl. repeat split; auto.
      apply (count_occ_In string_dec) in Ht. lia. }
    now rewrite Cp in Hp.
Qed.

Lemma vocabulary_exact_witness :
  In "beta" (vocabulary tie_index)
  <-> exists d, In d (documents tie_index)
                /\ In "beta" (_tokenize (tokenizationOptions tie_index)
                                (snd d)).
Proof.
  apply (vocabulary_exact tie_index "beta").
  unfold tie_index, addDocuments. simpl. repeat constructor.
Defined.

(** ** BM25: which documents a search returns *)

Lemma score_postings_keys (idx : BM25Index) (idf : R) (ps : list Posting)
  (scores scores' : SMap.t R) :
  score_postings idx idf ps scores = Ok scores' ->
  NoDup (SMap.keys scores) ->
  NoDup (SMap.keys scores')
  /\ forall id,
      In id (SMap.keys scores')
      <-> In id (SMap.keys scores)
          \/ exists p c, In p ps
                         /\ nth_error (documents idx) (docIndex p)
                            = Some (id, c).
Proof.
  revert scores. induction ps as [|p ps IH]; intros scores H ND; simpl in H.
  - injection H as <-. split; auto. intros id. split; auto.
    intros [?|(? & ? & [] & _)]; auto.
  - destruct (nth_error (documents idx) (docIndex p)) as [[docId c]|] eqn:E;
      [|discriminate].
    set (s1 := if SMap.has docId scores then scores
               else SMap.set docId 0%R scores) in *.
    assert (ND1 : NoDup (SMap.keys s1)).
    { unfold s1. destruct (SMap.has docId scores); auto using SMap_NoDup_set. }
    assert (K1 : forall id, In id (SMap.keys s1)
                            <-> In id (SMap.keys scores) \/ id = docId).
    { intros id. unfold s1. destruct (SMap.has docId scores) eqn:Hh.
      - apply SMap_has_In in Hh. split; auto. intros [?| ->]; auto.
      - rewrite SMap_keys_set, Hh, in_app_iff. simpl. intuition. }
    assert (Hh1 : SMap.has docId s1 = true).
    { apply SMap_has_In, K1. auto. }
    apply IH in H; [|now apply SMap_NoDup_set].
    destruct H as [ND' K']. split; auto.
    intros id. rewrite K', SMap_keys_set, Hh1, K1. split.
    + intros [[H| ->]|(q & c' & Hq & Hn)]; auto.
      * right. exists p, c. simpl. auto.
      * right. exists q, c'. simpl. auto.
    + intros [H|(q & c' & [<-|Hq] & Hn)]; auto.
      * left. right. congruence.
      * right. exists q, c'. auto.
Qed.

Lemma score_terms_keys (idx : BM25Index) (terms : list string)
  (scores scores' : SMap.t R) :
  score_terms idx terms scores = Ok scores' ->
  NoDup (SMap.keys scores) ->
  NoDup (SMap.keys scores')
  /\ forall id,
      In id (SMap.keys scores')
      <-> In id (SMap.keys scores)
          \/ exists t ps p c,
              In t terms /\ SMap.get t (invertedIndex idx) = Some ps
              /\ In p ps
              /\ nth_error (documents idx) (docIndex p) = Some (id, c).
Proof.
  revert scores. induction terms as [|t terms IH]; intros scores H ND;
    simpl in H.
  - injection H as <-. split; auto. intros id. split; auto.
    intros [?|(? & ? & ? & ? & [] & _)]; auto.
  - destruct (SMap.get t (invertedIndex idx)) as [ps|] eqn:E.
    + destruct (score_postings idx (_calculateIDF idx t) ps scores)
        as [s1|] eqn:S1; [|discriminate]. simpl in H.
      apply score_postings_keys in S1 as [ND1 K1]; auto.
      apply IH in H as [ND' K']; auto. split; auto.
      intros id. rewrite K', K1. split.
      * intros [[H|(p & c & Hp & Hn)]|(t' & ps' & p & c & Ht & Hg & Hp & Hn)];
          auto.
        -- right. exists t, ps, p, c. simpl. auto.
        -- right. exists t', ps', p, c. simpl. auto.
      * intros [H|(t' & ps' & p & c & [<-|Ht] & Hg & Hp & Hn)]; auto.
        -- left. right. rewrite E in Hg. injection Hg as <-. eauto.
        -- right. exists t', ps', p, c. auto.
    + apply IH in H as [ND' K']; auto. split; auto.
      intros id. rewrite K'. split.
      * intros [H|(t' & ps' & p & c & Ht & Hg & Hp & Hn)]; auto.
        right. exists t', ps', p, c. simpl. auto.
      * intros [H|(t' & ps' & p & c & [<-|Ht] & Hg & Hp & Hn)]; auto.
        -- congruence.
        -- right. exists t', ps', p, c. auto.
Qed.

Lemma score_postings_total (idx : BM25Index) (idf : R) (ps : list Posting)
  (scores : SMap.t R) :
  Forall (fun p => (docIndex p < length (documents idx))%nat) ps ->
  exists scores', score_postings idx idf ps scores = Ok scores'.
Proof.
  revert scores. induction ps as [|p ps IH]; intros scores F; simpl; eauto.
  inversion F as [|? ? Hp F']; subst.
  destruct (nth_error (documents idx) (docIndex p)) as [[docId c]|] eqn:E;
    [|apply nth_error_None in E; lia].
  now apply IH.
Qed.

Lemma score_terms_total (idx : BM25Index) (terms : list string)
  (scores : SMap.t R) :
  well_formed idx ->
  exists scores', score_terms idx terms scores = Ok scores'.
Proof.
  intros W. revert scores.
  induction terms as [|t terms IH]; intros scores; simpl; eauto.
  destruct (SMap.get t (invertedIndex idx)) as [ps|] eqn:E; auto.
  destruct (score_postings_total idx (_calculateIDF idx t) ps scores)
    as [s1 ->]; simpl; auto.
  destruct (wf_postings idx W _ _ E) as [_ F].
  rewrite (wf_documents idx W).
  eapply Forall_impl; [|exact F]. simpl. tauto.
Qed.

Lemma search_on_built (idx : BM25Index) (query : string) (k : Z) :
  built idx ->
  exists rs,
    search idx query k = Ok rs
    /\ NoDup (map bm_id rs)
    /\ forall r, In r rs ->
         In (bm_id r) (doc_ids idx)
         /\ exists m, bm_metadata r = Some m
                      /\ SMap.get (bm_id r) (documentMetadata idx) = Some m.
Proof.
  intros B. pose proof (built_well_formed idx B) as W.
  destruct (built_consistent idx B) as [_ _ Cm _ _ _ Cp _].
  unfold search.
  destruct (score_terms_total idx (_tokenize (tokenizationOptions idx) query)
              [] W) as [scores S].
  rewrite S. cbn [bind]. eexists. split; [reflexivity|].
  apply score_terms_keys in S as [ND K]; [|constructor].
  set (all := sort_desc bm_score (map (to_result idx) scores)).
  destruct (slice0_firstn all k) as [n ->].
  assert (Eall : Permutation (map bm_id all) (SMap.keys scores)).
  { unfold all. rewrite (Permutation_map bm_id (sort_desc_perm bm_score _)).
    rewrite map_map. apply Permutation_refl. }
  split.
  - assert (NDall : NoDup (map bm_id all)).
    { eapply Permutation_NoDup; [symmetry; exact Eall | exact ND]. }
    rewrite <- (firstn_skipn n all), map_app in NDall.
    now apply NoDup_app_remove_r in NDall.
  - intros r Hr. apply In_firstn in Hr. unfold all in Hr.
    apply sort_desc_In in Hr. apply in_map_iff in Hr as [[id v] [<- He]].
    cbn [to_result bm_id bm_metadata fst].
    assert (Hk : In id (SMap.keys scores)).
    { change id with (fst (id, v)). now apply in_map. }
    apply K in Hk as [[]|(t & ps & p & c & _ & _ & _ & Hn)].
    assert (Hid : In id (doc_ids idx)).
    { apply nth_error_In in Hn. change id with (fst (id, c)).
      now apply in_map. }
    split; auto. rewrite <- Cm in Hid. apply SMap_has_In in Hid.
    unfold SMap.has in Hid.
    destruct (SMap.get id (documentMetadata idx)) as [m|]; [eauto|discriminate].
Qed.

(** On an index built by adding documents [search] never throws, whatever
    the parameters, the query and [k]; the results are distinct documents
    of the index, each with the metadata stored for it. *)
Theorem search_total (idx : BM25Index) (query : string) (k : Z) :
  built idx ->
  exists rs,
    search idx query k = Ok rs
    /\ NoDup (map bm_id rs)
    /\ forall r, In r rs ->
         In (bm_id r) (doc_ids idx)
         /\ exists m, bm_metadata r = Some m
                      /\ SMap.get (bm_id r) (documentMetadata idx) = Some m.
Proof. apply search_on_built. Qed.

Lemma search_total_witness :
  exists rs,
    search tie_index "beta alpha" (-1) = Ok rs
    /\ NoDup (map bm_id rs)
    /\ forall r, In r rs ->
         In (bm_id r) (doc_ids tie_index)
         /\ exists m, bm_metadata r = Some m
                      /\ SMap.get (bm_id r) (documentMetadata tie_index)
                         = Some m.
Proof.
  apply (search_total tie_index "beta alpha" (-1)).
  unfold tie_index, addDocuments. simpl. repeat constructor.
Defined.

Lemma search_overlapping (idx : BM25Index) (query : string) (k : Z) :
  built idx -> (Z.of_nat (documentCount idx) <= k)%Z ->
  exists rs,
    search idx query k = Ok rs
    /\ forall id,
        In id (map bm_id rs)
        <-> exists content,
            In (id, content) (documents idx)
            /\ shares_term (tokenizationOptions idx) query content.
Proof.
  intros B Hk. pose proof (built_well_formed idx B) as W.
  pose proof (built_consistent idx B) as C.
  unfold search.
  destruct (score_terms_total idx (_tokenize (tokenizationOptions idx) query)
              [] W) as [scores S].
  rewrite S. cbn [bind]. eexists. split; [reflexivity|].
  pose proof S as S'.
  apply score_terms_keys in S as [ND K]; [|constructor].
  set (all := sort_desc bm_score (map (to_result idx) scores)).
  assert (L : (length all <= documentCount idx)%nat).
  { unfold all. rewrite sort_desc_length, length_map.
    rewrite <- (wf_documents idx W), <- (length_map fst (documents idx)).
    rewrite <- (length_map fst scores).
    apply NoDup_incl_length; auto.
    intros id Hid. apply K in Hid as [[]|(t & ps & p & c & _ & _ & _ & Hn)].
    apply nth_error_In in Hn. change id with (fst (id, c)).
    now apply in_map. }
  assert (E : slice0 all k = all).
  { unfold slice0. destruct (Z.ltb_spec k 0); [lia|].
    apply firstn_all2. lia. }
  rewrite E. intros id.
  assert (Eall : In id (map bm_id all) <-> In id (SMap.keys scores)).
  { unfold all. split; intros H.
    - apply in_map_iff in H as [r [<- Hr]]. apply sort_desc_In in Hr.
      apply in_map_iff in Hr as [e [<- He]]. simpl. now apply in_map.
    - apply in_map_iff in H as [e [<- He]].
      apply in_map_iff. exists (to_result idx e). split; auto.
      apply sort_desc_In. now apply in_map. }
  rewrite Eall, K. split.
  - intros [[]|(t & ps & p & c & Ht & Hg & Hp & Hn)].
    exists c. split; [eapply nth_error_In; eauto|].
    exists t. split; auto.
    pose proof (cs_postings idx C t) as Cp. rewrite Hg in Cp.
    destruct Cp as [_ ->].
    apply postings_from_In in Hp as (i & d & H1 & H2 & H3 & H4).
    simpl in H2. rewrite H2, H1 in Hn. injection Hn as ->.
    apply (count_occ_In string_dec). simpl in *. lia.
  - intros (c & Hd & t & Ht & Hc). right.
    apply In_nth_error in Hd as [i Hi].
    set (p := {| docIndex := i;
                 frequency := count_occ string_dec
                                (_tokenize (tokenizationOptions idx) c) t |}).
    assert (Hp : In p (postings_from (tokenizationOptions idx) t 0
                         (documents idx))).
    { apply postings_from_In. exists i, (id, c). simpl. repeat split; auto.
      apply (count_occ_In string_dec) in Hc. lia. }
    pose proof (cs_postings idx C t) as Cp.
    destruct (SMap.get t (invertedIndex idx)) as [ps|] eqn:Hg.
    + destruct Cp as [_ ->]. eexists t, _, p, c. eauto.
    + now rewrite Cp in Hp.
Qed.

(** With [k] at least the number of documents, [search] returns exactly
    the documents that have a term in common with the query. *)
Theorem search_returns_overlapping (idx : BM25Index) (query : string) (k : Z) :
  built idx -> (Z.of_nat (documentCount idx) <= k)%Z ->
  exists rs,
    search idx query k = Ok rs
    /\ forall id,
        In id (map bm_id rs)
        <-> exists content,
            In (id, content) (documents idx)
            /\ shares_term (tokenizationOptions idx) query content.
Proof. apply search_overlapping. Qed.

Lemma search_returns_overlapping_witness :
  exists rs,
    search tie_index "beta" 2 = Ok rs
    /\ forall id,
        In id (map bm_id rs)
        <-> exists content,
            In (id, content) (documents tie_index)
            /\ shares_term (tokenizationOptions tie_index) "beta" content.
Proof.
  apply (search_returns_overlapping tie_index "beta" 2).
  - unfold tie_index, addDocuments. simpl. repeat constructor.
  - simpl. lia.
Defined.

(** A document is found by its own text: a document of the index that
    has at least one token is among the results of a search for its
    content, when [k] is at least the number of documents. *)
Theorem search_finds_own_content (idx : BM25Index) (id content : string)
  (k : Z) :
  built idx -> (Z.of_nat (documentCount idx) <= k)%Z ->
  In (id, content) (documents idx) ->
  _tokenize (tokenizationOptions idx) content <> [] ->
  exists rs, search idx content k = Ok rs /\ In id (map bm_id rs).
Proof.
  intros B Hk Hd Ht.
  destruct (search_overlapping idx content k B Hk) as [rs [S K]].
  exists rs. split; auto. apply K. exists content. split; auto.
  destruct (_tokenize (tokenizationOptions idx) content) as [|t ts] eqn:E;
    [congruence|].
  exists t. rewrite E. simpl. auto.
Qed.

Lemma search_finds_own_content_witness :
  exists rs, search tie_index "beta" 2 = Ok rs /\ In "d1" (map bm_id rs).
Proof.
  apply (search_finds_own_content tie_index "d1" "beta" 2).
  - unfold tie_index, addDocuments. simpl. repeat constructor.
  - simpl. lia.
  - simpl. auto.
  - change (["beta"] <> @nil string). discriminate.
Defined.

(** ** BM25: ties of a query with one term *)

Lemma before_app_r {A} (a b : A) (l m : list A) :
  before a b m -> before a b (l ++ m).
Proof. induction l; simpl; auto using before_later. Qed.

Lemma before_insert {A} (a b x : A) (l m : list A) :
  before a b (l ++ m) -> before a b (l ++ x :: m).
Proof.
  induction l as [|y l IH]; simpl; intros H.
  - now apply before_later.
  - inversion H as [l' Hb|c l' H']; subst.
    + apply before_here. apply in_app_or in Hb as [Hb|Hb];
        apply in_or_app; simpl; auto.
    + apply before_later. auto.
Qed.

Lemma score_postings_order (idx : BM25Index) (idf : R) (ps : list Posting)
  (scores scores' : SMap.t R) (a b : string) :
  score_postings idx idf ps scores = Ok scores' ->
  before a b (SMap.keys scores') ->
  before a b (SMap.keys scores ++ posting_ids idx ps).
Proof.
  revert scores. induction ps as [|p ps IH]; intros scores H Hb; simpl in H.
  - injection H as <-. unfold posting_ids. simpl. now rewrite app_nil_r.
  - unfold posting_ids. cbn [flat_map]. fold (posting_ids idx ps).
    destruct (nth_error (documents idx) (docIndex p)) as [[docId c]|] eqn:E;
      [|discriminate].
    specialize (IH _ H Hb). rewrite SMap_keys_set in IH.
    destruct (SMap.has docId scores) eqn:Hh.
    + rewrite Hh in IH. simpl. now apply before_insert.
    + rewrite SMap_has_set_same, SMap_keys_set, Hh, <- app_assoc in IH.
      exact IH.
Qed.

Lemma postings_from_increasing (opts : TokenizationOptions) (term : string)
  (start : nat) (docs : list (string * string)) (p q : Posting) :
  before p q (postings_from opts term start docs) ->
  (start <= docIndex p < docIndex q)%nat.
Proof.
  revert start. induction docs as [|d docs IH]; intros start H; simpl in H.
  - inversion H.
  - destruct (count_occ string_dec (_tokenize opts (snd d)) term =? 0)%nat.
    + simpl in H. apply IH in H. lia.
    + simpl in H. inversion H as [l' Hq|c l' H']; subst.
      * apply postings_from_In in Hq as (i & _ & _ & Hi & _). simpl. lia.
      * apply IH in H'. lia.
Qed.

Lemma posting_ids_before (idx : BM25Index) (ps : list Posting)
  (a b : string) :
  before a b (posting_ids idx ps) ->
  exists p q ca cb,
    before p q ps
    /\ nth_error (documents idx) (docIndex p) = Some (a, ca)
    /\ nth_error (documents idx) (docIndex q) = Some (b, cb).
Proof.
  induction ps as [|x ps IH]; intros H.
  - inversion H.
  - unfold posting_ids in H. cbn [flat_map] in H.
    fold (posting_ids idx ps) in H.
    assert (Tail : before a b (posting_ids idx ps) ->
                   exists p q ca cb,
                     before p q (x :: ps)
                     /\ nth_error (documents idx) (docIndex p) = Some (a, ca)
                     /\ nth_error (documents idx) (docIndex q) = Some (b, cb)).
    { intros T. destruct (IH T) as (p & q & ca & cb & Hb & Hp & Hq).
      exists p, q, ca, cb. auto using before_later. }
    destruct (nth_error (documents idx) (docIndex x)) as [[id c]|] eqn:E;
      simpl in H; auto.
    inversion H as [l' Hb|c' l' H']; subst; auto.
    unfold posting_ids in Hb. apply in_flat_map in Hb as (q & Hq & Hi).
    destruct (nth_error (documents idx) (docIndex q)) as [[id' cq]|] eqn:Eq;
      [|contradiction].
    destruct Hi as [->|[]].
    exists x, q, c, cq. auto using before_here.
Qed.

Lemma search_ties_follow_scoring (idx : BM25Index) (query : string) (k : Z)
  (rs : list BM25SearchResult) (r1 r2 : BM25SearchResult) :
  search idx query k = Ok rs ->
  before r1 r2 rs -> bm_score r1 = bm_score r2 ->
  before (bm_id r1) (bm_id r2) (scoring_order idx query).
Proof.
  unfold search, scoring_order.
  destruct (score_terms idx (_tokenize (tokenizationOptions idx) query) [])
    as [scores|]; [|discriminate].
  cbn [bind]. intros H Hb He. injection H as <-.
  destruct (slice0_firstn
              (sort_desc bm_score (map (to_result idx) scores)) k) as [n En].
  rewrite En in Hb. apply before_firstn in Hb.
  apply sort_desc_stable in Hb; auto.
  clear - Hb. unfold SMap.keys.
  induction scores as [|e scores IH]; simpl in *; inversion Hb; subst.
  - apply before_here.
    match goal with
    | H : In _ (map _ _) |- _ => apply in_map_iff in H as [e2 [<- H2]]
    end.
    simpl. now apply in_map.
  - apply before_later. auto.
Qed.

(** For a query with a single term, results with equal scores come in
    order of document index: the earlier document first. *)
Theorem search_single_term_ties (idx : BM25Index) (query term : string)
  (k : Z) (rs : list BM25SearchResult) (r1 r2 : BM25SearchResult) :
  built idx ->
  _tokenize (tokenizationOptions idx) query = [term] ->
  search idx query k = Ok rs ->
  before r1 r2 rs -> bm_score r1 = bm_score r2 ->
  exists i1 i2 c1 c2,
    (i1 < i2)%nat
    /\ nth_error (documents idx) i1 = Some (bm_id r1, c1)
    /\ nth_error (documents idx) i2 = Some (bm_id r2, c2).
Proof.
  intros B T S Hb He.
  pose proof (search_ties_follow_scoring idx query k rs r1 r2 S Hb He) as O.
  unfold scoring_order in O. rewrite T in O. cbn [score_terms] in O.
  pose proof (cs_postings idx (built_consistent idx B) term) as Cp.
  destruct (SMap.get term (invertedIndex idx)) as [ps|];
    [|inversion O].
  destruct Cp as [_ Cp].
  destruct (score_postings idx (_calculateIDF idx term) ps []) as [s1|] eqn:S1;
    [|inversion O].
  cbn [bind] in O.
  apply (score_postings_order _ _ _ _ _ _ _ S1) in O. simpl in O.
  apply posting_ids_before in O as (p & q & ca & cb & Hpq & Hp & Hq).
  rewrite Cp in Hpq. apply postings_from_increasing in Hpq.
  exists (docIndex p), (docIndex q), ca, cb. repeat split; auto. lia.
Qed.

Lemma search_single_term_ties_witness :
  exists i1 i2 c1 c2,
    (i1 < i2)%nat
    /\ nth_error (documents twin_index) i1 = Some ("d0", c1)
    /\ nth_error (documents twin_index) i2 = Some ("d1", c2).
Proof.
  set (s0 := (0 + _calculateBM25Score twin_index 0 1
                    (_calculateIDF twin_index "alpha"))%R).
  set (s1 := (0 + _calculateBM25Score twin_index 1 1
                    (_calculateIDF twin_index "alpha"))%R).
  assert (E : s0 = s1) by reflexivity.
  set (r0 := {| bm_id := "d0"; bm_score := s0;
                bm_metadata := Some sample_metadata |}).
  set (r1 := {| bm_id := "d1"; bm_score := s1;
                bm_metadata := Some sample_metadata |}).
  apply (search_single_term_ties twin_index "alpha" "alpha" 2 [r0; r1] r0 r1).
  - unfold twin_index, addDocuments. simpl. repeat constructor.
  - reflexivity.
  - unfold search.
    change (score_terms twin_index
              (_tokenize (tokenizationOptions twin_index) "alpha") [])
      with (Ok [("d0", s0); ("d1", s1)]).
    cbn [bind map to_result fst snd sort_desc fold_right insert_desc bm_score].
    destruct (Rlt_dec s0 s1) as [L|L]; [rewrite E in L; lra|].
    reflexivity.
  - apply before_here. simpl. auto.
  - exact E.
Defined.

(** ** BM25: the formula *)

Lemma postings_from_length (opts : TokenizationOptions) (term : string)
  (start : nat) (docs : list (string * string)) :
  length (postings_from opts term start docs) = docs_with_term opts term docs.
Proof.
  unfold docs_with_term. revert start.
  induction docs as [|d docs IH]; intros start; simpl; auto.
  rewrite length_app, IH.
  now destruct (count_occ string_dec (_tokenize opts (snd d)) term =? 0)%nat.
Qed.

Lemma token_count_le_sum (opts : TokenizationOptions)
  (docs : list (string * string)) (d : string * string) :
  In d docs ->
  (token_count opts d <= list_sum (map (token_count opts) docs))%nat.
Proof.
  induction docs as [|x docs IH]; simpl; [tauto|].
  intros [->|H]; [lia|]. apply IH in H. lia.
Qed.

Lemma consistent_mean (idx : BM25Index) :
  consistent idx -> documents idx <> [] ->
  averageDocumentLength idx
  = mean_length (tokenizationOptions idx) (documents idx).
Proof.
  intros C N. unfold mean_length.
  rewrite <- (cs_lengths idx C), <- (cs_count idx C), <- (cs_average idx C).
  assert (INR (documentCount idx) <> 0)%R.
  { apply not_0_INR. rewrite (cs_count idx C).
    destruct (documents idx); [congruence|discriminate]. }
  now field.
Qed.

Lemma consistent_idf (idx : BM25Index) (term : string) :
  consistent idx ->
  _calculateIDF idx term
  = idf_formula (length (documents idx))
      (docs_with_term (tokenizationOptions idx) term (documents idx))
      (epsilon idx).
Proof.
  intros C. unfold _calculateIDF, idf_formula.
  rewrite (cs_count idx C). pose proof (cs_postings idx C term) as P.
  rewrite <- (postings_from_length (tokenizationOptions idx) term 0).
  destruct (SMap.get term (invertedIndex idx)) as [ps|].
  - now destruct P as [_ <-].
  - now rewrite P.
Qed.

Lemma consistent_contribution (idx : BM25Index) (term id content : string)
  (i : nat) :
  consistent idx ->
  nth_error (documents idx) i = Some (id, content) ->
  (if (count_occ string_dec
         (_tokenize (tokenizationOptions idx) content) term =? 0)%nat
   then 0%R
   else _calculateBM25Score idx i
          (count_occ string_dec
             (_tokenize (tokenizationOptions idx) content) term)
          (_calculateIDF idx term))
  = term_score idx term content.
Proof.
  intros C E. unfold term_score. cbv zeta.
  destruct (count_occ string_dec _ term =? 0)%nat; [reflexivity|].
  unfold _calculateBM25Score, bm25_formula. cbv zeta.
  rewrite (consistent_idf idx term C).
  rewrite (consistent_mean idx C) by (intros Z; rewrite Z in E; now destruct i).
  rewrite (cs_lengths idx C).
  replace (nth i (map (token_count (tokenizationOptions idx))
                    (documents idx)) 0%nat)
    with (length (_tokenize (tokenizationOptions idx) content)); auto.
  symmetry. apply nth_error_nth.
  now apply (map_nth_error (token_count (tokenizationOptions idx))) in E.
Qed.

Lemma score_at_set_same (scores : SMap.t R) (id : string) (v : R) :
  score_at (SMap.set id v scores) id = v.
Proof. unfold score_at. now rewrite SMap_get_set_same. Qed.

Lemma score_at_set_other (scores : SMap.t R) (id id' : string) (v : R) :
  id <> id' -> score_at (SMap.set id v scores) id' = score_at scores id'.
Proof. intros N. unfold score_at. now rewrite SMap_get_set_other. Qed.

Lemma score_at_started (scores : SMap.t R) (id x : string) :
  score_at (if SMap.has id scores then scores else SMap.set id 0%R scores) x
  = score_at scores x.
Proof.
  unfold SMap.has. destruct (SMap.get id scores) eqn:G; [reflexivity|].
  destruct (String.eqb_spec id x) as [->|N].
  - rewrite score_at_set_same. unfold score_at. now rewrite G.
  - now apply score_at_set_other.
Qed.

Lemma score_postings_adds (idx : BM25Index) (idf : R) (term : string)
  (suf : list (string * string)) :
  forall (pre : list (string * string)) (scores scores' : SMap.t R),
    documents idx = pre ++ suf ->
    NoDup (map fst (documents idx)) ->
    score_postings idx idf
      (postings_from (tokenizationOptions idx) term (length pre) suf) scores
    = Ok scores' ->
    forall id content,
      (forall i, nth_error suf i = Some (id, content) ->
         score_at scores' id
         = (score_at scores id
            + (if (count_occ string_dec
                     (_tokenize (tokenizationOptions idx) content) term
                   =? 0)%nat
               then 0
               else _calculateBM25Score idx (length pre + i)
                      (count_occ string_dec
                         (_tokenize (tokenizationOptions idx) content) term)
                      idf))%R)
      /\ (In (id, content) pre -> score_at scores' id = score_at scores id).
Proof.
  induction suf as [|[id_d c_d] rest IH]; intros pre scores scores' D ND HS
    id content.
  - simpl in HS. injection HS as <-. split; [|reflexivity].
    intros i H. now destruct i.
  - assert (D' : documents idx = (pre ++ [(id_d, c_d)]) ++ rest)
      by now rewrite <- app_assoc.
    assert (L' : length (pre ++ [(id_d, c_d)]) = S (length pre))
      by (rewrite length_app; simpl; lia).
    assert (Fresh : forall x c, In (x, c) pre \/ In (x, c) rest -> x <> id_d).
    { intros x c H ->. rewrite D, map_app in ND. simpl in ND.
      apply NoDup_remove_2 in ND. apply ND, in_or_app.
      destruct H as [H|H]; [left|right];
        change id_d with (fst (id_d, c)); now apply in_map. }
    cbn [postings_from] in HS. cbv zeta in HS. cbn [snd] in HS.
    destruct (count_occ string_dec
                (_tokenize (tokenizationOptions idx) c_d) term =? 0)%nat
      eqn:Z.
    + cbn [app] in HS. rewrite <- L' in HS.
      destruct (IH _ _ _ D' ND HS id content) as [A B]. split.
      * intros [|i] H.
        -- simpl in H. injection H as -> ->. rewrite Z, Rplus_0_r.
           apply B, in_or_app. right. now left.
        -- simpl in H. rewrite (A i H), L'.
           now replace (S (length pre) + i)%nat
             with (length pre + S i)%nat by lia.
      * intros H. apply B, in_or_app. now left.
    + cbn [app score_postings docIndex frequency] in HS.
      rewrite D, nth_error_app2, Nat.sub_diag in HS by lia.
      cbn [nth_error] in HS. cbv zeta in HS. rewrite <- L' in HS.
      destruct (IH _ _ _ D' ND HS id content) as [A B]. split.
      * intros [|i] H.
        -- simpl in H. injection H as -> ->. rewrite Z, Nat.add_0_r.
           rewrite B by (apply in_or_app; right; now left).
           rewrite score_at_set_same. f_equal.
           fold (score_at (if SMap.has id scores then scores
                           else SMap.set id 0%R scores) id).
           apply score_at_started.
        -- simpl in H. rewrite (A i H), L'.
           replace (S (length pre) + i)%nat with (length pre + S i)%nat
             by lia.
           f_equal. rewrite score_at_set_other, score_at_started; auto.
           apply not_eq_sym, (Fresh id content). right.
           eapply nth_error_In; eauto.
      * intros H. rewrite B by (apply in_or_app; now left).
        rewrite score_at_set_other, score_at_started; auto.
        apply not_eq_sym, (Fresh id content). now left.
Qed.

Lemma score_terms_adds (idx : BM25Index) (terms : list string) :
  consistent idx ->
  forall scores scores',
    score_terms idx terms scores = Ok scores' ->
    forall id content i,
      nth_error (documents idx) i = Some (id, content) ->
      score_at scores' id
      = fold_left (fun acc t => (acc + term_score idx t content)%R) terms
          (score_at scores id).
Proof.
  intros C. induction terms as [|t terms IH]; intros scores scores' HS
    id content i E.
  - simpl in HS. now injection HS as <-.
  - cbn [score_terms] in HS. cbn [fold_left].
    pose proof (cs_postings idx C t) as P.
    destruct (SMap.get t (invertedIndex idx)) as [ps|].
    + destruct P as [_ ->].
      destruct (score_postings idx (_calculateIDF idx t) _ scores)
        as [s1|e] eqn:S1; [|discriminate].
      cbn [bind] in HS. rewrite (IH _ _ HS id content i E). f_equal.
      destruct (score_postings_adds idx (_calculateIDF idx t) t
                  (documents idx) [] scores s1 eq_refl (cs_ids idx C) S1
                  id content) as [A _].
      rewrite (A i E). f_equal.
      now apply (consistent_contribution idx t id content i).
    + rewrite (IH _ _ HS id content i E). f_equal.
      assert (Z : count_occ string_dec
                    (_tokenize (tokenizationOptions idx) content) t = 0%nat).
      { destruct (count_occ string_dec
                    (_tokenize (tokenizationOptions idx) content) t)
          as [|n] eqn:Q; auto.
        exfalso.
        assert (H : In {| docIndex := i; frequency := S n |}
                      (postings_from (tokenizationOptions idx) t 0
                         (documents idx))).
        { apply postings_from_In. exists i, (id, content).
          cbn [docIndex frequency snd]. repeat split; auto. }
        now rewrite P in H. }
      unfold term_score. cbv zeta. rewrite Z. cbn [Nat.eqb]. lra.
Qed.

(** C4: on an index built by adding documents, with parameters in the
    usual range, the contribution of a posting to a score is the formula
    [ln(1 + (N - n_t + 0.5)/(n_t + 0.5) + eps) * (f*(k1+1)) /
    (f + k1*(1 - b + b*dl/avg_dl))], where [N] is the number of documents,
    [n_t] the number of documents with the term, [f] the number of
    occurrences of the term in the document, [dl] the number of tokens of
    the document and [avg_dl] the mean of these numbers; no division in
    it is by zero.  The score that [search] returns for a document is the
    sum of these contributions over the terms of the query.  Searching
    [foo] in the one-document index of the example scores the document
    [ln (1 + 1/3 + 0.25) * 4.4 / 3.2], hence within [1e-9] of that
    value. *)
Theorem bm25_score_formula :
  (forall idx, built idx -> usual_parameters idx ->
     (forall term ps p,
        SMap.get term (invertedIndex idx) = Some ps -> In p ps ->
        exists id content,
          nth_error (documents idx) (docIndex p) = Some (id, content)
          /\ frequency p
             = count_occ string_dec
                 (_tokenize (tokenizationOptions idx) content) term
          /\ (0 < mean_length (tokenizationOptions idx) (documents idx))%R
          /\ (0 < INR (frequency p)
                  + k1 idx
                    * (1 - b idx
                       + b idx
                         * (INR (length (_tokenize (tokenizationOptions idx)
                                           content))
                            / mean_length (tokenizationOptions idx)
                                (documents idx))))%R
          /\ _calculateBM25Score idx (docIndex p) (frequency p)
               (_calculateIDF idx term)
             = bm25_formula (k1 idx) (b idx) (epsilon idx)
                 (length (documents idx))
                 (docs_with_term (tokenizationOptions idx) term
                    (documents idx))
                 (frequency p)
                 (length (_tokenize (tokenizationOptions idx) content))
                 (mean_length (tokenizationOptions idx) (documents idx)))
     /\ (forall query k rs r,
           search idx query k = Ok rs -> In r rs ->
           exists content,
             In (bm_id r, content) (documents idx)
             /\ bm_score r = query_score idx query content))
  /\ documentCount foo_index = 1%nat
  /\ documentLengths foo_index = [10%nat]
  /\ averageDocumentLength foo_index = 10%R
  /\ SMap.get "foo" (invertedIndex foo_index)
     = Some [{| docIndex := 0; frequency := 2 |}]
  /\ exists r,
      search foo_index "foo" 5 = Ok [r]
      /\ bm_id r = "d1"
      /\ bm_score r = (ln (1 + 1 / 3 + 0.25) * (4.4 / 3.2))%R
      /\ (Rabs (bm_score r - ln (1 + 1 / 3 + 0.25) * (4.4 / 3.2)) < 1e-9)%R.
Proof.
  split.
  { intros idx B U. pose proof (built_consistent idx B) as C.
    pose proof (built_well_formed idx B) as W. split.
    - intros term ps p G Hp.
      pose proof (cs_postings idx C term) as P. rewrite G in P.
      destruct P as [_ ->].
      apply postings_from_In in Hp as (i & [id content] & E & Hi & Hf & Hn).
      cbn [snd] in Hf. simpl in Hi. rewrite Hi.
      exists id, content. split; [exact E|]. split; [exact Hf|].
      assert (M : (0 < mean_length (tokenizationOptions idx)
                         (documents idx))%R).
      { unfold mean_length. apply Rdiv_lt_0_compat.
        - apply lt_0_INR.
          pose proof (token_count_le_sum (tokenizationOptions idx)
                        (documents idx) (id, content)
                        (nth_error_In _ _ E)) as T.
          unfold token_count in T at 1. cbn [snd] in T.
          pose proof (count_occ_bound string_dec term
                        (_tokenize (tokenizationOptions idx) content)).
          lia.
        - apply lt_0_INR. apply nth_error_In in E.
          destruct (documents idx); [contradiction|simpl; lia]. }
      split; [exact M|].
      destruct U as (Hk & [Hb0 Hb1] & _).
      assert (F1 : (1 <= INR (frequency p))%R)
        by (change 1%R with (INR 1); apply le_INR; lia).
      split.
      + pose proof (pos_INR (length (_tokenize (tokenizationOptions idx)
                                       content))) as Hl.
        assert (0 <= INR (length (_tokenize (tokenizationOptions idx)
                                    content))
                     / mean_length (tokenizationOptions idx)
                         (documents idx))%R
          by (apply Rdiv_nonneg; lra).
        assert (0 <= b idx
                     * (INR (length (_tokenize (tokenizationOptions idx)
                                       content))
                        / mean_length (tokenizationOptions idx)
                            (documents idx)))%R
          by (apply Rmult_le_pos; lra).
        assert (0 <= k1 idx
                     * (1 - b idx
                        + b idx
                          * (INR (length (_tokenize
                                            (tokenizationOptions idx)
                                            content))
                             / mean_length (tokenizationOptions idx)
                                 (documents idx))))%R
          by (apply Rmult_le_pos; lra).
        lra.
      + pose proof (consistent_contribution idx term id content i C E) as K.
        rewrite <- Hf in K. unfold term_score in K. cbv zeta in K.
        rewrite <- Hf in K.
        destruct (frequency p =? 0)%nat eqn:Z;
          [apply Nat.eqb_eq in Z; contradiction|].
        exact K.
    - intros query k rs r HS Hr. unfold search in HS.
      destruct (score_terms_ok idx
                  (_tokenize (tokenizationOptions idx) query) [] W U)
        as [scores [T (ND & Hin & _)]].
      { repeat split; [constructor | intros x [] | intros ? ? []]. }
      rewrite T in HS. cbn [bind] in HS. injection HS as <-.
      destruct (slice0_firstn
                  (sort_desc bm_score (map (to_result idx) scores)) k)
        as [n En].
      rewrite En in Hr. apply In_firstn, sort_desc_In in Hr.
      apply in_map_iff in Hr as ([id v] & <- & Hv). cbn [to_result bm_id
        bm_score fst snd].
      assert (Hid : In id (map fst (documents idx))).
      { apply Hin. change id with (fst (id, v)). now apply in_map. }
      apply in_map_iff in Hid as ([id' content] & E & Hd).
      cbn [fst] in E. subst id'. exists content. split; [exact Hd|].
      apply In_nth_error in Hd as [i Hi].
      pose proof (score_terms_adds idx _ C [] scores T id content i Hi) as A.
      unfold score_at at 1 in A. rewrite (SMap_In_get id v scores ND Hv) in A.
      exact A. }
  assert (A : averageDocumentLength foo_index = 10%R).
  { change (averageDocumentLength foo_index)
      with ((0 * INR 0 + INR 10) / INR 1)%R.
    simpl. lra. }
  repeat split; try reflexivity; auto.
  assert (V : (0 + _calculateBM25Score foo_index 0 2
                     (_calculateIDF foo_index "foo")
               = ln (1 + 1 / 3 + 0.25) * (4.4 / 3.2))%R).
  { rewrite Rplus_0_l. unfold _calculateBM25Score, _calculateIDF. rewrite A.
    change (invertedIndex foo_index)
      with (("foo", [{| docIndex := 0; frequency := 2 |}])
              :: tl (invertedIndex foo_index)).
    change (documentLengths foo_index) with [10%nat].
    change (documentCount foo_index) with 1%nat.
    change (k1 foo_index) with DEFAULT_K1.
    change (b foo_index) with DEFAULT_B.
    change (epsilon foo_index) with DEFAULT_EPSILON.
    cbn [SMap.get String.eqb Ascii.eqb Bool.eqb length nth].
    unfold DEFAULT_K1, DEFAULT_B, DEFAULT_EPSILON.
    replace (INR 10) with 10%R by (simpl; lra).
    replace (INR 2) with 2%R by (simpl; lra).
    replace (INR 1) with 1%R by (simpl; lra).
    f_equal; [f_equal|]; lra. }
  exists {| bm_id := "d1";
            bm_score := 0 + _calculateBM25Score foo_index 0 2
                              (_calculateIDF foo_index "foo");
            bm_metadata := Some sample_metadata |}.
  split; [reflexivity|]. cbn [bm_id bm_score]. rewrite V.
  repeat split. rewrite Rminus_diag, Rabs_R0. lra.
Qed.

Lemma bm25_score_formula_witness :
  exists content,
    In ("d1", content) (documents foo_index)
    /\ (0 + _calculateBM25Score foo_index 0 2
              (_calculateIDF foo_index "foo"))%R
       = query_score foo_index "foo" content.
Proof.
  assert (B : built foo_index)
    by (unfold foo_index, default_BM25Index; repeat constructor).
  assert (U : usual_parameters foo_index).
  { unfold usual_parameters.
    change (k1 foo_index) with DEFAULT_K1.
    change (b foo_index) with DEFAULT_B.
    change (epsilon foo_index) with DEFAULT_EPSILON.
    unfold DEFAULT_K1, DEFAULT_B, DEFAULT_EPSILON. lra. }
  apply (proj2 (proj1 bm25_score_formula foo_index B U) "foo" 5%Z
           [{| bm_id := "d1";
               bm_score := 0 + _calculateBM25Score foo_index 0 2
                                 (_calculateIDF foo_index "foo");
               bm_metadata := Some sample_metadata |}]
           {| bm_id := "d1";
              bm_score := 0 + _calculateBM25Score foo_index 0 2
                                (_calculateIDF foo_index "foo");
              bm_metadata := Some sample_metadata |}).
  - reflexivity.
  - simpl. auto.
Defined.


(** ** Hybrid fuser: what [mergeResults] returns *)

Lemma bm25_score_of_snoc (id : string) (rs : list BM25SearchResult)
  (r : BM25SearchResult) :
  bm25_score_of id (rs ++ [r])
  = if String.eqb (bm_id r) id then bm_score r else bm25_score_of id rs.
Proof. unfold bm25_score_of. now rewrite fold_left_app. Qed.

Lemma vector_score_of_snoc (id : string) (rs : list VectorSearchResult)
  (r : VectorSearchResult) :
  vector_score_of id (rs ++ [r])
  = if String.eqb (String_of_id (vs_id r)) id then vs_score r
    else vector_score_of id rs.
Proof. unfold vector_score_of. now rewrite fold_left_app. Qed.

Lemma bm25_score_of_absent (id : string) (rs : list BM25SearchResult) :
  ~ In id (map bm_id rs) -> bm25_score_of id rs = 0%R.
Proof.
  unfold bm25_score_of. generalize 0%R.
  induction rs as [|x rs IH]; intros acc Hn; simpl; auto.
  destruct (String.eqb_spec (bm_id x) id) as [Ex|Nx].
  - exfalso. apply Hn. simpl. auto.
  - apply IH. intros Hi. apply Hn. simpl. auto.
Qed.

(** The shape shared by the two loops: the entry of [id] is created when
    it is missing and then updated by [upd]. *)
Lemma upsert_entries {V} (id : string) (fresh : V) (upd : V -> V)
  (m : SMap.t V) :
  NoDup (SMap.keys m) ->
  let m1 := if SMap.has id m then m else SMap.set id fresh m in
  exists old,
    SMap.get id m1 = Some old
    /\ ((~ In id (SMap.keys m) /\ old = fresh) \/ In (id, old) m)
    /\ NoDup (SMap.keys (SMap.set id (upd old) m1))
    /\ (forall k, In k (SMap.keys (SMap.set id (upd old) m1))
                  <-> In k (SMap.keys m) \/ k = id)
    /\ forall k e, In (k, e) (SMap.set id (upd old) m1) ->
         (k = id /\ e = upd old) \/ (k <> id /\ In (k, e) m).
Proof.
  intros ND m1.
  assert (ND1 : NoDup (SMap.keys m1)).
  { unfold m1. destruct (SMap.has id m); auto using SMap_NoDup_set. }
  assert (K1 : forall k, In k (SMap.keys m1) <-> In k (SMap.keys m) \/ k = id).
  { intros k. unfold m1. destruct (SMap.has id m) eqn:Hh.
    - apply SMap_has_In in Hh. split; auto. intros [?| ->]; auto.
    - rewrite SMap_keys_set, Hh, in_app_iff. simpl. intuition. }
  assert (Hh1 : SMap.has id m1 = true) by (apply SMap_has_In, K1; auto).
  assert (G : exists old, SMap.get id m1 = Some old
                          /\ ((~ In id (SMap.keys m) /\ old = fresh)
                              \/ In (id, old) m)).
  { unfold m1. destruct (SMap.has id m) eqn:Hh.
    - unfold SMap.has in Hh. destruct (SMap.get id m) as [o|] eqn:E;
        [|discriminate].
      exists o. split; auto. right. now apply SMap_get_In.
    - exists fresh. rewrite SMap_get_set_same. split; auto. left.
      split; auto. intros Hi. apply SMap_has_In in Hi. congruence. }
  destruct G as (old & G1 & G2). exists old.
  split; auto. split; auto. split; [now apply SMap_NoDup_set|]. split.
  - intros k. rewrite SMap_keys_set, Hh1. apply K1.
  - intros k e H. apply SMap_In_set in H as [[-> ->]|[N H]]; auto.
    right. split; auto. unfold m1 in H. destruct (SMap.has id m); auto.
    apply SMap_In_set in H as [[? _]|[_ H]]; auto. congruence.
Qed.

Lemma merge_bm25_ok (pre : list BM25SearchResult) (m : SMap.t SearchResult)
  (r : BM25SearchResult) (md : Metadata) :
  bm_metadata r = Some md ->
  merged_ok pre [] m ->
  exists m', merge_bm25 m r = Ok m' /\ merged_ok (pre ++ [r]) [] m'.
Proof.
  intros Hm (ND & K & E). unfold merge_bm25. rewrite Hm.
  cbn [bind toSearchResultMetadata].
  destruct (upsert_entries (bm_id r) (fresh_entry (bm_id r) md)
              (fun entry => {| sr_id := sr_id entry; bm25Score := bm_score r;
                               vectorScore := vectorScore entry;
                               combinedScore := combinedScore entry;
                               sr_metadata := Some md |}) m ND)
    as (old & G & O & ND' & K' & E').
  cbv zeta in G, ND', K', E'. rewrite G. eexists. split; [reflexivity|].
  assert (Old : sr_id old = bm_id r /\ vectorScore old = 0%R).
  { destruct O as [[_ ->]|O]; [now split|].
    destruct (E _ _ O) as (? & _ & ?). auto. }
  split; [exact ND'|]. split.
  - intros id. rewrite K', K, map_app, in_app_iff. simpl. intuition.
  - intros id e H. apply E' in H as [[-> ->]|[N H]]; cbn.
    + rewrite bm25_score_of_snoc, String.eqb_refl. tauto.
    + destruct (E _ _ H) as (E1 & E2 & E3).
      rewrite bm25_score_of_snoc.
      destruct (String.eqb_spec (bm_id r) id); [congruence|]. auto.
Qed.

Lemma merge_all_bm25_ok (rs pre : list BM25SearchResult)
  (m : SMap.t SearchResult) :
  Forall (fun r => bm_metadata r <> None) rs ->
  merged_ok pre [] m ->
  exists m', merge_all_bm25 rs m = Ok m' /\ merged_ok (pre ++ rs) [] m'.
Proof.
  revert pre m. induction rs as [|r rs IH]; intros pre m F H; simpl.
  - rewrite app_nil_r. eauto.
  - inversion F as [|? ? Hr F']; subst.
    destruct (bm_metadata r) as [md|] eqn:Hm; [|congruence].
    destruct (merge_bm25_ok pre m r md Hm H) as (m1 & -> & H1).
    cbn [bind]. replace (pre ++ r :: rs) with ((pre ++ [r]) ++ rs)
      by (now rewrite <- app_assoc).
    now apply IH.
Qed.

Lemma merge_vector_ok (bm : list BM25SearchResult)
  (pre : list VectorSearchResult) (m : SMap.t SearchResult)
  (r : VectorSearchResult) :
  merged_ok bm pre m -> merged_ok bm (pre ++ [r]) (merge_vector m r).
Proof.
  intros (ND & K & E). unfold merge_vector.
  set (id := String_of_id (vs_id r)).
  set (md := vectorToSearchResultMetadata (vs_metadata r)).
  destruct (upsert_entries id (fresh_entry id md)
              (fun entry => {| sr_id := sr_id entry;
                               bm25Score := bm25Score entry;
                               vectorScore := vs_score r;
                               combinedScore := combinedScore entry;
                               sr_metadata := Some md |}) m ND)
    as (old & G & O & ND' & K' & E').
  cbv zeta in G, ND', K', E'. rewrite G.
  assert (Old : sr_id old = id /\ bm25Score old = bm25_score_of id bm).
  { destruct O as [[Hn ->]|O].
    - split; auto. simpl. symmetry. apply bm25_score_of_absent.
      intros Hi. apply Hn, K. auto.
    - destruct (E _ _ O) as (? & ? & _). auto. }
  split; [exact ND'|]. split.
  - intros k. rewrite K', K. unfold vector_keys.
    rewrite map_app, in_app_iff. simpl. fold id. intuition.
  - intros k e H. apply E' in H as [[-> ->]|[N H]]; cbn.
    + rewrite vector_score_of_snoc. fold id. rewrite String.eqb_refl. tauto.
    + destruct (E _ _ H) as (E1 & E2 & E3).
      rewrite vector_score_of_snoc. fold id.
      destruct (String.eqb_spec id k); [congruence|]. auto.
Qed.

Lemma merge_vectors_ok (bm : list BM25SearchResult)
  (rs pre : list VectorSearchResult) (m : SMap.t SearchResult) :
  merged_ok bm pre m ->
  merged_ok bm (pre ++ rs) (fold_left merge_vector rs m).
Proof.
  revert pre m. induction rs as [|r rs IH]; intros pre m H; simpl.
  - now rewrite app_nil_r.
  - replace (pre ++ r :: rs) with ((pre ++ [r]) ++ rs)
      by (now rewrite <- app_assoc).
    apply IH. now apply merge_vector_ok.
Qed.

(** [mergeResults] on results that carry their metadata: one entry for
    each key, the ids of the BM25 results and the printed numbers of the
    vector results; an entry holds the scores of its key from the two
    sides, [0] for a side without this key, and their weighted sum; the
    entries come in non-increasing order of that sum. *)
Theorem mergeResults_entries (bm : list BM25SearchResult)
  (vec : list VectorSearchResult) (wb wv : R) :
  Forall (fun r => bm_metadata r <> None) bm ->
  exists out,
    mergeResults bm vec wb wv = Ok out
    /\ NoDup (map sr_id out)
    /\ (forall id, In id (map sr_id out)
                   <-> In id (map bm_id bm) \/ In id (vector_keys vec))
    /\ (forall e, In e out ->
          bm25Score e = bm25_score_of (sr_id e) bm
          /\ vectorScore e = vector_score_of (sr_id e) vec
          /\ combinedScore e = (bm25Score e * wb + vectorScore e * wv)%R)
    /\ descending combinedScore out.
Proof.
  intros F. unfold mergeResults.
  destruct (merge_all_bm25_ok bm [] [] F) as (m1 & -> & H1).
  { split; [constructor|]. split.
    - intros id. simpl. tauto.
    - intros ? ? []. }
  cbn [bind]. simpl app in H1.
  pose proof (merge_vectors_ok bm vec [] m1 H1) as (ND & K & E).
  simpl app in *. set (m2 := fold_left merge_vector vec m1) in *.
  eexists. split; [reflexivity|].
  set (entries := map (combine wb wv) (SMap.values m2)).
  assert (Ids : map sr_id entries = SMap.keys m2).
  { unfold entries, SMap.values, SMap.keys. rewrite !map_map.
    apply map_ext_in. intros [k e] H. simpl. now destruct (E _ _ H). }
  assert (P : Permutation (sort_desc combinedScore entries) entries)
    by apply sort_desc_perm.
  split.
  { apply (Permutation_NoDup (l := map sr_id entries)).
    - apply Permutation_map. now symmetry.
    - now rewrite Ids. }
  split.
  { intros id. rewrite <- K, <- Ids. split; apply Permutation_in;
      apply Permutation_map; [|symmetry]; exact P. }
  split; [|apply sort_desc_sorted].
  intros e He. apply sort_desc_In in He. unfold entries, SMap.values in He.
  rewrite map_map in He. apply in_map_iff in He as [[k x] [<- Hx]].
  destruct (E _ _ Hx) as (E1 & E2 & E3). cbn. rewrite E1. auto.
Qed.

Lemma mergeResults_entries_witness :
  exists out,
    mergeResults [bm25_hit] [vector_hit] 0.3 0.7 = Ok out
    /\ NoDup (map sr_id out)
    /\ (forall id, In id (map sr_id out)
                   <-> In id (map bm_id [bm25_hit])
                       \/ In id (vector_keys [vector_hit]))
    /\ (forall e, In e out ->
          bm25Score e = bm25_score_of (sr_id e) [bm25_hit]
          /\ vectorScore e = vector_score_of (sr_id e) [vector_hit]
          /\ combinedScore e = (bm25Score e * 0.3 + vectorScore e * 0.7)%R)
    /\ descending combinedScore out.
Proof.
  apply (mergeResults_entries [bm25_hit] [vector_hit] 0.3 0.7).
  repeat constructor. discriminate.
Defined.

(** A BM25 result without metadata makes [mergeResults] throw. *)
Theorem mergeResults_undefined_metadata (bm : list BM25SearchResult)
  (vec : list VectorSearchResult) (wb wv : R) :
  Exists (fun r => bm_metadata r = None) bm ->
  mergeResults bm vec wb wv
  = Err "TypeError: Cannot read properties of undefined".
Proof.
  intros X. unfold mergeResults.
  assert (G : forall m, merge_all_bm25 bm m
                        = Err "TypeError: Cannot read properties of undefined").
  { induction X as [r rs Hr|r rs X IH]; intros m; simpl.
    - unfold merge_bm25. now rewrite Hr.
    - destruct (merge_bm25 m r) as [m1|e] eqn:E; simpl; auto.
      unfold merge_bm25 in E. destruct (bm_metadata r); simpl in E.
      + destruct (SMap.get _ _) in E; discriminate.
      + injection E as <-. reflexivity. }
  now rewrite G.
Qed.

Lemma mergeResults_undefined_metadata_witness :
  mergeResults [{| bm_id := "a"; bm_score := 1; bm_metadata := None |}]
    [vector_hit] 0.3 0.7
  = Err "TypeError: Cannot read properties of undefined".
Proof.
  apply mergeResults_undefined_metadata. now constructor.
Defined.
(** ** Hybrid fuser: root cause, groups and the size of the answer *)


Lemma descending_head {A} (key : A -> R) (x : A) (l : list A) :
  descending key (x :: l) -> forall y, In y (x :: l) -> (key y <= key x)%R.
Proof.
  intros S y [<-|Hy]; [lra|]. inversion S as [|? ? _ F]; subst.
  now apply (proj1 (Forall_forall _ _) F).
Qed.

Lemma sort_desc_head {A} (key : A -> R) (rs : list A) (r : A) :
  hd_error (sort_desc key rs) = Some r ->
  In r rs /\ forall r', In r' rs -> (key r' <= key r)%R.
Proof.
  intros Hr. pose proof (sort_desc_sorted key rs) as S.
  destruct (sort_desc key rs) as [|x l] eqn:E; [discriminate|].
  simpl in Hr. injection Hr as ->. split.
  - apply (sort_desc_In key). rewrite E. now left.
  - intros r' Hr'. apply (descending_head key r l S).
    rewrite <- E. now apply sort_desc_In.
Qed.

Section RootCauseFacts.
Variable mentionedFiles : string -> list string.

Lemma identifyRootCauseFile_In (rs : list SearchResult) (errorLog : string)
  (r : SearchResult) :
  identifyRootCauseFile mentionedFiles rs errorLog = Some r -> In r rs.
Proof.
  unfold identifyRootCauseFile. destruct rs as [|x rs']; [discriminate|].
  intros H. now apply sort_desc_head in H.
Qed.



(** [identifyRootCauseFile] answers [null] exactly for an empty list;
    otherwise it answers one of the results, and no result has a greater
    root-cause score. *)
Theorem identifyRootCauseFile_maximal (rs : list SearchResult)
  (errorLog : string) :
  (identifyRootCauseFile mentionedFiles rs errorLog = None <-> rs = [])
  /\ forall r,
      identifyRootCauseFile mentionedFiles rs errorLog = Some r ->
      In r rs
      /\ forall r', In r' rs ->
           (rootCauseScore (mentionedFiles errorLog) r'
            <= rootCauseScore (mentionedFiles errorLog) r)%R.
Proof.
  set (key := rootCauseScore (mentionedFiles errorLog)).
  unfold identifyRootCauseFile. destruct rs as [|x rs'].
  - split; [tauto | discriminate].
  - split; [|apply sort_desc_head].
    split; [|discriminate]. intros N. exfalso.
    pose proof (sort_desc_length key (x :: rs')) as L. fold key in N.
    destruct (sort_desc key (x :: rs')); simpl in *; discriminate.
Qed.
End RootCauseFacts.

Lemma identifyRootCauseFile_maximal_witness :
  In (scored_result "c1" 1 (Some sample_metadata))
    [scored_result "c1" 1 (Some sample_metadata)]
  /\ forall r', In r' [scored_result "c1" 1 (Some sample_metadata)] ->
       (rootCauseScore [] r'
        <= rootCauseScore [] (scored_result "c1" 1 (Some sample_metadata)))%R.
Proof.
  apply (proj2 (identifyRootCauseFile_maximal (fun _ => [])
                  [scored_result "c1" 1 (Some sample_metadata)] "log")).
  reflexivity.
Defined.

Lemma concat_values_set {V X} (f : V -> list X) (k : string) (v v' : V)
  (x : X) (m : SMap.t V) :
  SMap.get k m = Some v -> f v' = f v ++ [x] ->
  Permutation (concat (map f (SMap.values (SMap.set k v' m))))
    (x :: concat (map f (SMap.values m))).
Proof.
  intros G Hf. induction m as [|[k0 v0] m IH]; simpl in *; [discriminate|].
  destruct (String.eqb_spec k k0) as [->|N]; simpl.
  - injection G as ->. rewrite Hf, <- app_assoc. simpl.
    symmetry. apply Permutation_middle.
  - rewrite (IH G). apply Permutation_sym, Permutation_middle.
Qed.

Lemma group_step_chunks (groups : SMap.t GroupedSearchResult)
  (r : SearchResult) :
  Permutation
    (concat (map chunks (SMap.values (group_step groups r))))
    ((if kept r then [r] else [])
       ++ concat (map chunks (SMap.values groups))).
Proof.
  destruct (kept r) eqn:K.
  - unfold group_step. unfold kept in K.
    destruct (sr_metadata r) as [md|]; [|discriminate].
    destruct (String.eqb (filePath md) ""); [discriminate|].
    set (fp := filePath md).
    set (g0 := {| g_filePath := fp; g_fileName := fileName md; chunks := [];
                  maxScore := 0; totalScore := 0 |}).
    set (g1 := if SMap.has fp groups then groups else SMap.set fp g0 groups).
    assert (E1 : concat (map chunks (SMap.values g1))
                 = concat (map chunks (SMap.values groups))).
    { unfold g1. destruct (SMap.has fp groups) eqn:H; auto.
      clear - H. unfold SMap.has in H.
      induction groups as [|[k v] m IH]; simpl in *; auto.
      destruct (String.eqb_spec fp k); [discriminate|]. simpl.
      now rewrite IH. }
    assert (G : exists g, SMap.get fp g1 = Some g).
    { unfold g1. destruct (SMap.has fp groups) eqn:H.
      - unfold SMap.has in H. destruct (SMap.get fp groups); eauto.
        discriminate.
      - rewrite SMap_get_set_same. eauto. }
    destruct G as [g G]. rewrite G, <- E1. simpl.
    eapply concat_values_set; eauto.
  - rewrite group_step_dropped by exact K. reflexivity.
Qed.

(** The groups partition the results that are kept (none is lost, none is
    repeated), and they come in non-increasing order of [maxScore]. *)
Theorem groupResultsByFile_partition (rs : list SearchResult) :
  Permutation (concat (map chunks (groupResultsByFile rs))) (filter kept rs)
  /\ descending maxScore (groupResultsByFile rs)
  /\ (length (concat (map chunks (groupResultsByFile rs))) <= length rs)%nat.
Proof.
  assert (P : Permutation (concat (map chunks (groupResultsByFile rs)))
                (filter kept rs)).
  { unfold groupResultsByFile.
    rewrite (Permutation_map chunks (sort_desc_perm maxScore _)).
    assert (G : forall groups,
               Permutation
                 (concat (map chunks
                            (SMap.values (fold_left group_step rs groups))))
                 (concat (map chunks (SMap.values groups))
                    ++ filter kept rs)).
    { induction rs as [|r rs IH]; intros groups; simpl.
      - now rewrite app_nil_r.
      - rewrite IH, group_step_chunks.
        destruct (kept r); simpl; auto.
        rewrite <- Permutation_middle. reflexivity. }
    rewrite G. reflexivity. }
  split; auto. split; [apply sort_desc_sorted|].
  rewrite (Permutation_length P). apply filter_length_le.
Qed.

Lemma merged_ok_start : merged_ok [] [] [].
Proof.
  split; [constructor|]. split.
  - intros id. simpl. tauto.
  - intros ? ? [].
Qed.



Section RetrievalAnswers.
Variable vectorSearch :
  VectorIndex -> string -> Z -> result (list VectorSearchResult).
Variable prepareQueryForSearch : string -> string.
Variable mentionedFiles : string -> list string.
Variable initializeRAG : string -> result (VectorIndex * BM25Index).
Variable indexCodebase : string -> result (VectorIndex * BM25Index).




(** On a BM25 index built by adding documents, [hybridSearch] throws
    exactly when the vector search throws, and then with the message of
    that failure behind its own prefix. *)
Theorem hybridSearch_fails_with_vector_search (query : string)
  (v : VectorIndex) (b : BM25Index) (o : HybridSearchOptions) :
  built b ->
  match vectorSearch v query
          (Z.min (opt_expandedK o)
             (Z.max (Z.of_nat (size v)) (Z.of_nat (documentCount b)))) with
  | Err e =>
      hybridSearch vectorSearch query v b o
      = Err ("Failed to perform hybrid search: " ++ e)%string
  | Ok _ => exists out, hybridSearch vectorSearch query v b o = Ok out
  end.
Proof.
  intros B. unfold hybridSearch.
  set (maxA := Z.max (Z.of_nat (size v)) (Z.of_nat (documentCount b))).
  destruct (search_on_built b query (Z.min (opt_expandedK o) maxA) B)
    as (bm & -> & _ & Hm).
  cbn [bind].
  destruct (vectorSearch v query (Z.min (opt_expandedK o) maxA)) as [vr|e];
    [|reflexivity].
  cbn [bind].
  assert (F : Forall (fun r => bm_metadata r <> None) bm).
  { apply Forall_forall. intros r Hr.
    destruct (Hm r Hr) as (_ & m & -> & _). discriminate. }
  unfold mergeResults.
  destruct (merge_all_bm25_ok bm [] [] F merged_ok_start) as (m1 & -> & _).
  cbn [bind rethrow]. eauto.
Qed.

End RetrievalAnswers.


Lemma hybridSearch_fails_with_vector_search_witness :
  exists out,
    hybridSearch no_vector_hits "alpha" createFAISSIndex tie_index
      default_hybrid_options = Ok out.
Proof.
  apply (hybridSearch_fails_with_vector_search no_vector_hits "alpha"
           createFAISSIndex tie_index default_hybrid_options).
  unfold tie_index, addDocuments. simpl. repeat constructor.
Defined.


(** ** Vector store: ids, search and statistics *)

Lemma number_from_fst {A} (start : nat) (l : list A) :
  map fst (number_from start l) = seq start (length l).
Proof.
  revert start. induction l as [|x l IH]; intros start; simpl; auto.
  now rewrite IH.
Qed.

Lemma number_from_snd {A} (start : nat) (l : list A) :
  map snd (number_from start l) = l.
Proof.
  revert start. induction l as [|x l IH]; intros start; simpl; auto.
  now rewrite IH.
Qed.

Lemma nmap_set_fresh {V} (k : nat) (v : V) (m : list (nat * V)) :
  ~ In k (map fst m) -> nmap_set k v m = m ++ [(k, v)].
Proof.
  induction m as [|[k' v'] m IH]; simpl; intros H; auto.
  destruct (Nat.eqb_spec k k') as [->|N]; [tauto|].
  rewrite IH; auto.
Qed.

Lemma store_metadata_fresh (new : list ChunkWithEmbedding)
  (m : list (nat * VectorMetadata)) (s : nat) :
  map fst m = seq 0 s ->
  fold_left (fun m e => nmap_set (fst e) (chunk_metadata (snd e)) m)
    (number_from s new) m
  = m ++ number_from s (map chunk_metadata new).
Proof.
  revert m s. induction new as [|c new IH]; intros m s H; simpl.
  - now rewrite app_nil_r.
  - rewrite nmap_set_fresh.
    + rewrite IH.
      * now rewrite <- app_assoc.
      * rewrite map_app, H, seq_S. reflexivity.
    + rewrite H, in_seq. lia.
Qed.

Lemma number_from_app {A} (start : nat) (l l' : list A) :
  number_from start (l ++ l')
  = number_from start l ++ number_from (start + length l) l'.
Proof.
  revert start. induction l as [|x l IH]; intros start; simpl.
  - now rewrite Nat.add_0_r.
  - rewrite IH.
    now replace (S start + length l)%nat with (start + S (length l))%nat
      by lia.
Qed.

Lemma addToIndex_dense (w : VectorIndex) (metas : list VectorMetadata)
  (chunks : list ChunkWithEmbedding) :
  dense w metas ->
  dense (addToIndex w chunks)
    (metas ++ map chunk_metadata (kept_chunks chunks)).
Proof.
  intros (H1 & H2 & H3). unfold addToIndex, kept_chunks.
  destruct (validate chunks) as [|e valid] eqn:E.
  - simpl. rewrite app_nil_r. repeat split; auto.
  - unfold dense. cbn [index size idToMetadata]. repeat split.
    + rewrite length_app, length_map. lia.
    + rewrite length_app, !length_map. lia.
    + rewrite store_metadata_fresh.
      * rewrite H3, number_from_app. simpl. now rewrite <- H2.
      * rewrite H3, number_from_fst. now rewrite <- H2.
Qed.

(** Vector ids are dense: after any calls of [addToIndex] on a new
    index, [size] is the number of stored records, the ids are [0 ..
    size-1] in order, and the metadata under id [i] is that of the i-th
    chunk that was kept. *)
Theorem addToIndex_dense_ids (batches : list (list ChunkWithEmbedding)) :
  let w := fold_left addToIndex batches createFAISSIndex in
  size w = length (index w)
  /\ map fst (idToMetadata w) = seq 0 (size w)
  /\ map snd (idToMetadata w)
     = map chunk_metadata (flat_map kept_chunks batches).
Proof.
  assert (G : forall w metas,
             dense w metas ->
             dense (fold_left addToIndex batches w)
               (metas ++ map chunk_metadata (flat_map kept_chunks batches))).
  { induction batches as [|chunks rest IH]; intros w metas D; simpl.
    - now rewrite app_nil_r.
    - rewrite map_app, app_assoc. apply IH. now apply addToIndex_dense. }
  destruct (G createFAISSIndex []) as (H1 & H2 & H3).
  { repeat split. }
  simpl app in *. cbv zeta. split; auto.
  rewrite H3, number_from_fst, number_from_snd, <- H2. auto.
Qed.

Lemma collect_hits_facts (m : list (nat * VectorMetadata)) (ls : list Z)
  (ds : list R) :
  (length (collect_hits m ls ds) <= Nat.min (length ls) (length ds))%nat
  /\ forall h, In h (collect_hits m ls ds) ->
       hit_score h = Rmax 0 (1 - hit_distance h / 100)
       /\ hit_id h <> (-1)%Z
       /\ In (hit_id h) ls /\ In (hit_distance h) ds
       /\ nmap_get (hit_id h) m = Some (hit_metadata h).
Proof.
  revert ds. induction ls as [|id ls IH]; intros [|d ds]; simpl;
    try (split; [lia | tauto]).
  destruct (IH ds) as [L F].
  destruct (Z.eqb_spec id (-1)) as [E|N].
  - split; [lia|]. intros h Hh. destruct (F h Hh) as (? & ? & ? & ? & ?).
    auto 10.
  - destruct (nmap_get id m) as [md|] eqn:G.
    + split; [simpl; lia|]. intros h [<-|Hh]; simpl; auto 10.
      destruct (F h Hh) as (? & ? & ? & ? & ?). auto 10.
    + split; [lia|]. intros h Hh. destruct (F h Hh) as (? & ? & ? & ? & ?).
      auto 10.
Qed.

Lemma collect_hits_complete (m : list (nat * VectorMetadata)) (ls : list Z)
  (ds : list R) (i : nat) (l : Z) (d : R) (md : VectorMetadata) :
  nth_error ls i = Some l -> nth_error ds i = Some d ->
  l <> (-1)%Z -> nmap_get l m = Some md ->
  In {| hit_id := l; hit_score := Rmax 0 (1 - d / 100);
        hit_distance := d; hit_metadata := md |} (collect_hits m ls ds).
Proof.
  revert ds i. induction ls as [|id ls IH]; intros [|d0 ds] [|i] Hl Hd N G;
    try discriminate.
  - simpl in Hl, Hd. injection Hl as ->. injection Hd as ->.
    simpl. destruct (Z.eqb_spec l (-1)) as [E|_]; [contradiction|].
    rewrite G. now left.
  - simpl in Hl, Hd. simpl.
    destruct (id =? -1)%Z; [eapply IH; eauto|].
    destruct (nmap_get id m); [right|]; eapply IH; eauto.
Qed.

Lemma collect_hits_sound (m : list (nat * VectorMetadata)) (ls : list Z)
  (ds : list R) (h : IndexHit) :
  In h (collect_hits m ls ds) ->
  exists i, nth_error ls i = Some (hit_id h)
            /\ nth_error ds i = Some (hit_distance h).
Proof.
  revert ds. induction ls as [|id ls IH]; intros [|d ds]; simpl;
    try tauto.
  assert (Later : In h (collect_hits m ls ds) ->
                  exists i, nth_error (id :: ls) i = Some (hit_id h)
                            /\ nth_error (d :: ds) i = Some (hit_distance h)).
  { intros H. destruct (IH ds H) as (i & H1 & H2). now exists (S i). }
  destruct (id =? -1)%Z; auto.
  destruct (nmap_get id m); auto.
  intros [<-|H]; auto. now exists 0%nat.
Qed.

Lemma searchIndex_facts (w : VectorIndex)
  (faiss_search : Z -> result FAISSSearchResult) (k : Z)
  (hits : list IndexHit) :
  searchIndex w faiss_search k = Ok hits ->
  descending hit_score hits
  /\ (forall h, In h hits ->
        hit_score h = Rmax 0 (1 - hit_distance h / 100)
        /\ (0 <= hit_score h)%R
        /\ ((0 <= hit_distance h)%R -> (hit_score h <= 1)%R)
        /\ ((100 <= hit_distance h)%R -> hit_score h = 0%R)
        /\ hit_id h <> (-1)%Z
        /\ nmap_get (hit_id h) (idToMetadata w) = Some (hit_metadata h))
  /\ (Z.min k (Z.of_nat (size w)) = 0%Z -> hits = [])
  /\ (Z.min k (Z.of_nat (size w)) <> 0%Z ->
      exists r,
        faiss_search (Z.min k (Z.of_nat (size w))) = Ok r
        /\ (forall h, In h hits ->
              exists i, nth_error (labels r) i = Some (hit_id h)
                        /\ nth_error (distances r) i
                           = Some (hit_distance h))
        /\ (forall i l d md,
              nth_error (labels r) i = Some l ->
              nth_error (distances r) i = Some d ->
              l <> (-1)%Z ->
              nmap_get l (idToMetadata w) = Some md ->
              In {| hit_id := l; hit_score := Rmax 0 (1 - d / 100);
                    hit_distance := d; hit_metadata := md |} hits)).
Proof.
  unfold searchIndex.
  destruct (Z.eqb_spec (Z.min k (Z.of_nat (size w))) 0) as [E|N].
  - intros H. injection H as <-.
    split; [constructor|]. split; [intros ? []|]. split; [auto|].
    intros N. contradiction.
  - destruct (faiss_search _) as [r|]; [|discriminate].
    cbn [bind rethrow]. intros H. injection H as <-.
    split; [apply sort_desc_sorted|]. split; [|split].
    + intros h Hh. apply sort_desc_In in Hh.
      apply collect_hits_facts in Hh as (S & N' & _ & _ & G).
      rewrite S. repeat split; auto.
      * apply Rmax_l.
      * intros Hd. apply Rmax_lub; lra.
      * intros Hd. apply Rmax_left. lra.
    + intros E. contradiction.
    + intros _. exists r. split; [reflexivity|]. split.
      * intros h Hh. apply sort_desc_In in Hh.
        eapply collect_hits_sound; eauto.
      * intros i l d md Hl Hd Hn G. apply sort_desc_In.
        eapply collect_hits_complete; eauto.
Qed.

(** What [searchIndex] answers.  The hits come in non-increasing order of
    score, and the score of a hit is [max(0, 1 - distance/100)]: never
    negative, at most [1] for a distance that is not negative, and [0]
    from distance [100] on.  When [min(k, size)] is [0] there is no hit;
    otherwise the hits are exactly the answers of FAISS whose label is
    not [-1] and has metadata in the store: each such answer gives a hit
    with its label, its distance and that metadata, and every hit comes
    from an answer. *)
Theorem searchIndex_scores (w : VectorIndex)
  (faiss_search : Z -> result FAISSSearchResult) (k : Z)
  (hits : list IndexHit) :
  searchIndex w faiss_search k = Ok hits ->
  descending hit_score hits
  /\ (forall h, In h hits ->
        hit_score h = Rmax 0 (1 - hit_distance h / 100)
        /\ (0 <= hit_score h)%R
        /\ ((0 <= hit_distance h)%R -> (hit_score h <= 1)%R)
        /\ ((100 <= hit_distance h)%R -> hit_score h = 0%R)
        /\ hit_id h <> (-1)%Z
        /\ nmap_get (hit_id h) (idToMetadata w) = Some (hit_metadata h))
  /\ (Z.min k (Z.of_nat (size w)) = 0%Z -> hits = [])
  /\ (Z.min k (Z.of_nat (size w)) <> 0%Z ->
      exists r,
        faiss_search (Z.min k (Z.of_nat (size w))) = Ok r
        /\ (forall h, In h hits ->
              exists i, nth_error (labels r) i = Some (hit_id h)
                        /\ nth_error (distances r) i
                           = Some (hit_distance h))
        /\ (forall i l d md,
              nth_error (labels r) i = Some l ->
              nth_error (distances r) i = Some d ->
              l <> (-1)%Z ->
              nmap_get l (idToMetadata w) = Some md ->
              In {| hit_id := l; hit_score := Rmax 0 (1 - d / 100);
                    hit_distance := d; hit_metadata := md |} hits)).
Proof. apply searchIndex_facts. Qed.

(** An empty index answers a search for [k >= 0] results with no hits
    and does not consult FAISS; a failure of FAISS on an index that is not
    empty is thrown again behind the prefix of [searchIndex]. *)
Theorem searchIndex_empty_and_failure (w : VectorIndex)
  (faiss_search : Z -> result FAISSSearchResult) (k : Z) :
  (size w = 0%nat -> (0 <= k)%Z -> searchIndex w faiss_search k = Ok [])
  /\ (forall e,
        (0 < k)%Z -> size w <> 0%nat ->
        faiss_search (Z.min k (Z.of_nat (size w))) = Err e ->
        searchIndex w faiss_search k
        = Err ("Failed to search index: " ++ e)%string).
Proof.
  unfold searchIndex. split.
  - intros -> Hk. replace (Z.min k (Z.of_nat 0)) with 0%Z by lia.
    reflexivity.
  - intros e Hk Hs He.
    destruct (Z.eqb_spec (Z.min k (Z.of_nat (size w))) 0) as [E|N]; [lia|].
    now rewrite He.
Qed.

Lemma searchIndex_scores_witness :
  exists hits,
    searchIndex two_vector_index faiss_answers 5 = Ok hits
    /\ In {| hit_id := 1; hit_score := Rmax 0 (1 - 4 / 100);
             hit_distance := 4;
             hit_metadata := chunk_metadata (sample_chunk (JF32 nan_response))
          |} hits
    /\ In {| hit_id := 0; hit_score := Rmax 0 (1 - 250 / 100);
             hit_distance := 250;
             hit_metadata := chunk_metadata (sample_chunk (JF32 nan_response))
          |} hits
    /\ descending hit_score hits.
Proof.
  eexists. split.
  - lazy -[Rplus Rmult Rdiv Rminus Ropp Rinv IZR ln Rlt_dec INR Rmax].
    reflexivity.
  - match goal with
    | |- In _ ?hits /\ _ =>
        destruct (searchIndex_scores two_vector_index faiss_answers 5 hits)
          as (D & _ & _ & C)
    end.
    + lazy -[Rplus Rmult Rdiv Rminus Ropp Rinv IZR ln Rlt_dec INR Rmax].
      reflexivity.
    + destruct C as (r & E & _ & C); [vm_compute; discriminate|].
      injection E as <-.
      split; [|split; [|exact D]].
      * apply (C 1%nat); try reflexivity. discriminate.
      * apply (C 0%nat); try reflexivity. discriminate.
Defined.

Lemma searchIndex_empty_and_failure_witness :
  searchIndex createFAISSIndex sample_faiss 5 = Ok [].
Proof.
  apply (proj1 (searchIndex_empty_and_failure createFAISSIndex sample_faiss 5)).
  - reflexivity.
  - lia.
Defined.

(** ** Embedding client: formatting and validation *)

(** [formatEmbeddingForVectorStore] always returns a typed array; it has
    768 components unless the argument is an object that wraps a typed
    array of another length in [values], which is returned as it is. *)
Theorem formatEmbeddingForVectorStore_dimension (e : jsval) :
  exists v,
    formatEmbeddingForVectorStore e = JF32 v
    /\ ((forall w, prop "values" e = JF32 w ->
                   length w = EMBEDDING_DIMENSION) ->
        length v = EMBEDDING_DIMENSION).
Proof.
  unfold formatEmbeddingForVectorStore.
  assert (Z : length zero_vector = EMBEDDING_DIMENSION)
    by apply repeat_length.
  destruct (negb (truthy e)); [eauto|].
  destruct e as [| |bv|x|s|items|v|props]; eauto.
  - destruct (numbers_not_nan (flat_items items)) as [|n ns]; eauto.
    eexists. split; [reflexivity|]. intros _.
    rewrite length_map. apply fit_length.
  - destruct (Nat.eqb_spec (length v) EMBEDDING_DIMENSION) as [E|N];
      cbn [negb]; eauto.
    eexists. split; [reflexivity|]. intros _.
    rewrite length_app, length_firstn, repeat_length. lia.
  - destruct (prop "values" (JObj props)) eqn:P; eauto.
Qed.

Lemma formatEmbeddingForVectorStore_dimension_witness :
  exists v,
    formatEmbeddingForVectorStore (JF32 [Fin 1; Fin 2]) = JF32 v
    /\ length v = EMBEDDING_DIMENSION.
Proof.
  destruct (formatEmbeddingForVectorStore_dimension (JF32 [Fin 1; Fin 2]))
    as (v & E & L).
  exists v. split; [exact E|]. apply L. discriminate.
Defined.

Lemma formatEmbedding_typed (e : jsval) :
  is_valid_array (formatEmbeddingForVectorStore e) = false.
Proof.
  unfold formatEmbeddingForVectorStore.
  destruct (negb (truthy e)); auto.
  destruct e as [| |bv|x|s|items|v|props]; auto.
  - now destruct (numbers_not_nan (flat_items items)).
  - now destruct (negb (length v =? EMBEDDING_DIMENSION)%nat).
  - now destruct (prop "values" (JObj props)).
Qed.

(** [validateEmbeddings] never counts an embedding as valid: what
    [formatEmbeddingForVectorStore] returns is a typed array, which fails
    [Array.isArray]; every chunk is counted invalid, with one message. *)
Theorem validateEmbeddings_never_valid (chunks : list ChunkWithEmbedding) :
  validEmbeddings (validateEmbeddings chunks) = 0%nat
  /\ invalidEmbeddings (validateEmbeddings chunks) = length chunks
  /\ totalChunks (validateEmbeddings chunks) = length chunks
  /\ length (errors (validateEmbeddings chunks)) = length chunks.
Proof.
  assert (G : forall res,
             let out := fold_left validate_chunk chunks res in
             validEmbeddings out = validEmbeddings res
             /\ invalidEmbeddings out
                = (invalidEmbeddings res + length chunks)%nat
             /\ totalChunks out = totalChunks res
             /\ length (errors out)
                = (length (errors res) + length chunks)%nat).
  { induction chunks as [|c cs IH]; intros res; cbn [fold_left length].
    - cbv zeta. repeat split; lia.
    - destruct (IH (validate_chunk res c)) as (H1 & H2 & H3 & H4).
      cbv zeta. rewrite H1, H2, H3, H4. unfold validate_chunk.
      rewrite formatEmbedding_typed.
      destruct (truthy (embedding c));
        cbn [validEmbeddings invalidEmbeddings totalChunks errors];
        rewrite ?length_app; cbn [length]; repeat split; lia. }
  unfold validateEmbeddings.
  destruct (G {| totalChunks := length chunks; validEmbeddings := 0;
                 invalidEmbeddings := 0; errors := [] |})
    as (H1 & H2 & H3 & H4).
  cbv zeta in H1, H2, H3, H4.
  cbn [validEmbeddings invalidEmbeddings totalChunks errors length] in *.
  rewrite H1, H2, H3, H4. repeat split; lia.
Qed.

Section ExtractionFacts.
Variable JSON_parse : string -> option jsval.
Variable StringToNumber : string -> jsnum.

Lemma Ok_inj {A} (a b : A) : Ok a = Ok b -> a = b.
Proof. congruence. Qed.

Lemma fit_finite (l : list jsnum) :
  all_finite l = true -> all_finite (fit tenth l) = true.
Proof.
  intros F. unfold fit.
  destruct (length l =? EMBEDDING_DIMENSION)%nat; auto.
  destruct (length l <? EMBEDDING_DIMENSION)%nat.
  - unfold all_finite in *. rewrite forallb_app, F. simpl.
    apply forallb_forall. intros x Hx. apply repeat_spec in Hx. now subst.
  - unfold all_finite in *. rewrite forallb_forall in *.
    intros x Hx. apply F. eapply In_firstn; eauto.
Qed.

Lemma finite_numbers_finite (items : list jsval) :
  all_finite (finite_numbers StringToNumber items) = true.
Proof.
  unfold all_finite, finite_numbers. apply forallb_forall. intros x Hx.
  apply in_flat_map in Hx as (v & _ & Hv).
  destruct v as [| |bv|n|s|l|l|p]; simpl in Hv; try contradiction.
  - destruct (isFinite n) eqn:F; [|contradiction].
    destruct Hv as [<-|[]]. exact F.
  - destruct (negb (isNaN (StringToNumber s)) && isFinite (StringToNumber s))
      eqn:F; [|contradiction].
    destruct Hv as [<-|[]]. now apply andb_true_iff in F.
Qed.

Lemma extract_numbers_length (e : jsval) (v : list jsnum) :
  extract_numbers StringToNumber e = Ok v ->
  length v = EMBEDDING_DIMENSION
  /\ (forall items, e = JArr items -> all_finite v = true).
Proof.
  unfold extract_numbers. destruct e as [| |bv|x|s|items|w|props];
    try discriminate.
  - destruct (finite_numbers StringToNumber (flat_items items)) as [|n ns] eqn:E;
      [discriminate|].
    intros H. apply Ok_inj in H. subst v. split; [apply fit_length|].
    intros _ _. apply fit_finite. rewrite <- E. apply finite_numbers_finite.
  - destruct (Nat.eqb_spec (length w) EMBEDDING_DIMENSION) as [E|N];
      cbn [negb]; intros H; apply Ok_inj in H; subst v.
    + split; [exact E | discriminate].
    + split; [|discriminate].
      rewrite length_app, length_firstn, repeat_length. lia.
Qed.

(** Whatever [extractEmbeddingFromOutput] returns has 768 components, and
    when the output is a plain (possibly nested) array all of them are
    finite. *)
Theorem extractEmbeddingFromOutput_dimension (fuel : nat) (output : jsval)
  (v : list jsnum) :
  extractEmbeddingFromOutput JSON_parse StringToNumber fuel output = Ok v ->
  length v = EMBEDDING_DIMENSION
  /\ (forall items, output = JArr items -> all_finite v = true).
Proof.
  assert (B : forall e, extract_numbers StringToNumber e = Ok v ->
                        length v = EMBEDDING_DIMENSION)
    by (intros e E; now apply extract_numbers_length in E).
  assert (W : forall o,
             (if truthy (prop "embedding" o)
              then extract_numbers StringToNumber (prop "embedding" o)
              else if truthy (prop "data" o)
              then
                let data := prop "data" o in
                extract_numbers StringToNumber
                  (match data with JArr _ => item0 data | _ => data end)
              else
                match item0 o with
                | JArr items => extract_numbers StringToNumber (JArr items)
                | _ => extract_numbers StringToNumber (object_values o)
                end) = Ok v ->
             length v = EMBEDDING_DIMENSION).
  { intros o H.
    destruct (truthy (prop "embedding" o)); [now apply B in H|].
    destruct (truthy (prop "data" o)); [cbv zeta in H; now apply B in H|].
    destruct (item0 o); now apply B in H. }
  clear B. revert output v W.
  induction fuel as [|fuel IH]; intros output v W H;
    destruct output as [| |bv|x|s|items|w|props];
    cbn [extractEmbeddingFromOutput] in H; try discriminate;
    try (now apply extract_numbers_length in H);
    try (split; [now apply W in H | discriminate]).
  split; [|discriminate].
  destruct (JSON_parse s) as [parsed|]; [|discriminate].
  destruct (extractEmbeddingFromOutput JSON_parse StringToNumber fuel
              parsed) as [v'|] eqn:E; [|discriminate].
  apply Ok_inj in H. subst v'. apply IH in E; [apply E|].
  exact W.
Qed.
End ExtractionFacts.

Lemma extractEmbeddingFromOutput_dimension_witness :
  length (fit tenth [Fin 1]) = EMBEDDING_DIMENSION
  /\ (forall items, JArr [JNum (Fin 1); JNum NaN] = JArr items ->
                    all_finite (fit tenth [Fin 1]) = true).
Proof.
  apply (extractEmbeddingFromOutput_dimension no_JSON no_number 0
           (JArr [JNum (Fin 1); JNum NaN]) (fit tenth [Fin 1])).
  reflexivity.
Defined.


(** * The tokenizer *)

Lemma chars_rev_string (acc s : string) :
  chars (Str.rev_string acc s) = rev (chars s) ++ chars acc.
Proof.
  revert acc. induction s as [|c s IH]; intros acc; simpl; auto.
  rewrite IH. simpl. now rewrite <- app_assoc.
Qed.

Lemma flush_tokens (cur : string) (out : list string) (t : string) :
  In t (Str.flush cur out) ->
  (cur <> "" /\ chars t = rev (chars cur)) \/ In t out.
Proof.
  destruct cur as [|c cur]; simpl; auto.
  intros [<-|H]; auto. left. split; [discriminate|].
  change (Str.rev_string "" (String c cur))
    with (Str.rev_string (String c "") cur).
  rewrite chars_rev_string. reflexivity.
Qed.

Lemma split_ws_aux_tokens (s cur t : string) :
  (forall c, In c (chars cur) -> Str.is_space c = false) ->
  In t (Str.split_ws_aux cur s) ->
  t <> ""
  /\ forall c, In c (chars t) ->
               Str.is_space c = false
               /\ (In c (chars cur) \/ In c (chars s)).
Proof.
  revert cur. induction s as [|d s IH]; intros cur C H; simpl in H.
  - apply flush_tokens in H as [(N & E)|[]]. split.
    + intros ->. destruct cur; [congruence|]. simpl in E.
      symmetry in E. now apply app_eq_nil in E as [_ ?].
    + intros c Hc. rewrite E in Hc. apply in_rev in Hc. auto.
  - destruct (Str.is_space d) eqn:D.
    + apply flush_tokens in H as [(N & E)|H].
      * split.
        -- intros ->. destruct cur; [congruence|]. simpl in E.
           symmetry in E. now apply app_eq_nil in E as [_ ?].
        -- intros c Hc. rewrite E in Hc. apply in_rev in Hc. auto.
      * apply IH in H as (N & A); [|intros c []]. split; auto.
        intros c Hc. destruct (A c Hc) as (S & [[]|I]). simpl. auto.
    + apply IH in H as (N & A).
      * split; auto. intros c Hc. destruct (A c Hc) as (S & [I|I]).
        -- simpl in I. destruct I as [<-|I]; simpl; auto.
        -- simpl. auto.
      * intros c [<-|I]; auto.
Qed.

Lemma split_ws_tokens (s t : string) :
  In t (Str.split_ws s) ->
  t <> ""
  /\ forall c, In c (chars t) -> Str.is_space c = false /\ In c (chars s).
Proof.
  intros H. apply split_ws_aux_tokens in H as (N & A); [|intros c []].
  split; auto. intros c Hc. destruct (A c Hc) as (S & [[]|I]). auto.
Qed.

Lemma replace_class_chars (cls s : string) (c : ascii) :
  In c (chars (Str.replace_class cls s)) ->
  c = " "%char \/ (In c (chars s) /\ Str.mem_char c cls = false).
Proof.
  induction s as [|d s IH]; simpl; [intros []|].
  intros [E|H].
  - destruct (Str.mem_char d cls) eqn:M; auto. subst c. auto.
  - destruct (IH H) as [?|(I & M)]; auto.
Qed.

Lemma lower_char_not_upper (c : ascii) : Str.is_upper (Str.lower_char c) = false.
Proof.
  destruct c as [[] [] [] [] [] [] [] []]; reflexivity.
Qed.

Lemma toLowerCase_chars (s : string) (c : ascii) :
  In c (chars (Str.toLowerCase s)) -> Str.is_upper c = false.
Proof.
  induction s as [|d s IH]; simpl; [intros []|].
  intros [<-|H]; auto. apply lower_char_not_upper.
Qed.

Lemma substring_prefix (n : nat) (s : string) :
  exists r, s = (substring 0 n s ++ r)%string
            /\ String.length r = (String.length s - n)%nat.
Proof.
  revert n. induction s as [|c s IH]; intros n.
  - exists "". now destruct n.
  - destruct n as [|n]; simpl.
    + now exists (String c s).
    + destruct (IH n) as (r & E & L). exists r. split; auto.
      now rewrite <- E.
Qed.

Lemma chars_append (a b : string) : chars (a ++ b) = chars a ++ chars b.
Proof.
  induction a as [|c a IH]; simpl; auto. now rewrite IH.
Qed.

Lemma substring_whole (s : string) : substring 0 (String.length s) s = s.
Proof.
  induction s as [|c s IH]; simpl; auto. now rewrite IH.
Qed.

Lemma stem_cases (token : string) :
  _stem token = token
  \/ exists n, (1 <= n <= 4)%nat /\ (3 < String.length token)%nat
               /\ _stem token = Str.drop_last n token
               /\ (n = 4%nat -> Str.endsWith token "ment" = true).
Proof.
  unfold _stem.
  destruct (Nat.leb_spec (String.length token) 3) as [L|L]; auto.
  destruct (Str.endsWith token "ing");
    [right; exists 3%nat; repeat split; auto; lia|].
  destruct (Str.endsWith token "ed");
    [right; exists 2%nat; repeat split; auto; lia|].
  destruct (Str.endsWith token "s" && negb (Str.endsWith token "ss"));
    [right; exists 1%nat; repeat split; auto; lia|].
  destruct (Str.endsWith token "ly");
    [right; exists 2%nat; repeat split; auto; lia|].
  destruct (Str.endsWith token "ment") eqn:M; auto.
  right; exists 4%nat; repeat split; auto; lia.
Qed.

Lemma stem_prefix (token : string) :
  exists r, token = (_stem token ++ r)%string
            /\ (String.length r <= 4)%nat
            /\ ((String.length token <= 3)%nat -> r = "").
Proof.
  destruct (stem_cases token) as [E|(n & N & L & E & _)].
  - exists "". rewrite E. split; [|split; simpl; auto; lia].
    clear. induction token as [|c t IH]; simpl; auto. now rewrite <- IH.
  - unfold Str.drop_last in E.
    destruct (substring_prefix (String.length token - n) token)
      as (r & Er & Lr).
    exists r. rewrite E. split; auto. split; lia.
Qed.

Lemma stem_empty (token : string) :
  _stem token = "" -> token = "" \/ token = "ment".
Proof.
  intros H. destruct (stem_cases token) as [E|(n & N & L & E & M)].
  - left. congruence.
  - right. destruct (stem_prefix token) as (r & Er & Lr & _).
    rewrite H in Er. simpl in Er. subst r.
    assert (n = 4%nat /\ String.length token = 4%nat) as (-> & L4).
    { rewrite H in E. unfold Str.drop_last in E.
      destruct (substring_prefix (String.length token - n) token)
        as (r & Er & Lr'). rewrite <- E in Er. simpl in Er. subst r. lia. }
    specialize (M eq_refl). unfold Str.endsWith in M. rewrite L4 in M.
    apply andb_true_iff in M as (_ & M). apply String.eqb_eq in M.
    change (4 - String.length "ment")%nat with 0%nat in M.
    change (String.length "ment") with 4%nat in M.
    rewrite <- L4, substring_whole in M. exact M.
Qed.

Lemma pre_stem_tokens (opts : TokenizationOptions) (text t : string) :
  In t (_tokenize (without_stemming opts) text) ->
  t <> ""
  /\ forall c, In c (chars t) ->
       Str.is_space c = false
       /\ (lowercase opts = true -> Str.is_upper c = false)
       /\ (splitOnCode opts = true ->
           Str.mem_char c "{}()[]" = false
           /\ Str.mem_char c ";:,." = false
           /\ Str.mem_char c "-+*/%=<>!&|^~" = false).
Proof.
  unfold _tokenize, without_stemming.
  cbn [lowercase removeStopwords stemming splitOnCode]. cbv zeta.
  set (t1 := if lowercase opts then Str.toLowerCase text else text).
  set (t2 := if splitOnCode opts then code_delimiters t1 else t1).
  intros H.
  assert (H' : In t (Str.split_ws t2))
    by (destruct (removeStopwords opts); auto;
        now apply filter_In in H as [? _]).
  apply split_ws_tokens in H' as (N & A). split; auto.
  intros c Hc. destruct (A c Hc) as (S & I). split; auto.
  assert (SP : c <> " "%char) by (intros ->; discriminate).
  split.
  - intros LO. subst t2 t1. rewrite LO in I.
    destruct (splitOnCode opts).
    + unfold code_delimiters in I.
      apply replace_class_chars in I as [?|(I & _)]; [contradiction|].
      apply replace_class_chars in I as [?|(I & _)]; [contradiction|].
      apply replace_class_chars in I as [?|(I & _)]; [contradiction|].
      eapply toLowerCase_chars; eauto.
    + eapply toLowerCase_chars; eauto.
  - intros SC. subst t2. rewrite SC in I. unfold code_delimiters in I.
    apply replace_class_chars in I as [?|(I & M3)]; [contradiction|].
    apply replace_class_chars in I as [?|(I & M2)]; [contradiction|].
    apply replace_class_chars in I as [?|(I & M1)]; [contradiction|].
    auto.
Qed.

Lemma tokenize_stemmed (opts : TokenizationOptions) (text : string) :
  _tokenize opts text
  = if stemming opts
    then map _stem (_tokenize (without_stemming opts) text)
    else _tokenize (without_stemming opts) text.
Proof.
  unfold _tokenize, without_stemming.
  cbn [lowercase removeStopwords stemming splitOnCode]. reflexivity.
Qed.

(** No token returned by [_tokenize] contains white space; with
    [lowercase] on none contains an upper-case letter, and with
    [splitOnCode] on none contains a bracket, a punctuation mark or an
    operator character of the three classes the source replaces. *)
Theorem tokenize_alphabet (opts : TokenizationOptions) (text t : string)
  (c : ascii) :
  In t (_tokenize opts text) ->
  In c (chars t) ->
  Str.is_space c = false
  /\ (lowercase opts = true -> Str.is_upper c = false)
  /\ (splitOnCode opts = true ->
      Str.mem_char c "{}()[]" = false
      /\ Str.mem_char c ";:,." = false
      /\ Str.mem_char c "-+*/%=<>!&|^~" = false).
Proof.
  rewrite tokenize_stemmed. intros H Hc.
  destruct (stemming opts).
  - apply in_map_iff in H as (u & <- & H).
    apply pre_stem_tokens in H as (_ & A). apply A.
    destruct (stem_prefix u) as (r & E & _).
    rewrite E. unfold chars in *. rewrite chars_append.
    apply in_or_app. auto.
  - apply pre_stem_tokens in H as (_ & A). auto.
Qed.

Lemma tokenize_alphabet_witness :
  Str.is_space "r"%char = false
  /\ (lowercase default_tokenization = true -> Str.is_upper "r"%char = false)
  /\ (splitOnCode default_tokenization = true ->
      Str.mem_char "r"%char "{}()[]" = false
      /\ Str.mem_char "r"%char ";:,." = false
      /\ Str.mem_char "r"%char "-+*/%=<>!&|^~" = false).
Proof.
  apply (tokenize_alphabet default_tokenization sample_sentence "runn"
           "r"%char).
  - vm_compute. auto.
  - vm_compute. auto.
Defined.

(** [_stem] returns a prefix of its token: it removes at most four
    characters from the end, none from a token of at most three, and the
    result is empty only for the empty token and for the token [ment]. *)
Theorem stem_is_prefix (token : string) :
  (exists r, token = (_stem token ++ r)%string
             /\ (String.length r <= 4)%nat
             /\ ((String.length token <= 3)%nat -> r = ""))
  /\ (_stem token = "" <-> token = "" \/ token = "ment").
Proof.
  split; [apply stem_prefix|]. split; [apply stem_empty|].
  intros [->| ->]; reflexivity.
Qed.

(** [_tokenize] returns an empty token exactly when stemming is on and
    the word [ment] is among the tokens before stemming; without stemming
    every token is non-empty. *)
Theorem tokenize_empty_token (opts : TokenizationOptions) (text : string) :
  In "" (_tokenize opts text)
  <-> stemming opts = true
      /\ In "ment" (_tokenize (without_stemming opts) text).
Proof.
  rewrite tokenize_stemmed. destruct (stemming opts); split.
  - intros H. apply in_map_iff in H as (u & E & H). split; auto.
    apply stem_empty in E as [-> | ->]; auto.
    now apply pre_stem_tokens in H as (N & _).
  - intros (_ & H). apply in_map_iff. exists "ment". auto.
  - intros H. now apply pre_stem_tokens in H as (N & _).
  - intros (D & _). discriminate.
Qed.


(** * Preparing code text for the index *)

Lemma pairs_cons (p : ascii) (l : list ascii) (x : ascii * ascii) :
  In x (pairs (p :: l)) -> (fst x = p /\ hd_error l = Some (snd x))
                           \/ In x (pairs l).
Proof.
  destruct l as [|c l]; simpl; [intros []|].
  intros [<-|H]; auto.
Qed.

Lemma pairs_tail (p : ascii) (l : list ascii) (x : ascii * ascii) :
  In x (pairs l) -> In x (pairs (p :: l)).
Proof. destruct l as [|c l]; simpl; auto. Qed.

Lemma pairs_app_l (l m : list ascii) (x : ascii * ascii) :
  In x (pairs m) -> In x (pairs (l ++ m)).
Proof. induction l as [|c l IH]; simpl app; auto using pairs_tail. Qed.

Lemma pairs_app_r (l m : list ascii) (x : ascii * ascii) :
  In x (pairs l) -> In x (pairs (l ++ m)).
Proof.
  induction l as [|c l IH]; [intros []|].
  destruct l as [|d l]; [intros []|].
  simpl. intros [<-|H]; auto.
Qed.

Lemma strip_line_pairs (n : nat) :
  forall s p, (length s <= n)%nat ->
    ((p = "/"%char -> hd_error s <> Some "/"%char) ->
     ~ In ("/"%char, "/"%char) (pairs (p :: strip_line false s)))
    /\ ~ In ("/"%char, "/"%char) (pairs (p :: strip_line true s)).
Proof.
  induction n as [|n IH]; intros s p L.
  - destruct s; [|simpl in L; lia]. simpl. auto.
  - destruct s as [|c r]; [simpl; auto|]. simpl in L. split.
    + intros Hp. cbn [strip_line].
      destruct r as [|d r'].
      * simpl. intros [E|[]].
        assert (p = "/"%char /\ c = "/"%char) as (E1 & E2)
          by (split; congruence).
        subst. now apply Hp.
      * destruct (Ascii.eqb c "/" && Ascii.eqb d "/") eqn:E.
        -- apply IH. simpl in L. lia.
        -- intros H. apply pairs_cons in H as [(Ha & Hb)|H].
           ++ simpl in Ha, Hb. injection Hb as ->. subst p.
              now apply Hp.
           ++ revert H. apply IH; [lia|]. intros ->.
              simpl. intros Hd. injection Hd as ->. discriminate.
    + cbn [strip_line]. destruct (is_line_end c) eqn:E.
      * intros H. apply pairs_cons in H as [(Ha & Hb)|H].
        -- simpl in Hb. injection Hb as ->. discriminate.
        -- revert H. apply IH; [lia|]. intros ->. discriminate.
      * apply IH. lia.
Qed.

Lemma strip_hash_pairs (a b : ascii) (s : list ascii) :
  forall p,
    (In (a, b) (pairs (p :: strip_hash false s)) ->
     In (a, b) (pairs (p :: s)) \/ is_line_end b = true)
    /\ (In (a, b) (pairs (p :: strip_hash true s)) ->
        In (a, b) (pairs s) \/ is_line_end b = true).
Proof.
  induction s as [|c r IH]; intros p; [simpl; auto|]. split.
  - cbn [strip_hash]. destruct (Ascii.eqb c "#").
    + intros H. apply (IH p) in H as [H|H]; auto.
      left. now apply pairs_tail, pairs_tail.
    + intros H. apply pairs_cons in H as [(Ha & Hb)|H].
      * simpl in Ha, Hb. injection Hb as Hb. subst. simpl. auto.
      * apply (IH c) in H as [H|H]; auto. left. now apply pairs_tail.
  - cbn [strip_hash]. destruct (is_line_end c) eqn:E.
    + intros H. apply pairs_cons in H as [(Ha & Hb)|H].
      * simpl in Hb. injection Hb as Hb. subst. auto.
      * apply (IH c) in H as [H|H]; auto.
    + intros H. apply (IH p) in H as [H|H]; auto.
      left. now apply pairs_tail.
Qed.

Lemma strip_hash_chars (s : list ascii) (inside : bool) :
  ~ In "#"%char (strip_hash inside s).
Proof.
  revert inside. induction s as [|c r IH]; intros inside; [now destruct inside|].
  cbn [strip_hash]. destruct inside.
  - destruct (is_line_end c) eqn:E; auto.
    intros [->|H]; [discriminate|]. now apply IH in H.
  - destruct (Ascii.eqb_spec c "#"); auto.
    intros [E|H]; [congruence|]. now apply IH in H.
Qed.

Lemma collapse_ws_pairs (a b : ascii) (s : list ascii) :
  forall p in_run,
    In (a, b) (pairs (p :: collapse_ws in_run s)) ->
    (in_run = true -> p = " "%char) ->
    In (a, b) (pairs (p :: s)) \/ a = " "%char \/ b = " "%char.
Proof.
  induction s as [|c r IH]; intros p in_run H Hp; [simpl in H; auto|].
  cbn [collapse_ws] in H. destruct (Str.is_space c) eqn:E.
  - destruct in_run.
    + apply IH in H as [H|H]; auto.
      apply pairs_cons in H as [(Ha & _)|H].
      * simpl in Ha. subst a. auto.
      * left. now apply pairs_tail, pairs_tail.
    + apply pairs_cons in H as [(Ha & Hb)|H].
      * simpl in Hb. injection Hb as <-. auto.
      * apply IH in H as [H|H]; auto.
        apply pairs_cons in H as [(Ha & _)|H].
        -- simpl in Ha. subst a. auto.
        -- left. now apply pairs_tail, pairs_tail.
  - apply pairs_cons in H as [(Ha & Hb)|H].
    + simpl in Ha, Hb. injection Hb as <-. subst a. left. simpl. auto.
    + apply IH in H as [H|H]; auto; [|discriminate].
      left. now apply pairs_tail.
Qed.

Lemma collapse_ws_single (s : list ascii) :
  forall p in_run,
    (in_run = false -> p <> " "%char) ->
    ~ In (" "%char, " "%char) (pairs (p :: collapse_ws in_run s)).
Proof.
  induction s as [|c r IH]; intros p in_run Hp; [simpl; auto|].
  cbn [collapse_ws]. destruct (Str.is_space c) eqn:E.
  - destruct in_run.
    + apply IH. discriminate.
    + intros H. apply pairs_cons in H as [(Ha & _)|H].
      * simpl in Ha. now apply Hp.
      * revert H. apply IH. discriminate.
  - intros H. apply pairs_cons in H as [(_ & Hb)|H].
    + simpl in Hb. injection Hb as ->. discriminate.
    + revert H. apply IH. intros _ ->. discriminate.
Qed.

Lemma collapse_ws_chars (s : list ascii) (in_run : bool) (c : ascii) :
  In c (collapse_ws in_run s) ->
  (Str.is_space c = true -> c = " "%char)
  /\ (c = " "%char \/ In c s).
Proof.
  revert in_run. induction s as [|d r IH]; intros in_run; [intros []|].
  cbn [collapse_ws]. destruct (Str.is_space d) eqn:E.
  - destruct in_run.
    + intros H. apply IH in H as (A & [B|B]); simpl; auto.
    + intros [<-|H]; auto. apply IH in H as (A & [B|B]); simpl; auto.
  - intros [<-|H].
    + split; [congruence|simpl; auto].
    + apply IH in H as (A & [B|B]); simpl; auto.
Qed.

Lemma drop_ws_suffix (s : list ascii) :
  exists l, s = l ++ drop_ws s.
Proof.
  induction s as [|c r (l & E)]; [now exists []|]. simpl.
  destruct (Str.is_space c).
  - exists (c :: l). simpl. now rewrite <- E.
  - now exists [].
Qed.

Lemma drop_ws_head (s : list ascii) (c : ascii) :
  hd_error (drop_ws s) = Some c -> Str.is_space c = false.
Proof.
  induction s as [|d r IH]; [discriminate|]. simpl.
  destruct (Str.is_space d) eqn:E; auto.
  simpl. intros H. injection H as <-. exact E.
Qed.

Lemma trim_infix (s : list ascii) :
  exists l1 l2, s = l1 ++ trim s ++ l2.
Proof.
  unfold trim. destruct (drop_ws_suffix s) as (l1 & E1).
  destruct (drop_ws_suffix (rev (drop_ws s))) as (l2 & E2).
  exists l1, (rev l2). rewrite <- rev_app_distr, <- E2, rev_involutive.
  exact E1.
Qed.

Lemma trim_ends (s : list ascii) (c : ascii) :
  (hd_error (trim s) = Some c \/ hd_error (rev (trim s)) = Some c) ->
  Str.is_space c = false.
Proof.
  unfold trim. rewrite rev_involutive. intros [H|H].
  - destruct (drop_ws_suffix (rev (drop_ws s))) as (l & E).
    destruct (drop_ws (rev (drop_ws s))) as [|z m] eqn:D; [discriminate|].
    assert (R : rev (drop_ws s) = l ++ z :: m) by exact E.
    apply (f_equal (@rev ascii)) in R. rewrite rev_involutive in R.
    rewrite rev_app_distr in R. simpl in R.
    destruct (rev m ++ [z]) as [|y m'] eqn:M.
    + now destruct (rev m).
    + simpl in H. rewrite M in H. simpl in H. injection H as <-.
      simpl in R. apply (drop_ws_head s). rewrite R. reflexivity.
  - now apply drop_ws_head in H.
Qed.

(** What [preprocessCodeForBM25] returns contains no [#] and no [//]; its
    only white space is the space character, never two in a row and
    never at either end. *)
Theorem preprocessCodeForBM25_clean (codeContent : string) :
  let out := chars (preprocessCodeForBM25 codeContent) in
  ~ In "#"%char out
  /\ ~ In ("/"%char, "/"%char) (pairs out)
  /\ (forall c, In c out -> Str.is_space c = true -> c = " "%char)
  /\ ~ In (" "%char, " "%char) (pairs out)
  /\ hd_error out <> Some " "%char
  /\ hd_error (rev out) <> Some " "%char.
Proof.
  unfold preprocessCodeForBM25, chars. cbv zeta.
  rewrite list_ascii_of_string_of_list_ascii.
  set (s0 := strip_block false (list_ascii_of_string codeContent)).
  set (s2 := strip_hash false (strip_line false s0)).
  destruct (trim_infix (collapse_ws false s2)) as (l1 & l2 & E).
  assert (I : forall c, In c (trim (collapse_ws false s2)) ->
                        In c (collapse_ws false s2))
    by (intros c Hc; rewrite E; apply in_or_app; right;
        apply in_or_app; auto).
  assert (P : forall x, In x (pairs (trim (collapse_ws false s2))) ->
                        In x (pairs (collapse_ws false s2)))
    by (intros x Hx; rewrite E; now apply pairs_app_l, pairs_app_r).
  repeat split.
  - intros H. apply I, collapse_ws_chars in H as (_ & [H|H]);
      [discriminate|]. now apply strip_hash_chars in H.
  - intros H. apply P in H.
    apply (pairs_tail "a"%char) in H.
    apply collapse_ws_pairs in H as [H|[H|H]]; try discriminate.
    apply strip_hash_pairs in H as [H|H]; [|discriminate].
    revert H. apply (strip_line_pairs (length s0)); auto. discriminate.
  - intros c Hc. apply I in Hc. now apply collapse_ws_chars in Hc.
  - intros H. apply P in H. apply (pairs_tail "a"%char) in H.
    revert H. apply collapse_ws_single. intros _. discriminate.
  - intros H. now apply (fun h => trim_ends _ _ (or_introl h)) in H.
  - intros H. now apply (fun h => trim_ends _ _ (or_intror h)) in H.
Qed.

(** * From chunks to the vector store *)

Lemma slices_cover {A} (k : nat) :
  forall l : list A,
    (length l <= k * BATCH_SIZE)%nat ->
    flat_map (fun i => slice l i (i + BATCH_SIZE))
      (map (fun j => j * BATCH_SIZE)%nat (seq 0 k)) = l.
Proof.
  induction k as [|k IH]; intros l L.
  - destruct l; [reflexivity|simpl in L; lia].
  - rewrite <- cons_seq, <- seq_shift, map_cons, map_map.
    cbn [flat_map]. unfold slice at 1.
    replace (0 * BATCH_SIZE + BATCH_SIZE - 0 * BATCH_SIZE)%nat
      with BATCH_SIZE by lia.
    change (skipn (0 * BATCH_SIZE) l) with l.
    transitivity (firstn BATCH_SIZE l ++ skipn BATCH_SIZE l);
      [|apply firstn_skipn].
    f_equal.
    etransitivity;
      [|apply (IH (skipn BATCH_SIZE l)); rewrite length_skipn; lia].
    rewrite !flat_map_concat_map, !map_map. f_equal.
    apply map_ext. intros j. unfold slice.
    rewrite skipn_skipn.
    replace (S j * BATCH_SIZE + BATCH_SIZE - S j * BATCH_SIZE)%nat
      with BATCH_SIZE by lia.
    replace (j * BATCH_SIZE + BATCH_SIZE - j * BATCH_SIZE)%nat
      with BATCH_SIZE by lia.
    replace (S j * BATCH_SIZE)%nat with (j * BATCH_SIZE + BATCH_SIZE)%nat
      by lia.
    reflexivity.
Qed.

Lemma batch_starts_cover {A} (l : list A) :
  flat_map (fun i => slice l i (i + BATCH_SIZE)) (batch_starts (length l))
  = l.
Proof.
  unfold batch_starts. apply slices_cover.
  unfold BATCH_SIZE.
  pose proof (Nat.div_mod_eq (length l + 4 - 1) 4) as E.
  pose proof (Nat.mod_upper_bound (length l + 4 - 1) 4) as U. lia.
Qed.

Lemma batch_results (embed : string -> result (list jsnum))
  (chunks : list ChunkWithEmbedding) :
  flat_map (fun i => map (embed_chunk embed)
                       (slice chunks i (i + BATCH_SIZE)))
    (batch_starts (length chunks))
  = map (embed_chunk embed) chunks.
Proof.
  rewrite <- (batch_starts_cover chunks) at 2.
  rewrite !flat_map_concat_map, concat_map, map_map. reflexivity.
Qed.

Lemma processEmbedding_typed_kept (v : list jsnum) :
  processEmbedding (JF32 v) <> None.
Proof.
  unfold processEmbedding. simpl truthy. cbn [negb]. cbv iota.
  pose proof (fit_length zero v) as L. unfold EMBEDDING_DIMENSION in L.
  rewrite L, Nat.eqb_refl. cbn [negb].
  now destruct (existsb _ _).
Qed.

Lemma embed_chunk_metadata (embed : string -> result (list jsnum))
  (c : ChunkWithEmbedding) :
  chunk_metadata (embed_chunk embed c) = chunk_metadata c.
Proof. unfold embed_chunk. now destruct (embed (ck_content c)). Qed.

Lemma validate_embedded (embed : string -> result (list jsnum))
  (chunks : list ChunkWithEmbedding) :
  map chunk_metadata (map snd (validate (map (embed_chunk embed) chunks)))
  = map chunk_metadata
      (filter (fun c => succeeded (embed (ck_content c))) chunks).
Proof.
  induction chunks as [|c chunks IH]; [reflexivity|].
  cbn [map validate filter].
  assert (E : embedding (embed_chunk embed c)
              = match embed (ck_content c) with
                | Ok v => JF32 v
                | Err _ => JNull
                end)
    by (unfold embed_chunk; now destruct (embed (ck_content c))).
  rewrite E. destruct (embed (ck_content c)) as [v|e]; cbn [succeeded].
  - destruct (processEmbedding (JF32 v)) as [p|] eqn:P;
      [|now apply processEmbedding_typed_kept in P].
    cbn [map snd]. now rewrite IH, embed_chunk_metadata.
  - exact IH.
Qed.

(** From chunks to the store: [batchGenerateEmbeddings] fails only when
    the model cannot be initialised; otherwise it returns the chunks in
    their order, whatever the batch size, and [addToIndex] then stores
    exactly those whose embedding did not fail, in order. *)
Theorem batchGenerateEmbeddings_then_addToIndex (init : result unit)
  (embed : string -> result (list jsnum))
  (chunks : list ChunkWithEmbedding) (w : VectorIndex) :
  match init with
  | Err e =>
      batchGenerateEmbeddings init embed chunks
      = Err ("Failed to batch generate CodeBERT embeddings: " ++ e)%string
  | Ok _ =>
      exists cs,
        batchGenerateEmbeddings init embed chunks = Ok cs
        /\ map chunk_metadata cs = map chunk_metadata chunks
        /\ map chunk_metadata (kept_chunks cs)
           = map chunk_metadata
               (filter (fun c => succeeded (embed (ck_content c))) chunks)
        /\ size (addToIndex w cs)
           = (size w
              + length (filter (fun c => succeeded (embed (ck_content c)))
                          chunks))%nat
  end.
Proof.
  unfold batchGenerateEmbeddings. destruct init as [u|e]; [|reflexivity].
  cbn [bind rethrow]. rewrite batch_results.
  eexists. split; [reflexivity|]. split; [|split].
  - rewrite map_map. apply map_ext. apply embed_chunk_metadata.
  - apply validate_embedded.
  - pose proof (validate_embedded embed chunks) as V.
    apply (f_equal (@length _)) in V. rewrite !length_map in V.
    rewrite <- V. unfold addToIndex. cbv zeta.
    destruct (validate (map (embed_chunk embed) chunks)); cbn [size length];
      lia.
Qed.
